(** * Subword segmentation (apply_bpe.py, detokenize.py, bpe_srv.py)

    A shallow embedding of the segmentation engine, its rule-file loader,
    the case-feature codec and the serving endpoint, with the properties
    the specification states about them.

    Strings are sequences of Unicode code points, as Python 3 [str] is;
    tuples of symbols are lists; dictionaries are insertion-ordered
    association lists; exceptions are an error type. *)

From Stdlib Require Import String Ascii.
From Stdlib Require Import List NArith ZArith Arith Bool Lia.
Import ListNotations.

Set Implicit Arguments.

(** ** Python values *)

(** A character is its code point; [str] is a sequence of them. *)
Abbreviation char := N (only parsing).
Abbreviation str := (list N) (only parsing).

(** An ASCII literal as a [str]. *)
Definition lit (s : string) : str := map N_of_ascii (list_ascii_of_string s).

Definition str_eq_dec : forall a b : str, {a = b} + {a <> b} :=
  list_eq_dec N.eq_dec.

Definition eqs (a b : str) : bool := if str_eq_dec a b then true else false.

(** The exceptions the code can raise.  [RecursionError] is what
    [recursive_split] ends in when its recursion goes deeper than the
    interpreter allows.
    [Diverged] is no exception of Python: it marks the iteration bound
    of the model of a [while] loop, and is shown never to be reached. *)
Inductive exn :=
| IndexError | ValueError | KeyError | TypeError
| NotImplementedError | RecursionError | Diverged.

Inductive result (A : Type) :=
| Ok (a : A)
| Raise (e : exn).
Arguments Ok {A} a.
Arguments Raise {A} e.

Definition bind {A B} (r : result A) (k : A -> result B) : result B :=
  match r with
  | Ok a => k a
  | Raise e => Raise e
  end.

Notation "x <- r ;; k" := (bind r (fun x => k))
  (at level 61, r at next level, right associativity).

(** ** String methods *)

Module Py.

(** [s.startswith(p)] *)
Fixpoint startswith (s p : str) {struct p} : bool :=
  match p, s with
  | [], _ => true
  | c :: p', d :: s' => N.eqb c d && startswith s' p'
  | _ :: _, [] => false
  end.

(** [s.endswith(p)] *)
Definition endswith (s p : str) : bool := startswith (rev s) (rev p).

(** [p in s] *)
Fixpoint contains (s p : str) : bool :=
  startswith s p ||
  match s with
  | [] => false
  | _ :: s' => contains s' p
  end.

(** [s.partition(sep)] without the separator: the text before the
    leftmost occurrence of [sep] and the text after it. *)
Fixpoint partition (sep s : str) : option (str * str) :=
  if startswith s sep then Some ([], skipn (length sep) s)
  else match s with
       | [] => None
       | c :: s' =>
           match partition sep s' with
           | Some (a, b) => Some (c :: a, b)
           | None => None
           end
       end.

(** [s.split(sep)] for a non-empty [sep]: cut at the leftmost
    occurrence, go on after it.  The fuel bounds the number of cuts. *)
Fixpoint split_fuel (fuel : nat) (sep s : str) : list str :=
  match fuel with
  | 0 => [s]
  | S fuel' =>
      match partition sep s with
      | None => [s]
      | Some (a, b) => a :: split_fuel fuel' sep b
      end
  end.

(** [s.split(sep)]; an empty separator is a [ValueError]. *)
Definition split (sep s : str) : result (list str) :=
  match sep with
  | [] => Raise ValueError
  | _ :: _ => Ok (split_fuel (length s) sep s)
  end.

(** [sep.join(l)] *)
Fixpoint join (sep : str) (l : list str) : str :=
  match l with
  | [] => []
  | [x] => x
  | x :: l' => x ++ sep ++ join sep l'
  end.

(** [s.replace(old, new)] for a non-empty [old], which is
    [new.join(s.split(old))]. *)
Definition replace (old new s : str) : str :=
  join new (split_fuel (length s) old s).

(** The code points Python counts as whitespace. *)
Definition isspace (c : char) : bool :=
  ((9 <=? c) && (c <=? 13) || (28 <=? c) && (c <=? 32)
   || (c =? 133) || (c =? 160) || (c =? 5760)
   || (8192 <=? c) && (c <=? 8202)
   || (c =? 8232) || (c =? 8233) || (c =? 8239) || (c =? 8287)
   || (c =? 12288))%N.

Fixpoint lstrip (s : str) : str :=
  match s with
  | c :: s' => if isspace c then lstrip s' else s
  | [] => []
  end.

(** [s.strip()] *)
Definition strip (s : str) : str := rev (lstrip (rev (lstrip s))).

(** [s.split()]: the maximal runs of non-whitespace; [cur] is the run
    being read, reversed. *)
Fixpoint words_go (s cur : str) : list str :=
  match s with
  | [] => match cur with [] => [] | _ => [rev cur] end
  | c :: s' =>
      if isspace c
      then match cur with
           | [] => words_go s' []
           | _ => rev cur :: words_go s' []
           end
      else words_go s' (c :: cur)
  end.

Definition words (s : str) : list str := words_go s [].

(** [l[:-1]] *)
Definition init {A} (l : list A) : list A := removelast l.

(** [l[-1]] *)
Definition last_item {A} (l : list A) : result A :=
  match rev l with
  | x :: _ => Ok x
  | [] => Raise IndexError
  end.

(** [l[0]] *)
Definition first_item {A} (l : list A) : result A :=
  match l with
  | x :: _ => Ok x
  | [] => Raise IndexError
  end.

(** [s[:-n]] for [n > 0] *)
Definition drop_last {A} (n : nat) (s : list A) : list A :=
  firstn (length s - n) s.

(** [s[i:j]] for [0 <= i <= j] *)
Definition slice {A} (i j : nat) (s : list A) : list A :=
  firstn (j - i) (skipn i s).

(** Case of the ASCII letters.  Code points outside ASCII are left as
    they are and count as uncased: the case tables of Unicode are not
    modelled, and the statements below that depend on case are about
    words of ASCII letters. *)
Definition is_ascii_upper (c : char) : bool := ((65 <=? c) && (c <=? 90))%N.
Definition is_ascii_lower (c : char) : bool := ((97 <=? c) && (c <=? 122))%N.
Definition is_ascii_letter (c : char) : bool :=
  is_ascii_upper c || is_ascii_lower c.

Definition lower_char (c : char) : char :=
  if is_ascii_upper c then (c + 32)%N else c.
Definition upper_char (c : char) : char :=
  if is_ascii_lower c then (c - 32)%N else c.

(** [s.lower()], [s.upper()], [c.isupper()] for one character *)
Definition lower (s : str) : str := map lower_char s.
Definition upper (s : str) : str := map upper_char s.
Definition isupper (c : char) : bool := is_ascii_upper c.

End Py.

(** ** Dictionaries

    A Python [dict]: keys are unique, iteration follows insertion
    order, and assigning to a present key keeps its place. *)

Module Dict.
Section WithKey.
Context {K V : Type}.
Variable eq_dec : forall a b : K, {a = b} + {a <> b}.

Definition t := list (K * V).

(** [d.get(k)] *)
Fixpoint get (d : t) (k : K) : option V :=
  match d with
  | [] => None
  | (k', v) :: d' => if eq_dec k k' then Some v else get d' k
  end.

(** [d[k] = v] *)
Fixpoint set (d : t) (k : K) (v : V) : t :=
  match d with
  | [] => [(k, v)]
  | (k', v') :: d' =>
      if eq_dec k k' then (k', v) :: d' else (k', v') :: set d' k v
  end.

(** [k in d] *)
Definition mem (d : t) (k : K) : bool :=
  match get d k with Some _ => true | None => false end.

(** [dict(l)]: later items overwrite earlier ones. *)
Definition of_list (l : list (K * V)) : t :=
  fold_left (fun d kv => set d (fst kv) (snd kv)) l [].

End WithKey.
End Dict.

(** ** The segmentation engine (apply_bpe.py) *)

(** A parsed line of the rule file, [tuple(item.split())]: a pair of
    symbols in a well-formed file, but any number of them is read. *)
Definition code := list str.

Definition code_eq_dec : forall a b : code, {a = b} + {a <> b} :=
  list_eq_dec str_eq_dec.

Definition pair_eq_dec : forall a b : str * str, {a = b} + {a <> b}.
Proof. decide equality; apply str_eq_dec. Defined.

Definition version_eq_dec : forall a b : list Z, {a = b} + {a <> b} :=
  list_eq_dec Z.eq_dec.

(** The end-of-word marker, the feature symbol U+FFE8 and the OpenNMT
    separator U+FFED. *)
Definition EOW : str := lit "</w>".
Definition FEAT : str := [65512%N].
Definition OPENNMT_SEP : str := [65517%N].

(** [x in l] for a list or a set of strings *)
Definition inb (x : str) (l : list str) : bool := existsb (eqs x) l.

(** The 2-tuple [(a, b)] as a dictionary key. *)
Definition tup (p : str * str) : code := [fst p; snd p].

(** [pairs.add(p)] *)
Definition set_add (p : str * str) (pairs : list (str * str)) :
  list (str * str) :=
  if in_dec pair_eq_dec p pairs then pairs else pairs ++ [p].

(** The loop of [get_pairs]. *)
Fixpoint pairs_from (prev_char : str) (word : list str)
  (pairs : list (str * str)) : list (str * str) :=
  match word with
  | [] => pairs
  | char :: word' => pairs_from char word' (set_add (prev_char, char) pairs)
  end.

(** [get_pairs(word)]: the set of adjacent pairs, here in the order of
    their first occurrence. *)
Definition get_pairs (word : list str) : result (list (str * str)) :=
  match word with
  | [] => Raise IndexError
  | prev_char :: rest => Ok (pairs_from prev_char rest [])
  end.

(** [bpe_codes.get(pair, float('inf'))]; [None] is infinity. *)
Definition rank_of (bpe_codes : Dict.t (K:=code) (V:=nat)) (p : str * str)
  : option nat :=
  Dict.get code_eq_dec bpe_codes (tup p).

Definition key_lt (a b : option nat) : bool :=
  match a, b with
  | Some x, Some y => x <? y
  | Some _, None => true
  | None, _ => false
  end.

Fixpoint min_from {A} (key : A -> option nat) (best : A) (l : list A) : A :=
  match l with
  | [] => best
  | x :: l' => min_from key (if key_lt (key x) (key best) then x else best) l'
  end.

(** [min(l, key=key)]: the first item whose key is smallest. *)
Definition py_min {A} (key : A -> option nat) (l : list A) : result A :=
  match l with
  | [] => Raise ValueError
  | x :: l' => Ok (min_from key x l')
  end.

(** One pass of the inner [while i < len(word)] loop over the symbols
    from position [i] on: symbols other than [first] are copied (the
    slice up to [word.index(first, i)]), a [first] followed by [second]
    becomes [first+second] and both are passed, any other [first] is
    copied. *)
Fixpoint merge_pass (first second : str) (word : list str) : list str :=
  match word with
  | [] => []
  | x :: rest =>
      if eqs x first then
        match rest with
        | y :: rest' =>
            if eqs y second
            then (first ++ second) :: merge_pass first second rest'
            else x :: merge_pass first second rest
        | [] => [x]
        end
      else x :: merge_pass first second rest
  end.

(** The [while True] loop of [encode].  [fuel] bounds the number of
    iterations; [merge_loop_total] shows that the length of the word is
    enough. *)
Fixpoint merge_loop (fuel : nat) (bpe_codes : Dict.t (K:=code) (V:=nat))
  (word : list str) (pairs : list (str * str)) : result (list str) :=
  match fuel with
  | 0 => Raise Diverged
  | S fuel' =>
      bigram <- py_min (rank_of bpe_codes) pairs ;;
      if negb (Dict.mem code_eq_dec bpe_codes (tup bigram)) then Ok word
      else
        let new_word := merge_pass (fst bigram) (snd bigram) word in
        if length new_word =? 1 then Ok new_word
        else
          pairs' <- get_pairs new_word ;;
          merge_loop fuel' bpe_codes new_word pairs'
  end.

(** The same loop when the sets are walked in other orders.  Python
    fixes no order on the elements of a set, and [min] returns the
    first of the smallest elements it meets: [walk n pairs] is the
    order in which the set [pairs] is walked in the iteration that has
    [n] iterations left, any order of its elements. *)
Fixpoint merge_loop_walk (walk : nat -> list (str * str) -> list (str * str))
  (fuel : nat) (bpe_codes : Dict.t (K:=code) (V:=nat))
  (word : list str) (pairs : list (str * str)) : result (list str) :=
  match fuel with
  | 0 => Raise Diverged
  | S fuel' =>
      bigram <- py_min (rank_of bpe_codes) (walk fuel' pairs) ;;
      if negb (Dict.mem code_eq_dec bpe_codes (tup bigram)) then Ok word
      else
        let new_word := merge_pass (fst bigram) (snd bigram) word in
        if length new_word =? 1 then Ok new_word
        else
          pairs' <- get_pairs new_word ;;
          merge_loop_walk walk fuel' bpe_codes new_word pairs'
  end.

(** What [encode] returns: the string [orig] itself on its early
    return, a tuple or list of symbols otherwise. *)
Inductive pyval :=
| VStr (s : str)
| VSeq (l : list str).

(** The items a [for] loop over the value sees. *)
Definition pieces (v : pyval) : list str :=
  match v with
  | VStr s => map (fun c => [c]) s
  | VSeq l => l
  end.

Definition cache_t := Dict.t (K:=str) (V:=list str).

(** [tuple(orig) + ('</w>',)] for version 0.1,
    [tuple(orig[:-1]) + (orig[-1] + '</w>',)] for version 0.2. *)
Definition initial_symbols (version : list Z) (orig : str)
  : result (list str) :=
  if version_eq_dec version [0; 1]%Z then
    Ok (map (fun c => [c]) orig ++ [EOW])
  else if version_eq_dec version [0; 2]%Z then
    c <- Py.last_item orig ;;
    Ok (map (fun c => [c]) (Py.init orig) ++ [[c] ++ EOW])
  else Raise NotImplementedError.

(** "don't print end-of-word symbols" *)
Definition strip_eow (word : list str) : result (list str) :=
  last <- Py.last_item word ;;
  if eqs last EOW then Ok (Py.init word)
  else if Py.endswith last EOW
       then Ok (Py.init word ++ [Py.replace EOW [] last])
       else Ok word.

(** [recursive_split], with the yielded items as a list.  A failed
    lookup or unpacking is caught by the [except].  Each nested
    generator is a frame of the interpreter: [fuel] is the number of
    nested calls the interpreter still allows, and a call beyond it
    raises [RecursionError], which nothing in the code catches (the
    [try] covers the lookup only). *)
Fixpoint recursive_split (fuel : nat) (segment : str)
  (bpe_codes : Dict.t (K:=str) (V:=code)) (vocab : list str)
  (separator : str) (final : bool) : result (list str) :=
  match fuel with
  | 0 => Raise RecursionError
  | S fuel' =>
      match Dict.get str_eq_dec bpe_codes
              (if final then segment ++ EOW else segment) with
      | Some [left_; right0] =>
          let right_ := if final then Py.drop_last 4 right0 else right0 in
          l <- (if inb (left_ ++ separator) vocab then Ok [left_]
                else recursive_split fuel' left_ bpe_codes vocab separator
                       false) ;;
          r <- (if (final && inb right_ vocab)
                   || (negb final && inb (right_ ++ separator) vocab)
                then Ok [right_]
                else recursive_split fuel' right_ bpe_codes vocab separator
                       final) ;;
          Ok (l ++ r)
      | _ => Ok [segment]
      end
  end.

Section Interpreter.

(** The depth of recursion the interpreter has left where
    [check_vocab_and_split] runs: the number of nested calls of
    [recursive_split] that its recursion limit allows there.  The code
    never sets the limit, and what is left of it depends on the frames
    of the callers; everything below holds for every value of it. *)
Variable recursion_depth : nat.

(** The loop of [check_vocab_and_split] over [orig[:-1]]. *)
Fixpoint check_nonfinal (segments : list str)
  (bpe_codes : Dict.t (K:=str) (V:=code)) (vocab : list str)
  (separator : str) : result (list str) :=
  match segments with
  | [] => Ok []
  | segment :: rest =>
      a <- (if inb (segment ++ separator) vocab then Ok [segment]
            else recursive_split recursion_depth segment bpe_codes
                   vocab separator false) ;;
      b <- check_nonfinal rest bpe_codes vocab separator ;;
      Ok (a ++ b)
  end.

Definition check_vocab_and_split (orig : list str)
  (bpe_codes : Dict.t (K:=str) (V:=code)) (vocab : list str)
  (separator : str) : result (list str) :=
  out <- check_nonfinal (Py.init orig) bpe_codes vocab separator ;;
  segment <- Py.last_item orig ;;
  fin <- (if inb segment vocab then Ok [segment]
          else recursive_split recursion_depth segment bpe_codes
                 vocab separator true) ;;
  Ok (out ++ fin).

(** [if vocab:] *)
Definition supplied (vocab : option (list str)) : bool :=
  match vocab with
  | Some (_ :: _) => true
  | _ => false
  end.

Definition vocab_set (vocab : option (list str)) : list str :=
  match vocab with
  | Some v => v
  | None => []
  end.

(** The merge loop of [encode] and what follows it, up to the write to
    the cache. *)
Definition encode_merges (word : list str) (pairs : list (str * str))
  (bpe_codes : Dict.t (K:=code) (V:=nat))
  (bpe_codes_reverse : Dict.t (K:=str) (V:=code))
  (vocab : option (list str)) (separator : str) : result (list str) :=
  word <- merge_loop (length word) bpe_codes word pairs ;;
  word <- strip_eow word ;;
  if supplied vocab
  then check_vocab_and_split word bpe_codes_reverse (vocab_set vocab) separator
  else Ok word.

(** [encode]: the value returned or the exception raised, and the cache
    afterwards. *)
Definition encode (orig : str) (bpe_codes : Dict.t (K:=code) (V:=nat))
  (bpe_codes_reverse : Dict.t (K:=str) (V:=code))
  (vocab : option (list str)) (separator : str) (version : list Z)
  (cache : cache_t) (glossaries : list str) : result pyval * cache_t :=
  match Dict.get str_eq_dec cache orig with
  | Some v => (Ok (VSeq v), cache)
  | None =>
      if inb orig glossaries
      then (Ok (VSeq [orig]), Dict.set str_eq_dec cache orig [orig])
      else
        match initial_symbols version orig with
        | Raise e => (Raise e, cache)
        | Ok word =>
            match get_pairs word with
            | Raise e => (Raise e, cache)
            | Ok [] => (Ok (VStr orig), cache)
            | Ok pairs =>
                match encode_merges word pairs bpe_codes bpe_codes_reverse
                        vocab separator with
                | Raise e => (Raise e, cache)
                | Ok word => (Ok (VSeq word), Dict.set str_eq_dec cache orig word)
                end
            end
        end
  end.

(** [isolate_glossary(word, glossary)] *)
Definition isolate_glossary (word glossary : str) : result (list str) :=
  if eqs word glossary || negb (Py.contains word glossary) then Ok [word]
  else
    splits <- Py.split glossary word ;;
    let segments :=
      flat_map (fun split =>
                  map Py.strip
                    (filter (fun segment => negb (eqs segment []))
                       [split; glossary]))
        (Py.init splits) in
    last <- Py.last_item splits ;;
    if negb (eqs last []) then Ok (segments ++ [Py.strip last])
    else Ok segments.

(** The list comprehension of [_isolate_glossaries] for one glossary. *)
Fixpoint isolate_all (word_segments : list str) (gloss : str)
  : result (list str) :=
  match word_segments with
  | [] => Ok []
  | segment :: rest =>
      a <- isolate_glossary segment gloss ;;
      b <- isolate_all rest gloss ;;
      Ok (a ++ b)
  end.

(** [BPE._isolate_glossaries], on the list of glossaries. *)
Fixpoint isolate_glossaries_from (glossaries : list str)
  (word_segments : list str) : result (list str) :=
  match glossaries with
  | [] => Ok word_segments
  | gloss :: rest =>
      word_segments <- isolate_all word_segments gloss ;;
      isolate_glossaries_from rest word_segments
  end.

(** The engine object. *)
Record BPE := mkBPE {
  version : list Z;
  bpe_codes : Dict.t (K:=code) (V:=nat);
  bpe_codes_reverse : Dict.t (K:=str) (V:=code);
  separator : str;
  vocab : option (list str);
  glossaries : list str;
  case_feature : bool;
  cache : cache_t
}.

Definition with_cache (self : BPE) (c : cache_t) : BPE :=
  mkBPE (version self) (bpe_codes self) (bpe_codes_reverse self)
    (separator self) (vocab self) (glossaries self) (case_feature self) c.

Definition _isolate_glossaries (self : BPE) (word : str) : result (list str) :=
  isolate_glossaries_from (glossaries self) [word].

(** [get_case_feature(surf)] *)
Definition get_case_feature (surf : str) : result str :=
  c0 <- Py.first_item surf ;;
  let u_start := Py.isupper c0 in
  let length := length surf in
  if length =? 1 then
    if u_start then Ok (lit "S") else Ok (lit "N")
  else
    cl <- Py.last_item surf ;;
    let u_end := Py.isupper cl in
    if length =? 2 then
      if u_start && u_end then Ok (lit "A")
      else if u_start then Ok (lit "S")
      else if u_end then Ok (lit "E")
      else Ok (lit "N")
    else
      let u_mid := forallb Py.isupper (Py.slice 1 (length - 1) surf) in
      if u_end then
        if u_start && u_mid then Ok (lit "A")
        else if u_start then Ok (lit "B")
        else Ok (lit "E")
      else if u_start then Ok (lit "S")
      else Ok (lit "N").

(** The nested comprehension of [segment]: the segments are encoded in
    turn on the one cache, and the items of the values are collected. *)
Fixpoint encode_segments (self : BPE) (segments : list str) (c : cache_t)
  : result (list str) * cache_t :=
  match segments with
  | [] => (Ok [], c)
  | segment :: rest =>
      match encode segment (bpe_codes self) (bpe_codes_reverse self)
              (vocab self) (separator self) (version self) c
              (glossaries self) with
      | (Raise e, c1) => (Raise e, c1)
      | (Ok v, c1) =>
          match encode_segments self rest c1 with
          | (Raise e, c2) => (Raise e, c2)
          | (Ok l, c2) => (Ok (pieces v ++ l), c2)
          end
      end
  end.

(** The loop over [new_word[:-1]] with the case feature, from position
    [pos] of the surface word: the tokens and the position reached. *)
Fixpoint feature_items (separator word : str) (items : list str) (pos : nat)
  : result (list str * nat) :=
  match items with
  | [] => Ok ([], pos)
  | item :: rest =>
      let length := length item in
      let surf := Py.slice pos (pos + length) word in
      feat <- get_case_feature surf ;;
      r <- feature_items separator word rest (pos + length) ;;
      Ok ((item ++ separator ++ FEAT ++ feat) :: fst r, snd r)
  end.

(** The output tokens of one word from its pieces [new_word]. *)
Definition format_word (self : BPE) (word : str) (new_word : list str)
  : result (list str) :=
  if negb (case_feature self) then
    last <- Py.last_item new_word ;;
    Ok (map (fun item => item ++ separator self) (Py.init new_word) ++ [last])
  else
    r <- feature_items (separator self) word (Py.init new_word) 0 ;;
    let surf := skipn (snd r) word in
    feat <- get_case_feature surf ;;
    last <- Py.last_item new_word ;;
    Ok (fst r ++ [last ++ FEAT ++ feat]).

(** [norm_word] *)
Definition normalize (self : BPE) (word : str) : str :=
  if case_feature self then
    let norm_word := Py.lower word in
    if Py.contains norm_word FEAT then Py.replace FEAT (lit "|") norm_word
    else norm_word
  else word.

(** [new_word] in the loop of [segment]: the pieces of the normalized
    word, and the cache afterwards. *)
Definition new_word_of (self : BPE) (word : str) (c : cache_t)
  : result (list str) * cache_t :=
  let norm_word := normalize self word in
  match _isolate_glossaries self norm_word with
  | Raise e => (Raise e, c)
  | Ok segments => encode_segments self segments c
  end.

(** The body of the loop of [segment] for one word: the tokens it
    appends to [output], and the cache afterwards. *)
Definition segment_word (self : BPE) (word : str) (c : cache_t)
  : result (list str) * cache_t :=
  match new_word_of self word c with
  | (Raise e, c') => (Raise e, c')
  | (Ok new_word, c') => (format_word self word new_word, c')
  end.

Fixpoint segment_words (self : BPE) (words : list str) (c : cache_t)
  : result (list str) * cache_t :=
  match words with
  | [] => (Ok [], c)
  | word :: rest =>
      match segment_word self word c with
      | (Raise e, c1) => (Raise e, c1)
      | (Ok toks, c1) =>
          match segment_words self rest c1 with
          | (Raise e, c2) => (Raise e, c2)
          | (Ok out, c2) => (Ok (toks ++ out), c2)
          end
      end
  end.

(** [BPE.segment(sentence)]: the line returned, and the engine with its
    cache as the call leaves it. *)
Definition segment (self : BPE) (sentence : str) : result str * BPE :=
  match segment_words self (Py.words sentence) (cache self) with
  | (Raise e, c) => (Raise e, with_cache self c)
  | (Ok output, c) => (Ok (Py.join (lit " ") output), with_cache self c)
  end.

(** ** Loading the rule file ([BPE.__init__]) *)

Fixpoint map_result {A B} (f : A -> result B) (l : list A) : result (list B) :=
  match l with
  | [] => Ok []
  | x :: l' => y <- f x ;; ys <- map_result f l' ;; Ok (y :: ys)
  end.

Fixpoint digits_val (acc : Z) (s : str) : result Z :=
  match s with
  | [] => Ok acc
  | c :: s' =>
      if ((48 <=? c) && (c <=? 57))%N
      then digits_val (10 * acc + Z.of_N (c - 48)) s'
      else Raise ValueError
  end.

(** [int(x)] on decimal literals of ASCII digits with an optional sign.
    The other spellings Python reads (underscores, digits outside
    ASCII) are a [ValueError] here; no statement below rests on one. *)
Definition py_int (x : str) : result Z :=
  match x with
  | [] => Raise ValueError
  | c :: ds =>
      if (c =? 45)%N then
        match ds with
        | [] => Raise ValueError
        | _ => v <- digits_val 0 ds ;; Ok (- v)%Z
        end
      else if (c =? 43)%N then
        match ds with
        | [] => Raise ValueError
        | _ => digits_val 0 ds
        end
      else digits_val 0 x
  end.

(** One trailing group [\.0+], read on the reversed string. *)
Fixpoint zero_group (r : str) : option str :=
  match r with
  | c :: r' =>
      if (c =? 48)%N then
        match r' with
        | d :: r'' => if (d =? 46)%N then Some r'' else zero_group r'
        | [] => None
        end
      else None
  | [] => None
  end.

Fixpoint zero_groups (fuel : nat) (r : str) : str :=
  match fuel with
  | 0 => r
  | S fuel' =>
      match zero_group r with
      | Some r' => zero_groups fuel' r'
      | None => r
      end
  end.

(** [re.sub(r'(\.0+)*$', '', s)] on a string without line break. *)
Definition sub_zero_groups (s : str) : str :=
  rev (zero_groups (length s) (rev s)).

(** The version tuple of a first line that starts with [#version:]. *)
Definition parse_version (firstline : str) : result (list Z) :=
  tok <- Py.last_item (Py.words firstline) ;;
  parts <- Py.split (lit ".") (sub_zero_groups tok) ;;
  map_result py_int parts.

(** [list(enumerate(l))] *)
Definition enumerate {A} (l : list A) : list (nat * A) :=
  combine (seq 0 (length l)) l.

(** [dict([(code,i) for (i,code) in reversed(list(enumerate(codes)))])] *)
Definition rank_table (codes : list code) : Dict.t (K:=code) (V:=nat) :=
  Dict.of_list code_eq_dec
    (map (fun ic => (snd ic, fst ic)) (rev (enumerate codes))).

Definition item (l : code) (i : nat) : result str :=
  match nth_error l i with
  | Some x => Ok x
  | None => Raise IndexError
  end.

(** [dict([(pair[0] + pair[1], pair) for pair,i in bpe_codes.items()])] *)
Definition reverse_table (bpe_codes : Dict.t (K:=code) (V:=nat))
  : result (Dict.t (K:=str) (V:=code)) :=
  kvs <- map_result (fun pi : code * nat =>
                       a <- item (fst pi) 0 ;;
                       b <- item (fst pi) 1 ;;
                       Ok (a ++ b, fst pi)) bpe_codes ;;
  Ok (Dict.of_list str_eq_dec kvs).

(** The version header of a file given by its lines, and the lines of
    rules that follow it. *)
Definition read_header (codes : list str) : result (list Z * list str) :=
  let firstline := match codes with l :: _ => l | [] => [] end in
  if Py.startswith firstline (lit "#version:")
  then v <- parse_version firstline ;; Ok (v, tl codes)
  else Ok ([0; 1]%Z, codes).

(** [BPE(codes, separator, vocab, glossaries, case_feature)] *)
Definition BPE_init (codes : list str) (separator : str)
  (vocab : option (list str)) (glossaries : option (list str))
  (case_feature : bool) : result BPE :=
  h <- read_header codes ;;
  let bpe_codes := rank_table (map Py.words (snd h)) in
  bpe_codes_reverse <- reverse_table bpe_codes ;;
  Ok (mkBPE (fst h) bpe_codes bpe_codes_reverse separator vocab
        (match glossaries with
         | Some (g :: gs) => g :: gs
         | _ => []
         end)
        case_feature []).

(** ** Restoring case (detokenize.py) *)

Definition apply_case (norm feat : str) : result str :=
  if eqs feat (lit "N") then Ok norm
  else if eqs feat (lit "A") then Ok (Py.upper norm)
  else if eqs feat (lit "S") then
    c <- Py.first_item norm ;; Ok (Py.upper [c] ++ skipn 1 norm)
  else
    let without_sep := norm in
    let end_sep :=
      if Py.endswith without_sep OPENNMT_SEP then OPENNMT_SEP else [] in
    let without_sep :=
      if Py.endswith without_sep OPENNMT_SEP then Py.init without_sep
      else without_sep in
    let start_sep :=
      if Py.startswith without_sep OPENNMT_SEP then OPENNMT_SEP else [] in
    let without_sep :=
      if Py.startswith without_sep OPENNMT_SEP then skipn 1 without_sep
      else without_sep in
    without_sep <-
      (if eqs feat (lit "E")
       then c <- Py.last_item without_sep ;;
            Ok (Py.init without_sep ++ Py.upper [c])
       else Ok without_sep) ;;
    without_sep <-
      (if eqs feat (lit "B")
       then c <- Py.first_item without_sep ;;
            Ok (Py.upper [c] ++ skipn 1 without_sep)
       else Ok without_sep) ;;
    Ok (start_sep ++ without_sep ++ end_sep).

(** The body of the loop over the words of a line. *)
Definition detokenize_word (word : str) : result str :=
  match Py.partition FEAT word with
  | None => Ok word
  | Some (norm, feat) => apply_case norm feat
  end.

(** The body of the loop over the lines: the line written. *)
Definition detokenize_line (line : str) : result str :=
  out_words <- map_result detokenize_word (Py.words line) ;;
  let out_line := Py.join (lit " ") out_words in
  let out_line := Py.replace (OPENNMT_SEP ++ lit " ") [] out_line in
  let out_line := Py.replace (lit " " ++ OPENNMT_SEP) [] out_line in
  Ok out_line.

(** ** The serving endpoint (bpe_srv.py) *)

Record model_t := mkModel { name : str; bpe : BPE }.

(** The JSON body of a request, with its two fields. *)
Record request := mkRequest { req_model : str; req_seg : str }.

(** [jsonify({"err": ...})] and [jsonify({"res": ...})] *)
Inductive response :=
| Err (msg : str)
| Res (res : str).

(** The [for m in models] loop: the variables [model] and [m] after it. *)
Fixpoint find_model (models : list model_t) (wanted : str)
  (model m : option model_t) : option model_t * option model_t :=
  match models with
  | [] => (model, m)
  | x :: rest =>
      find_model rest wanted
        (if eqs (name x) wanted then Some x else model) (Some x)
  end.

(** [preprocess()]: the response or the exception, and the list of
    models afterwards (the engine that ran has its cache updated). *)
Definition preprocess (models : list model_t) (body : request)
  : result response * list model_t :=
  match find_model models (req_model body) None None with
  | (None, _) => (Ok (Err (lit "no such model")), models)
  | (Some _, None) => (Raise TypeError, models) (* [model] is set in the loop *)
  | (Some _, Some m) =>
      match segment (bpe m) (req_seg body) with
      | (Raise e, b) => (Raise e, Py.init models ++ [mkModel (name m) b])
      | (Ok res, b) =>
          (Ok (Res (Py.strip res)), Py.init models ++ [mkModel (name m) b])
      end
  end.

(** ** Notions used in the statements *)

(** The pair [p] stands at two neighbouring places of the word. *)
Definition adjacent (p : str * str) (w : list str) : Prop :=
  exists a b, w = a ++ [fst p; snd p] ++ b.

(** The last symbol of the word ends with the end-of-word marker. *)
Definition ends_eow (w : list str) : Prop :=
  exists i x, w = i ++ [x ++ EOW].

(** Every entry of the reverse table is a pair, as it is when every
    line of the rule file has two symbols. *)
Definition pairs_only (rev : Dict.t (K:=str) (V:=code)) : Prop :=
  forall k v, Dict.get str_eq_dec rev k = Some v -> exists l r, v = [l; r].

(** A well-formed reverse table: every entry is a pair of non-empty
    symbols that concatenate to the key, and no rule cuts through the
    end-of-word marker. *)
Definition wf_reverse (rev : Dict.t (K:=str) (V:=code)) : Prop :=
  forall k v, Dict.get str_eq_dec rev k = Some v ->
    exists l r, v = [l; r] /\ k = l ++ r /\ l <> [] /\ r <> []
      /\ (Py.endswith k EOW = true -> Py.endswith r EOW = true).

(** A token that is not the last of its word: with the separator it is
    in the vocabulary, or the reverse table has no entry for it. *)
Definition nonfinal_ok (rev : Dict.t (K:=str) (V:=code)) (vocab : list str)
  (sep tok : str) : Prop :=
  In (tok ++ sep) vocab \/ Dict.get str_eq_dec rev tok = None.

(** The last token of a word: it is in the vocabulary, or the reverse
    table has no entry for it under the word-final lookup, which adds
    the end-of-word marker. *)
Definition final_ok (rev : Dict.t (K:=str) (V:=code)) (vocab : list str)
  (tok : str) : Prop :=
  In tok vocab \/ Dict.get str_eq_dec rev (tok ++ EOW) = None.

(** The tokens of a word: all but the last are [nonfinal_ok], and the
    last is [final_ok] in a final position. *)
Definition tokens_ok (rev : Dict.t (K:=str) (V:=code)) (vocab : list str)
  (sep : str) (final : bool) (out : list str) : Prop :=
  exists front lst, out = front ++ [lst]
    /\ Forall (nonfinal_ok rev vocab sep) front
    /\ (if final then final_ok rev vocab lst
        else nonfinal_ok rev vocab sep lst).

(** The interpreter has room to reverse the merges of each of these
    tokens: [recursive_split] goes one call deeper for every character
    it splits off, and the word-final lookup counts for one more. *)
Definition tokens_fit (word : list str) : Prop :=
  Forall (fun tok => length tok + 1 < recursion_depth) word.

(** The interpreter has room to reverse the merges of the symbols of
    this word, which hold no more than its characters and the four of
    the end-of-word marker. *)
Definition deep_enough (orig : str) : Prop :=
  length orig + 5 < recursion_depth.

(** Every cached sequence spells its key. *)
Definition cache_ok (c : cache_t) : Prop :=
  forall k v, Dict.get str_eq_dec c k = Some v -> concat v = k.

(** The two versions [encode] implements. *)
Definition supported (version : list Z) : Prop :=
  version = [0; 1]%Z \/ version = [0; 2]%Z.

(** The initial symbol sequence of the word has at least two symbols. *)
Definition two_symbols (version : list Z) (orig : str) : Prop :=
  (version = [0; 1]%Z /\ orig <> []) \/
  (version = [0; 2]%Z /\ 2 <= length orig).

(** The initial symbol sequence of the word has a single symbol: the
    bare marker of the empty word under version 0.1, the one character
    with the marker under version 0.2. *)
Definition one_symbol (version : list Z) (orig : str) : Prop :=
  (version = [0; 1]%Z /\ orig = []) \/
  (version = [0; 2]%Z /\ length orig = 1).

(** The string has no whitespace character, as every word that
    [sentence.split()] yields. *)
Definition no_space (s : str) : Prop := Forall (fun c => Py.isspace c = false) s.

(** [x] is a stretch of [w]. *)
Definition substring (x w : str) : Prop := exists a b, w = a ++ x ++ b.

(** A non-empty stretch of [w]. *)
Definition fragment (w x : str) : Prop := x <> [] /\ substring x w.

(** The text of an output token: the token without its feature tag
    (the feature symbol and the one-letter tag) when the case feature
    is on, and without the merge separator unless it is the last token
    of its word. *)
Definition token_text (self : BPE) (final : bool) (tok : str) : str :=
  let tok := if case_feature self then Py.drop_last 2 tok else tok in
  if final then tok else Py.drop_last (length (separator self)) tok.

(** The texts of the output tokens of a word, concatenated. *)
Definition word_text (self : BPE) (toks : list str) : str :=
  concat (map (token_text self false) (Py.init toks))
  ++ match Py.last_item toks with
     | Ok lst => token_text self true lst
     | Raise _ => []
     end.

(** A rule of a well-formed rule file: two non-empty symbols, which do
    not cut through the end-of-word marker. *)
Definition rule_ok (c : code) : Prop :=
  exists l r, c = [l; r] /\ l <> [] /\ r <> []
    /\ (Py.endswith (l ++ r) EOW = true -> Py.endswith r EOW = true).

(** ** Worked examples *)

(** The rule file of the first scenario of the specification: the pair
    (l, o) on the first line, (lo, w) on the second; and the same file
    under a version 0.2 header. *)
Definition lower_file : list str := [lit "l o"; lit "lo w"].
Definition lower_file_v02 : list str := lit "#version: 0.2" :: lower_file.

(** The engine loaded from the rules with separator [@@], no
    vocabulary, no glossaries and no case feature. *)
Definition lower_bpe (version : list Z) : BPE :=
  mkBPE version
    [([lit "lo"; lit "w"], 1); ([lit "l"; lit "o"], 0)]
    [(lit "low", [lit "lo"; lit "w"]); (lit "lo", [lit "l"; lit "o"])]
    (lit "@@") None [] false [].

(** A rule file in which the first rule comes back on the third line. *)
Definition duplicate_file : list str := [lit "l o"; lit "lo w"; lit "l o"].

(** A rule file that names a version the code does not implement. *)
Definition future_file : list str := [lit "#version: 0.3"; lit "l o"].

(** The engine of [lower_file] under version 0.2 with a vocabulary and
    a glossary. *)
Definition lower_vocab_bpe : BPE :=
  mkBPE [0; 2]%Z
    [([lit "lo"; lit "w"], 1); ([lit "l"; lit "o"], 0)]
    [(lit "low", [lit "lo"; lit "w"]); (lit "lo", [lit "l"; lit "o"])]
    (lit "@@") (Some [lit "l@@"; lit "w"]) [lit "USA"] false [].

(** An engine without rules that has the case feature on. *)
Definition case_bpe : BPE :=
  mkBPE [0; 1]%Z [] [] (lit "@@") None [] true [].

(** An engine without rules, as the server loads it from an empty rule
    file. *)
Definition plain_bpe : BPE :=
  mkBPE [0; 1]%Z [] [] (lit "@@") None [] false [].

(** Two configured models: [a] with the rules of [lower_file], then
    [b] without rules. *)
Definition two_models : list model_t :=
  [mkModel (lit "a") (lower_bpe [0; 1]%Z); mkModel (lit "b") plain_bpe].

(** ** Notions of the case codec *)

(** A string of ASCII letters. *)
Definition letters (s : str) : Prop :=
  Forall (fun c => Py.is_ascii_letter c = true) s.

(** The stretches of the surface word that the pieces [items] stand
    for, by their lengths, from the left. *)
Fixpoint slices (word : str) (items : list str) : list str :=
  match items with
  | [] => []
  | item :: rest =>
      firstn (length item) word :: slices (skipn (length item) word) rest
  end.

(** The stretch of each token of a word: the slices for
    [new_word[:-1]], and what is left of the word for the last piece. *)
Definition surfaces (word : str) (new_word : list str) : list str :=
  slices word (Py.init new_word)
  ++ [skipn (length (concat (Py.init new_word))) word].

(** The case patterns that a tag restores, on a stretch that is not
    empty: all lower case, all upper case, or one capital that stands
    first or last.  The empty stretch, which a vocabulary can leave
    under the last piece, is none of them: [get_case_feature] raises
    [IndexError] on it. *)
Definition restorable (surf : str) : bool :=
  match surf with
  | [] => false
  | c :: rest =>
      forallb Py.is_ascii_lower surf
      || forallb Py.is_ascii_upper surf
      || Py.is_ascii_upper c && forallb Py.is_ascii_lower rest
      || match rev surf with
         | d :: front => Py.is_ascii_upper d && forallb Py.is_ascii_lower front
         | [] => false
         end
  end.

(** The tag [get_case_feature] returns for a stretch of two letters or
    more, from its three flags; for two letters [u_mid] is true. *)
Definition case_tag (u_start u_end u_mid : bool) : str :=
  if u_end then
    if u_start && u_mid then lit "A"
    else if u_start then lit "B"
    else lit "E"
  else if u_start then lit "S"
  else lit "N".

(** The engine of [lower_file] with the case feature on and the
    OpenNMT separator, which is the one the decoder knows. *)
Definition case_onmt_bpe (version : list Z) : BPE :=
  mkBPE version
    [([lit "lo"; lit "w"], 1); ([lit "l"; lit "o"], 0)]
    [(lit "low", [lit "lo"; lit "w"]); (lit "lo", [lit "l"; lit "o"])]
    OPENNMT_SEP None [] true [].

(** A rule file whose rules build the marker text out of its four
    characters, and join two copies of it. *)
Definition marker_file : list str :=
  [lit "< /"; lit "</ w"; lit "</w >"; lit "</w> </w>"].

(** ** The vocabulary file ([read_vocabulary]) *)

(** [vocabulary.add(word)] *)
Definition vocab_add (word : str) (vocabulary : list str) : list str :=
  if inb word vocabulary then vocabulary else vocabulary ++ [word].

(** [freq >= threshold], or no threshold *)
Definition passes (threshold : option Z) (freq : Z) : bool :=
  match threshold with
  | None => true
  | Some t => (t <=? freq)%Z
  end.

(** The loop of [read_vocabulary] over the lines of the file.  A line
    that is not made of two fields fails in [word, freq = line.split()]. *)
Fixpoint read_vocabulary_from (vocab_file : list str) (threshold : option Z)
  (vocabulary : list str) : result (list str) :=
  match vocab_file with
  | [] => Ok vocabulary
  | line :: rest =>
      match Py.words line with
      | [word; freq] =>
          freq <- py_int freq ;;
          read_vocabulary_from rest threshold
            (if passes threshold freq then vocab_add word vocabulary
             else vocabulary)
      | _ => Raise ValueError
      end
  end.

Definition read_vocabulary (vocab_file : list str) (threshold : option Z)
  : result (list str) :=
  read_vocabulary_from vocab_file threshold [].

(** ** The command line of apply_bpe.py *)

(** The parsed arguments, the files given by their lines. *)
Record cli_args := mkArgs {
  arg_codes : list str;
  arg_input : list str;
  arg_opennmt_separator : bool;
  arg_vocabulary : option (list str);
  arg_vocabulary_threshold : option Z;
  arg_glossaries : option (list str);
  arg_case_feature : bool
}.

(** The loop over the lines of the input: what is written for each
    line (the segmented line, stripped, and a line break), up to the
    line on which [segment] raises, and the engine or the exception. *)
Fixpoint write_lines (bpe : BPE) (input : list str) : list str * result BPE :=
  match input with
  | [] => ([], Ok bpe)
  | line :: rest =>
      match segment bpe line with
      | (Raise e, _) => ([], Raise e)
      | (Ok res, bpe') =>
          let r := write_lines bpe' rest in
          ((Py.strip res ++ [10%N]) :: fst r, snd r)
      end
  end.

(** The body of [__main__] after the files are opened. *)
Definition apply_bpe_main (args : cli_args) : list str * result BPE :=
  match (match arg_vocabulary args with
         | Some vocab_file =>
             v <- read_vocabulary vocab_file (arg_vocabulary_threshold args) ;;
             Ok (Some v)
         | None => Ok None
         end) with
  | Raise e => ([], Raise e)
  | Ok vocabulary =>
      let separator :=
        if arg_opennmt_separator args then OPENNMT_SEP else lit "@@" in
      match BPE_init (arg_codes args) separator vocabulary
              (arg_glossaries args) (arg_case_feature args) with
      | Raise e => ([], Raise e)
      | Ok bpe => write_lines bpe (arg_input args)
      end
  end.

(** ** The command line of detokenize.py *)

(** The loop over the lines of the input: the lines written, each with
    its line break, up to the line that raises. *)
Fixpoint detokenize_lines (input : list str) : list str * option exn :=
  match input with
  | [] => ([], None)
  | line :: rest =>
      match detokenize_line line with
      | Raise e => ([], Some e)
      | Ok out_line =>
          let r := detokenize_lines rest in
          ((out_line ++ [10%N]) :: fst r, snd r)
      end
  end.

(** ** Loading the models of the server ([load_models]) *)

(** An entry of the configuration. *)
Record config_entry := mkConfig {
  cfg_codes_file : str;
  cfg_separator : str;
  cfg_name : str
}.

(** What [load_models] ends in: the models, a file that [io.open] does
    not find, or the exception of a rule file that does not load. *)
Inductive load_outcome :=
| Loaded (res : list model_t)
| NoSuchFile (path : str)
| LoadRaised (e : exn).

(** [load_models(config)], over the files [fs] gives by path. *)
Fixpoint load_models (fs : str -> option (list str))
  (config : list config_entry) : load_outcome :=
  match config with
  | [] => Loaded []
  | c :: rest =>
      match fs (cfg_codes_file c) with
      | None => NoSuchFile (cfg_codes_file c)
      | Some codes =>
          match BPE_init codes (cfg_separator c) None None false with
          | Raise e => LoadRaised e
          | Ok b =>
              match load_models fs rest with
              | Loaded res => Loaded (mkModel (cfg_name c) b :: res)
              | failure => failure
              end
          end
      end
  end.

(** ** Notions of the cache *)

(** The value [encode] computes for a word when the cache is empty. *)
Definition fresh_value (self : BPE) (orig : str) : result pyval :=
  fst (encode orig (bpe_codes self) (bpe_codes_reverse self) (vocab self)
         (separator self) (version self) [] (glossaries self)).

(** Every cached sequence is the value [encode] computes for its key. *)
Definition cache_faithful (self : BPE) (c : cache_t) : Prop :=
  forall k v, Dict.get str_eq_dec c k = Some v ->
    fresh_value self k = Ok (VSeq v).

(** A rule file whose second rule merges the end-of-word marker onto a
    symbol. *)
Definition final_merge_file : list str := [lit "l o"; lit "lo </w>"].

(** The engine of [lower_file] with the OpenNMT separator and the case
    feature off. *)
Definition onmt_bpe (version : list Z) : BPE :=
  mkBPE version
    [([lit "lo"; lit "w"], 1); ([lit "l"; lit "o"], 0)]
    [(lit "low", [lit "lo"; lit "w"]); (lit "lo", [lit "l"; lit "o"])]
    OPENNMT_SEP None [] false [].

(** The engine of the one rule (l, o) under version 0.1 with the
    vocabulary [l@@], [o], [x]. *)
Definition lo_file : list str := [lit "l o"].

Definition lo_vocab_bpe : BPE :=
  mkBPE [0; 1]%Z
    [([lit "l"; lit "o"], 0)]
    [(lit "lo", [lit "l"; lit "o"])]
    (lit "@@") (Some [lit "l@@"; lit "o"; lit "x"]) [] false [].

(** The same rule with the glossary [USA] and the vocabulary [lo],
    [USA]. *)
Definition lo_glossary_bpe : BPE :=
  mkBPE [0; 1]%Z
    [([lit "l"; lit "o"], 0)]
    [(lit "lo", [lit "l"; lit "o"])]
    (lit "@@") (Some [lit "lo"; lit "USA"]) [lit "USA"] false [].

(** The engine of [final_merge_file] with the case feature on, the
    OpenNMT separator and a vocabulary that holds [l] and [o] with the
    separator. *)
Definition case_vocab_bpe : BPE :=
  mkBPE [0; 1]%Z
    [([lit "lo"; lit "</w>"], 1); ([lit "l"; lit "o"], 0)]
    [(lit "lo</w>", [lit "lo"; lit "</w>"]); (lit "lo", [lit "l"; lit "o"])]
    OPENNMT_SEP (Some [lit "l" ++ OPENNMT_SEP; lit "o" ++ OPENNMT_SEP])
    [] true [].

(* ================================================================= *)
(** * Properties *)

(** ** Strings *)

Lemma eqs_true a b : eqs a b = true <-> a = b.
Proof. unfold eqs. destruct (str_eq_dec a b); split; congruence. Qed.

Lemma eqs_false a b : eqs a b = false <-> a <> b.
Proof. unfold eqs. destruct (str_eq_dec a b); split; congruence. Qed.

Lemma eqs_refl a : eqs a a = true.
Proof. now apply eqs_true. Qed.

Lemma inb_true x l : inb x l = true <-> In x l.
Proof.
  unfold inb. rewrite existsb_exists. split.
  - intros [y [Hy He]]. apply eqs_true in He. now subst.
  - intros H. exists x. split; [assumption | apply eqs_refl].
Qed.

Lemma startswith_app p x : Py.startswith (p ++ x) p = true.
Proof.
  induction p as [|c p IH]; simpl; [reflexivity|].
  now rewrite N.eqb_refl, IH.
Qed.

Lemma startswith_spec s p :
  Py.startswith s p = true <-> exists x, s = p ++ x.
Proof.
  split.
  - revert s. induction p as [|c p IH]; intros s H.
    + now exists s.
    + destruct s as [|d s]; simpl in H; [discriminate|].
      apply andb_true_iff in H. destruct H as [Hc Hs].
      apply N.eqb_eq in Hc. subst d.
      destruct (IH _ Hs) as [x ->]. now exists x.
  - intros [x ->]. apply startswith_app.
Qed.

Lemma endswith_spec s p :
  Py.endswith s p = true <-> exists x, s = x ++ p.
Proof.
  unfold Py.endswith. rewrite startswith_spec. split.
  - intros [x Hx]. exists (rev x).
    rewrite <- (rev_involutive s), Hx, rev_app_distr.
    now rewrite rev_involutive.
  - intros [x ->]. exists (rev x). apply rev_app_distr.
Qed.

Lemma partition_spec sep s a b :
  Py.partition sep s = Some (a, b) -> s = a ++ sep ++ b.
Proof.
  revert a b. induction s as [|c s IH]; intros a b; simpl.
  - destruct (Py.startswith [] sep) eqn:E; [|discriminate].
    intros [= <- <-]. apply startswith_spec in E. destruct E as [x E].
    destruct sep; [|discriminate]. reflexivity.
  - destruct (Py.startswith (c :: s) sep) eqn:E.
    + intros [= <- <-]. apply startswith_spec in E. destruct E as [x E].
      rewrite E. rewrite skipn_app, skipn_all, Nat.sub_diag. reflexivity.
    + destruct (Py.partition sep s) as [[a' b']|]; [|discriminate].
      intros [= <- <-]. simpl. f_equal. now apply IH.
Qed.

Lemma join_split_fuel n sep s : Py.join sep (Py.split_fuel n sep s) = s.
Proof.
  revert s. induction n as [|n IH]; intros s; simpl; [reflexivity|].
  destruct (Py.partition sep s) as [[a b]|] eqn:E; [|reflexivity].
  apply partition_spec in E. subst s.
  specialize (IH b).
  destruct (Py.split_fuel n sep b) as [|y l] eqn:F.
  - destruct n; simpl in F; [discriminate|].
    destruct (Py.partition sep b) as [[? ?]|]; discriminate.
  - change (Py.join sep (a :: y :: l)) with (a ++ sep ++ Py.join sep (y :: l)).
    now rewrite IH.
Qed.

Lemma partition_none sep s :
  Py.contains s sep = false -> Py.partition sep s = None.
Proof.
  induction s as [|c s IH]; simpl; intros H.
  - apply orb_false_iff in H. destruct H as [-> _]. reflexivity.
  - apply orb_false_iff in H. destruct H as [-> H]. now rewrite IH.
Qed.

Lemma partition_some sep s :
  Py.contains s sep = true -> exists a b, Py.partition sep s = Some (a, b).
Proof.
  induction s as [|c s IH]; simpl; intros H.
  - rewrite orb_false_r in H. rewrite H. eauto.
  - destruct (Py.startswith (c :: s) sep); [eauto|].
    simpl in H. destruct (IH H) as [a [b ->]]. eauto.
Qed.

Lemma contains_spec s p :
  Py.contains s p = true <-> exists a b, s = a ++ p ++ b.
Proof.
  split.
  - intros H. destruct (partition_some _ _ H) as [a [b E]].
    exists a, b. now apply partition_spec.
  - intros [a [b ->]]. induction a as [|c a IH]; simpl.
    + destruct p; simpl; [destruct b; reflexivity|].
      rewrite N.eqb_refl, startswith_app. reflexivity.
    + rewrite IH. apply orb_true_r.
Qed.

Lemma contains_sub a b c p :
  Py.contains (a ++ b ++ c) p = false -> Py.contains b p = false.
Proof.
  intros H. destruct (Py.contains b p) eqn:E; [|reflexivity].
  apply contains_spec in E. destruct E as [x [y ->]].
  assert (Py.contains (a ++ (x ++ p ++ y) ++ c) p = true) as H'.
  { apply contains_spec. exists (a ++ x), (y ++ c).
    now rewrite <- !app_assoc. }
  congruence.
Qed.

(** ** The merge loop *)

Lemma list_len_ind {A} (P : list A -> Prop) :
  (forall l, (forall l', length l' < length l -> P l') -> P l) ->
  forall l, P l.
Proof.
  intros H l. remember (length l) as n eqn:E. revert l E.
  induction n as [n IH] using lt_wf_ind. intros l ->.
  apply H. intros l' Hl. now apply (IH (length l')).
Qed.

Lemma merge_pass_cons f s x rest :
  merge_pass f s (x :: rest) =
  if eqs x f then
    match rest with
    | y :: rest' =>
        if eqs y s then (f ++ s) :: merge_pass f s rest'
        else x :: merge_pass f s rest
    | [] => [x]
    end
  else x :: merge_pass f s rest.
Proof. reflexivity. Qed.

Lemma merge_pass_concat f s w : concat (merge_pass f s w) = concat w.
Proof.
  induction w as [w IH] using list_len_ind.
  destruct w as [|x rest]; [reflexivity|].
  rewrite merge_pass_cons.
  destruct (eqs x f) eqn:Ef.
  - destruct rest as [|y r]; [reflexivity|].
    destruct (eqs y s) eqn:Es.
    + apply eqs_true in Ef, Es. subst.
      cbn [concat]. rewrite IH by (simpl; lia). now rewrite <- app_assoc.
    + cbn [concat]. rewrite IH by (simpl; lia). reflexivity.
  - cbn [concat]. rewrite IH by (simpl; lia). reflexivity.
Qed.

Lemma merge_pass_length f s w : length (merge_pass f s w) <= length w.
Proof.
  induction w as [w IH] using list_len_ind.
  destruct w as [|x rest]; [simpl; lia|].
  rewrite merge_pass_cons.
  destruct (eqs x f).
  - destruct rest as [|y r]; [simpl; lia|].
    destruct (eqs y s).
    + cbn [length]. specialize (IH r). cbn [length] in IH. lia.
    + cbn [length]. specialize (IH (y :: r)). cbn [length] in IH. lia.
  - cbn [length]. specialize (IH rest). cbn [length] in IH. lia.
Qed.

Lemma merge_pass_nonempty f s w : w <> [] -> merge_pass f s w <> [].
Proof.
  destruct w as [|x rest]; [congruence|]. intros _.
  rewrite merge_pass_cons.
  destruct (eqs x f); [destruct rest; [|destruct (eqs _ s)]|]; discriminate.
Qed.

Lemma merge_pass_shrinks f s w :
  adjacent (f, s) w -> length (merge_pass f s w) < length w.
Proof.
  induction w as [|x r IH]; intros [a [b E]].
  - destruct a; discriminate.
  - rewrite merge_pass_cons. destruct (eqs x f) eqn:Ef.
    + destruct r as [|y r'].
      * destruct a as [|? [|? ?]]; discriminate.
      * destruct (eqs y s) eqn:Es.
        -- cbn [length]. pose proof (merge_pass_length f s r'). lia.
        -- cbn [length]. apply -> Nat.succ_lt_mono. apply IH.
           destruct a as [|a0 a]; simpl in E.
           ++ injection E as _ Ey _. apply eqs_false in Es. congruence.
           ++ injection E as _ E. now exists a, b.
    + cbn [length]. apply -> Nat.succ_lt_mono. apply IH.
      destruct a as [|a0 a]; simpl in E.
      * injection E as Ex _. apply eqs_false in Ef. congruence.
      * injection E as _ E. now exists a, b.
Qed.

Lemma merge_pass_last f s w z :
  exists w' y, merge_pass f s (w ++ [z]) = w' ++ [y ++ z].
Proof.
  induction w as [w IH] using list_len_ind.
  destruct w as [|x rest].
  - exists [], []. simpl. now destruct (eqs z f).
  - cbn [app]. rewrite merge_pass_cons.
    destruct (eqs x f) eqn:Ef.
    + destruct rest as [|y r]; cbn [app].
      * destruct (eqs z s) eqn:Es.
        -- apply eqs_true in Ef, Es. subst f s. now exists [], x.
        -- exists [x], []. simpl. now destruct (eqs z f).
      * destruct (eqs y s) eqn:Es.
        -- destruct (IH r) as [w' [y' E]]; [simpl; lia|].
           rewrite E. now exists ((f ++ s) :: w'), y'.
        -- destruct (IH (y :: r)) as [w' [y' E]]; [simpl; lia|].
           cbn [app] in E. rewrite E. now exists (x :: w'), y'.
    + destruct (IH rest) as [w' [y' E]]; [simpl; lia|].
      rewrite E. now exists (x :: w'), y'.
Qed.

Lemma merge_pass_ends_eow f s w : ends_eow w -> ends_eow (merge_pass f s w).
Proof.
  intros [i [x ->]].
  destruct (merge_pass_last f s i (x ++ EOW)) as [w' [y E]].
  exists w', (y ++ x). rewrite E. now rewrite app_assoc.
Qed.

Lemma set_add_in p q acc : In p acc -> In p (set_add q acc).
Proof.
  unfold set_add. destruct (in_dec pair_eq_dec q acc); [easy|].
  intros H. apply in_or_app. now left.
Qed.

Lemma set_add_new q acc : In q (set_add q acc).
Proof.
  unfold set_add. destruct (in_dec pair_eq_dec q acc); [easy|].
  apply in_or_app. right. now left.
Qed.

Lemma set_add_inv p q acc : In p (set_add q acc) -> p = q \/ In p acc.
Proof.
  unfold set_add. destruct (in_dec pair_eq_dec q acc); [tauto|].
  intros H. apply in_app_or in H. destruct H as [H|[H|[]]]; auto.
Qed.

Lemma pairs_from_keeps p prev w acc :
  In p acc -> In p (pairs_from prev w acc).
Proof.
  revert prev acc. induction w as [|c w IH]; intros prev acc H; simpl; [easy|].
  apply IH. now apply set_add_in.
Qed.

Lemma pairs_from_adjacent p prev w acc :
  In p (pairs_from prev w acc) -> In p acc \/ adjacent p (prev :: w).
Proof.
  revert prev acc. induction w as [|c w IH]; intros prev acc H; simpl in H.
  - now left.
  - apply IH in H. destruct H as [H|[a [b E]]].
    + apply set_add_inv in H. destruct H as [->|H]; [|now left].
      right. now exists [], w.
    + right. exists (prev :: a), b. simpl. now rewrite E.
Qed.

Lemma get_pairs_adjacent p w pairs :
  get_pairs w = Ok pairs -> In p pairs -> adjacent p w.
Proof.
  destruct w as [|prev w]; [discriminate|]. intros [= <-] H.
  apply pairs_from_adjacent in H. now destruct H as [[]|H].
Qed.

Lemma get_pairs_nonempty x y w :
  exists p ps, get_pairs (x :: y :: w) = Ok (p :: ps).
Proof.
  simpl. assert (In (x, y) (pairs_from y w (set_add (x, y) []))) as H
    by apply pairs_from_keeps, set_add_new.
  destruct (pairs_from y w (set_add (x, y) [])) as [|p ps]; [destruct H|].
  now exists p, ps.
Qed.

Lemma min_from_in {A} (key : A -> option nat) best l :
  min_from key best l = best \/ In (min_from key best l) l.
Proof.
  revert best. induction l as [|x l IH]; intros best; simpl; [now left|].
  destruct (IH (if key_lt (key x) (key best) then x else best)) as [E|H].
  - rewrite E. destruct (key_lt (key x) (key best)); auto.
  - auto.
Qed.

Lemma py_min_in {A} (key : A -> option nat) l x :
  py_min key l = Ok x -> In x l.
Proof.
  destruct l as [|y l]; [discriminate|]. intros [= <-].
  destruct (min_from_in key y l) as [->|H]; [now left | now right].
Qed.

(** The merge loop needs no more iterations than the word has symbols,
    and keeps the text of the word. *)
Lemma merge_loop_total bpe_codes fuel : forall word pairs,
  get_pairs word = Ok pairs -> pairs <> [] -> length word <= fuel ->
  exists w', merge_loop fuel bpe_codes word pairs = Ok w'
    /\ concat w' = concat word /\ w' <> []
    /\ (ends_eow word -> ends_eow w').
Proof.
  induction fuel as [|fuel IH]; intros word pairs Hp Hne Hlen.
  - destruct word; [discriminate|]. simpl in Hlen. lia.
  - simpl. destruct pairs as [|p0 ps]; [congruence|].
    unfold py_min. simpl bind.
    set (bigram := min_from (rank_of bpe_codes) p0 ps).
    assert (In bigram (p0 :: ps)) as Hin
      by (apply (py_min_in (rank_of bpe_codes)); reflexivity).
    assert (word <> []) as Hw by (destruct word; [discriminate|congruence]).
    destruct (negb (Dict.mem code_eq_dec bpe_codes (tup bigram))).
    { exists word. auto. }
    assert (adjacent bigram word) as Hadj by (eapply get_pairs_adjacent; eauto).
    destruct bigram as [f s]. simpl fst; simpl snd.
    pose proof (merge_pass_shrinks Hadj) as Hs.
    pose proof (merge_pass_concat f s word) as Hc.
    pose proof (merge_pass_nonempty f s Hw) as Hn.
    pose proof (@merge_pass_ends_eow f s word) as He.
    destruct (merge_pass f s word) as [|x [|y r]] eqn:Em; [congruence| |].
    + simpl. exists [x]. repeat split; auto; discriminate.
    + cbn [length Nat.eqb].
      destruct (get_pairs_nonempty x y r) as [p [ps' Eg]]. rewrite Eg.
      simpl bind.
      destruct (IH (x :: y :: r) (p :: ps') Eg) as [w' [E1 [E2 [E3 E4]]]];
        [discriminate | simpl in *; lia |].
      exists w'. rewrite E1. repeat split; auto. congruence.
Qed.

(** ** The vocabulary split *)

Lemma wf_pairs_only rev : wf_reverse rev -> pairs_only rev.
Proof.
  intros H k v Hk. destruct (H k v Hk) as [l [r [E _]]]. eauto.
Qed.

Lemma tokens_ok_app rev vocab sep final a b :
  tokens_ok rev vocab sep false a -> tokens_ok rev vocab sep final b ->
  tokens_ok rev vocab sep final (a ++ b).
Proof.
  intros [fa [la [-> [Ha Hla]]]] [fb [lb [-> [Hb Hlb]]]].
  exists ((fa ++ [la]) ++ fb), lb. split; [now rewrite !app_assoc|].
  split; [|assumption].
  apply Forall_app. split; [|assumption].
  apply Forall_app. split; [assumption|]. now constructor.
Qed.

Lemma tokens_ok_nonfinal rev vocab sep out :
  tokens_ok rev vocab sep false out -> Forall (nonfinal_ok rev vocab sep) out.
Proof.
  intros [f [l [-> [Hf Hl]]]]. apply Forall_app. split; [assumption|].
  now constructor.
Qed.

Lemma recursive_split_tokens rev vocab sep :
  pairs_only rev ->
  forall fuel segment final out,
    recursive_split fuel segment rev vocab sep final = Ok out ->
    tokens_ok rev vocab sep final out.
Proof.
  intros Hp. induction fuel as [|fuel IH]; intros segment final out;
    [discriminate|].
  simpl.
  destruct (Dict.get str_eq_dec rev (if final then segment ++ EOW else segment))
    as [v|] eqn:Eg.
  - destruct (Hp _ _ Eg) as [l [r0 ->]].
    set (r := if final then Py.drop_last 4 r0 else r0).
    destruct (if inb (l ++ sep) vocab then Ok [l]
              else recursive_split fuel l rev vocab sep false)
      as [a|] eqn:Ea; [|discriminate].
    destruct (if (final && inb r vocab) || (negb final && inb (r ++ sep) vocab)
              then Ok [r]
              else recursive_split fuel r rev vocab sep final)
      as [b|] eqn:Eb; [|discriminate].
    simpl. intros [= <-]. apply tokens_ok_app.
    + destruct (inb (l ++ sep) vocab) eqn:El; [|eapply IH; eassumption].
      injection Ea as <-. exists [], l. repeat split; [constructor|].
      left. now apply inb_true.
    + destruct ((final && inb r vocab) || (negb final && inb (r ++ sep) vocab))
        eqn:Er; [|eapply IH; eassumption].
      injection Eb as <-. exists [], r. repeat split; [constructor|].
      destruct final; simpl in Er.
      * rewrite orb_false_r in Er. left. now apply inb_true.
      * left. now apply inb_true.
  - intros [= <-]. exists [], segment. repeat split; [constructor|].
    destruct final; right; assumption.
Qed.

Lemma check_nonfinal_tokens rev vocab sep :
  pairs_only rev ->
  forall segments out,
    check_nonfinal segments rev vocab sep = Ok out ->
    Forall (nonfinal_ok rev vocab sep) out.
Proof.
  intros Hp. induction segments as [|s rest IH]; intros out; simpl.
  - intros [= <-]. constructor.
  - destruct (inb (s ++ sep) vocab) eqn:Es.
    + simpl. destruct (check_nonfinal rest rev vocab sep) as [b|]; [|discriminate].
      simpl. intros [= <-]. constructor; [|now apply IH].
      left. now apply inb_true.
    + destruct (recursive_split recursion_depth s rev vocab sep false)
        as [a|] eqn:Ea; [|discriminate].
      simpl. destruct (check_nonfinal rest rev vocab sep) as [b|]; [|discriminate].
      simpl. intros [= <-]. apply Forall_app. split; [|now apply IH].
      apply tokens_ok_nonfinal. eapply recursive_split_tokens; eauto.
Qed.

Lemma drop_last_app {A} (x y : list A) : Py.drop_last (length y) (x ++ y) = x.
Proof.
  unfold Py.drop_last. rewrite length_app, Nat.add_sub.
  rewrite firstn_app, Nat.sub_diag, firstn_all. simpl. apply app_nil_r.
Qed.

Lemma recursive_split_concat rev vocab sep :
  wf_reverse rev ->
  forall fuel (segment : str) (final : bool),
    length segment + (if final then 1 else 0) < fuel ->
    exists out, recursive_split fuel segment rev vocab sep final = Ok out
      /\ concat out = segment.
Proof.
  intros Hwf. induction fuel as [|fuel IH]; intros segment final Hlen; [lia|].
  simpl.
  destruct (Dict.get str_eq_dec rev (if final then segment ++ EOW else segment))
    as [v|] eqn:Eg.
  2:{ exists [segment]. split; [reflexivity|]. simpl. apply app_nil_r. }
  destruct (Hwf _ _ Eg) as [l [r0 [-> [Ek [Hl [Hr He]]]]]].
  set (r := if final then Py.drop_last 4 r0 else r0).
  assert (segment = l ++ r /\ length r + (if final then 1 else 0) < fuel)
    as [Eseg Hlr].
  { destruct final; subst r.
    - assert (Py.endswith r0 EOW = true) as Hx.
      { apply He. apply endswith_spec. now exists segment. }
      apply endswith_spec in Hx. destruct Hx as [x Ex].
      subst r0. change 4 with (length EOW). rewrite drop_last_app.
      rewrite app_assoc in Ek. apply app_inv_tail in Ek. subst segment.
      split; [reflexivity|]. rewrite length_app in Hlen.
      destruct l; [congruence|]. simpl in Hlen. lia.
    - subst segment. split; [reflexivity|]. rewrite length_app in Hlen.
      destruct l; [congruence|]. simpl in Hlen. lia. }
  assert (length l < fuel) as Hll.
  { subst segment. rewrite length_app in Hlen.
    destruct final; [lia|]. destruct r0; [congruence|]. subst r.
    simpl in Hlen. lia. }
  assert (exists a, (if inb (l ++ sep) vocab then Ok [l]
                     else recursive_split fuel l rev vocab sep false) = Ok a
                    /\ concat a = l) as [a [-> Ea]].
  { destruct (inb (l ++ sep) vocab).
    - exists [l]. split; [reflexivity|]. simpl. apply app_nil_r.
    - apply IH. simpl. lia. }
  assert (exists b, (if (final && inb r vocab)
                        || (negb final && inb (r ++ sep) vocab)
                     then Ok [r]
                     else recursive_split fuel r rev vocab sep final) = Ok b
                    /\ concat b = r) as [b [-> Eb]].
  { destruct ((final && inb r vocab) || (negb final && inb (r ++ sep) vocab)).
    - exists [r]. split; [reflexivity|]. simpl. apply app_nil_r.
    - now apply IH. }
  simpl. exists (a ++ b). split; [reflexivity|].
  rewrite concat_app. congruence.
Qed.

Lemma check_nonfinal_concat rev vocab sep :
  wf_reverse rev ->
  forall segments,
    Forall (fun s => length s < recursion_depth) segments ->
    exists out, check_nonfinal segments rev vocab sep = Ok out
      /\ concat out = concat segments.
Proof.
  intros Hwf. induction segments as [|s rest IH]; intros Hfit; simpl.
  - now exists [].
  - inversion Hfit as [|? ? Hs Hrest]; subst.
    destruct (IH Hrest) as [b [Eb Hb]].
    assert (exists a, (if inb (s ++ sep) vocab then Ok [s]
                       else recursive_split recursion_depth s rev vocab sep false)
                      = Ok a /\ concat a = s) as [a [-> Ea]].
    { destruct (inb (s ++ sep) vocab).
      - exists [s]. split; [reflexivity|]. simpl. apply app_nil_r.
      - apply recursive_split_concat; [assumption|]. lia. }
    rewrite Eb. simpl. exists (a ++ b). split; [reflexivity|].
    rewrite concat_app. congruence.
Qed.

Lemma last_item_app {A} (i : list A) x : Py.last_item (i ++ [x]) = Ok x.
Proof. unfold Py.last_item. now rewrite rev_app_distr. Qed.

Lemma init_app {A} (i : list A) x : Py.init (i ++ [x]) = i.
Proof. apply removelast_last. Qed.

Lemma nonempty_last {A} (l : list A) :
  l <> [] -> exists i x, l = i ++ [x].
Proof.
  intros H. destruct (exists_last H) as [i [x E]]. eauto.
Qed.

Lemma check_vocab_and_split_concat rev vocab sep word :
  wf_reverse rev -> word <> [] -> tokens_fit word ->
  exists out, check_vocab_and_split word rev vocab sep = Ok out
    /\ concat out = concat word.
Proof.
  intros Hwf Hne Hfit. destruct (nonempty_last Hne) as [i [x ->]].
  unfold check_vocab_and_split. rewrite init_app, last_item_app.
  apply Forall_app in Hfit. destruct Hfit as [Hi Hx].
  inversion Hx as [|? ? Hx' _]; subst.
  destruct (@check_nonfinal_concat rev vocab sep Hwf i) as [a [-> Ea]].
  { eapply Forall_impl; [|exact Hi]. cbv beta. intros; lia. }
  simpl.
  assert (exists b, (if inb x vocab then Ok [x]
                     else recursive_split recursion_depth x rev vocab sep true)
                    = Ok b /\ concat b = x) as [b [-> Eb]].
  { destruct (inb x vocab).
    - exists [x]. split; [reflexivity|]. simpl. apply app_nil_r.
    - apply recursive_split_concat; [assumption|]. lia. }
  simpl. exists (a ++ b). split; [reflexivity|].
  rewrite !concat_app. simpl. rewrite app_nil_r. congruence.
Qed.

Lemma check_vocab_and_split_tokens rev vocab sep word out :
  pairs_only rev ->
  check_vocab_and_split word rev vocab sep = Ok out ->
  tokens_ok rev vocab sep true out.
Proof.
  intros Hp. unfold check_vocab_and_split.
  destruct (check_nonfinal (Py.init word) rev vocab sep) as [a|] eqn:Ea;
    [|discriminate].
  apply check_nonfinal_tokens in Ea; [|assumption].
  simpl. destruct (Py.last_item word) as [x|]; [|discriminate]. simpl.
  destruct (inb x vocab) eqn:Ex.
  - simpl. intros [= <-]. exists a, x. repeat split; [assumption|].
    left. now apply inb_true.
  - destruct (recursive_split recursion_depth x rev vocab sep true) as [b|] eqn:Eb;
      [|discriminate].
    simpl. intros [= <-].
    apply recursive_split_tokens in Eb; [|assumption].
    destruct Eb as [f [l [-> [Hf Hl]]]].
    exists (a ++ f), l. split; [now rewrite app_assoc|].
    split; [|assumption]. apply Forall_app. now split.
Qed.

(** ** Dictionaries *)

Section DictFacts.
Context {K V : Type}.
Variable eq_dec : forall a b : K, {a = b} + {a <> b}.

Lemma get_set_eq (d : Dict.t) (k : K) (v : V) :
  Dict.get eq_dec (Dict.set eq_dec d k v) k = Some v.
Proof.
  induction d as [|[k' v'] d IH]; simpl.
  - destruct (eq_dec k k); congruence.
  - destruct (eq_dec k k') as [->|Hne]; simpl.
    + destruct (eq_dec k' k'); congruence.
    + destruct (eq_dec k k'); congruence.
Qed.

Lemma get_set_neq (d : Dict.t) (k k' : K) (v : V) :
  k <> k' -> Dict.get eq_dec (Dict.set eq_dec d k v) k' = Dict.get eq_dec d k'.
Proof.
  intros Hne. induction d as [|[k0 v0] d IH]; simpl.
  - destruct (eq_dec k' k); congruence.
  - destruct (eq_dec k k0) as [->|Hk]; simpl.
    + destruct (eq_dec k' k0); congruence.
    + destruct (eq_dec k' k0); congruence.
Qed.

End DictFacts.

(** ** Encoding one word *)

Lemma cache_ok_set c k v : cache_ok c -> concat v = k ->
  cache_ok (Dict.set str_eq_dec c k v).
Proof.
  intros Hc Hv k' v'. destruct (str_eq_dec k k') as [<-|Hne].
  - rewrite get_set_eq. now intros [= <-].
  - rewrite get_set_neq by assumption. apply Hc.
Qed.

Lemma concat_chars (s : str) : concat (map (fun c => [c]) s) = s.
Proof. induction s as [|c s IH]; simpl; congruence. Qed.

Lemma EOW_eq : EOW = [60; 47; 119; 62]%N.
Proof. reflexivity. Qed.

Lemma init_last_item {A} (l : list A) x :
  Py.last_item l = Ok x -> l = Py.init l ++ [x].
Proof.
  unfold Py.last_item. intros H.
  destruct l as [|y l _] using rev_ind; [discriminate|].
  rewrite rev_app_distr in H. injection H as ->. now rewrite init_app.
Qed.

Lemma initial_symbols_ok version (orig : str) :
  supported version -> orig <> [] ->
  exists w, initial_symbols version orig = Ok w
    /\ concat w = orig ++ EOW /\ ends_eow w
    /\ length w = (if version_eq_dec version [0; 1]%Z
                   then S (length orig) else length orig).
Proof.
  intros Hv Hne. unfold initial_symbols.
  destruct (version_eq_dec version [0; 1]%Z) as [E1|N1].
  - exists (map (fun c => [c]) orig ++ [EOW]). split; [reflexivity|].
    rewrite concat_app, concat_chars. cbn [concat]. rewrite app_nil_r.
    repeat split.
    + now exists (map (fun c => [c]) orig), [].
    + rewrite length_app, length_map. simpl. lia.
  - destruct (version_eq_dec version [0; 2]%Z) as [E2|N2];
      [|destruct Hv; congruence].
    destruct (nonempty_last Hne) as [i [c ->]].
    rewrite last_item_app, init_app. simpl.
    exists (map (fun c => [c]) i ++ [c :: EOW]). split; [reflexivity|].
    rewrite concat_app, concat_chars. cbn [concat]. rewrite app_nil_r, <- app_assoc.
    repeat split.
    + now exists (map (fun c => [c]) i), [c].
    + rewrite !length_app, length_map. reflexivity.
Qed.

Lemma no_straddle (x : str) :
  x <> [] -> Py.startswith x EOW = false ->
  Py.startswith (x ++ EOW) EOW = false.
Proof.
  rewrite EOW_eq. intros Hne H.
  destruct x as [|c1 [|c2 [|c3 [|c4 r]]]]; [congruence| | | |exact H];
    simpl; now rewrite ?andb_false_r.
Qed.

Lemma partition_eow (x : str) :
  Py.contains x EOW = false -> Py.partition EOW (x ++ EOW) = Some (x, []).
Proof.
  induction x as [|c x IH]; intros H; [reflexivity|].
  simpl in H. apply orb_false_iff in H. destruct H as [H1 H2].
  cbn [app Py.partition].
  change (c :: x ++ EOW) with ((c :: x) ++ EOW).
  rewrite no_straddle by (assumption || discriminate).
  cbn [app]. now rewrite IH.
Qed.

Lemma replace_eow (x : str) :
  Py.contains x EOW = false -> Py.replace EOW [] (x ++ EOW) = x.
Proof.
  intros H. unfold Py.replace. rewrite length_app.
  replace (length x + length EOW) with (S (length x + 3))
    by (rewrite EOW_eq; simpl; lia).
  cbn [Py.split_fuel]. rewrite partition_eow by assumption.
  assert (Py.split_fuel (length x + 3) EOW [] = [[]]) as ->
    by (destruct (length x + 3); reflexivity).
  simpl. now rewrite app_nil_r.
Qed.

Lemma strip_eow_ok (w : list str) (orig : str) :
  ends_eow w -> concat w = orig ++ EOW -> orig <> [] ->
  exists w', strip_eow w = Ok w' /\ w' <> []
    /\ (Py.contains orig EOW = false -> concat w' = orig).
Proof.
  intros [i [x ->]] Hc Hne. unfold strip_eow.
  rewrite last_item_app, init_app. simpl.
  rewrite concat_app in Hc. simpl in Hc.
  rewrite app_nil_r, app_assoc in Hc. apply app_inv_tail in Hc.
  destruct (eqs (x ++ EOW) EOW) eqn:E.
  - apply eqs_true in E. apply (app_inv_tail EOW x []) in E. subst x.
    rewrite app_nil_r in Hc. exists i. repeat split; [|auto].
    intros ->. now subst orig.
  - assert (Py.endswith (x ++ EOW) EOW = true) as ->
      by (apply endswith_spec; eauto).
    exists (i ++ [Py.replace EOW [] (x ++ EOW)]). repeat split.
    + now destruct i.
    + intros Hno. rewrite replace_eow.
      * rewrite concat_app. simpl. now rewrite app_nil_r.
      * subst orig. apply (contains_sub (concat i) x []).
        now rewrite app_nil_r.
Qed.

Lemma in_concat_length (t : str) (w : list str) :
  In t w -> length t <= length (concat w).
Proof.
  induction w as [|x w IH]; intros H; [destruct H|].
  cbn [concat]. rewrite length_app. destruct H as [->|H]; [lia|].
  specialize (IH H). lia.
Qed.

Lemma join_nil_length (sep : str) (l : list str) :
  length (Py.join [] l) <= length (Py.join sep l).
Proof.
  induction l as [|x l IH]; [reflexivity|].
  destruct l as [|y l]; [reflexivity|].
  change (Py.join [] (x :: y :: l)) with (x ++ [] ++ Py.join [] (y :: l)).
  change (Py.join sep (x :: y :: l)) with (x ++ sep ++ Py.join sep (y :: l)).
  rewrite !length_app. cbn [length]. lia.
Qed.

(** Removing the occurrences of a text does not make a string longer. *)
Lemma replace_empty_length (old s : str) :
  length (Py.replace old [] s) <= length s.
Proof.
  unfold Py.replace.
  rewrite <- (join_split_fuel (length s) old s) at 3.
  apply join_nil_length.
Qed.

(** The symbols left after the marker is taken off are no longer than
    the text of the word with its marker. *)
Lemma strip_eow_lengths (w w' : list str) :
  strip_eow w = Ok w' ->
  Forall (fun t => length t <= length (concat w)) w'.
Proof.
  unfold strip_eow. destruct (Py.last_item w) as [lst|] eqn:El; [|discriminate].
  cbn [bind]. apply init_last_item in El.
  assert (Forall (fun t => length t <= length (concat w)) w) as Hall
    by (apply Forall_forall; intros t; apply in_concat_length).
  assert (Forall (fun t => length t <= length (concat w)) (Py.init w)) as Hinit.
  { apply Forall_forall. intros t Ht. apply in_concat_length.
    rewrite El. apply in_or_app. now left. }
  destruct (eqs lst EOW); [now intros [= <-]|].
  destruct (Py.endswith lst EOW); intros [= <-]; [|assumption].
  apply Forall_app. split; [assumption|]. repeat constructor.
  pose proof (replace_empty_length EOW lst).
  assert (length lst <= length (concat w)).
  { apply in_concat_length. rewrite El. apply in_or_app. right. now left. }
  lia.
Qed.

Lemma encode_merges_ok word pairs bpe_codes rev vocab sep (orig : str) :
  get_pairs word = Ok pairs -> pairs <> [] ->
  ends_eow word -> concat word = orig ++ EOW -> orig <> [] ->
  (supplied vocab = true -> wf_reverse rev /\ deep_enough orig) ->
  exists out, encode_merges word pairs bpe_codes rev vocab sep = Ok out
    /\ (Py.contains orig EOW = false -> concat out = orig).
Proof.
  intros Hp Hne He Hc Ho Hwf. unfold encode_merges.
  destruct (@merge_loop_total bpe_codes (length word) word pairs Hp Hne
              (Nat.le_refl _)) as [w1 [-> [Hc1 [Hn1 He1]]]].
  simpl. rewrite Hc in Hc1.
  destruct (@strip_eow_ok w1 orig (He1 He) Hc1 Ho) as [w2 [E2 [Hn2 Hc2]]].
  pose proof (strip_eow_lengths _ E2) as Hlen.
  rewrite E2. simpl. destruct (supplied vocab).
  - destruct (Hwf eq_refl) as [Hwf' Hdeep].
    destruct (@check_vocab_and_split_concat rev (vocab_set vocab) sep w2
                Hwf' Hn2) as [out [-> Hout]].
    { eapply Forall_impl; [|exact Hlen]. cbv beta. intros t Ht.
      rewrite Hc1, length_app in Ht. unfold deep_enough in Hdeep.
      rewrite EOW_eq in Ht. cbn [length] in Ht. lia. }
    exists out. split; [reflexivity|]. intros Hno. rewrite Hout. auto.
  - now exists w2.
Qed.

Lemma get_pairs_ok (w : list str) : w <> [] -> exists ps, get_pairs w = Ok ps.
Proof. destruct w; [congruence|]. simpl. eauto. Qed.

(** Under a supported version [encode] returns on every non-empty
    word; on a word without the marker text the pieces of the value
    spell the word, also when they come from the cache. *)
Lemma encode_ok (orig : str) bpe_codes rev vocab sep version c glossaries :
  supported version -> orig <> [] ->
  (supplied vocab = true -> wf_reverse rev /\ deep_enough orig) ->
  exists v c',
    encode orig bpe_codes rev vocab sep version c glossaries = (Ok v, c')
    /\ (cache_ok c -> Py.contains orig EOW = false ->
        concat (pieces v) = orig /\ cache_ok c').
Proof.
  intros Hv Hne Hwf. unfold encode.
  destruct (Dict.get str_eq_dec c orig) as [v|] eqn:Eg.
  { exists (VSeq v), c. split; [reflexivity|]. intros Hc _. split; auto. }
  destruct (inb orig glossaries).
  { eexists _, _. split; [reflexivity|]. intros Hc _. simpl.
    split; [apply app_nil_r|]. apply cache_ok_set; [assumption|].
    simpl. apply app_nil_r. }
  destruct (@initial_symbols_ok version orig Hv Hne) as [w [-> [Hc [He Hl]]]].
  assert (w <> []) as Hw.
  { intros ->. destruct (version_eq_dec version [0; 1]%Z); [discriminate|].
    destruct orig; [congruence|discriminate]. }
  destruct (@get_pairs_ok w Hw) as [ps Ep]. rewrite Ep.
  destruct ps as [|p ps].
  { exists (VStr orig), c. split; [reflexivity|]. intros Hco _.
    split; [apply concat_chars | assumption]. }
  destruct (@encode_merges_ok w (p :: ps) bpe_codes rev vocab sep orig)
    as [out [-> Hout]]; auto; [discriminate|].
  exists (VSeq out), (Dict.set str_eq_dec c orig out).
  split; [reflexivity|]. intros Hco Hno. specialize (Hout Hno).
  split; [assumption|]. now apply cache_ok_set.
Qed.

(** ** Isolating glossaries *)

Lemma substring_refl (w : str) : substring w w.
Proof. exists [], []. simpl. now rewrite app_nil_r. Qed.

Lemma substring_trans (x y z : str) :
  substring x y -> substring y z -> substring x z.
Proof.
  intros [a [b ->]] [a' [b' ->]]. exists (a' ++ a), (b ++ b').
  now rewrite <- !app_assoc.
Qed.

Lemma substring_no_space (x w : str) : substring x w -> no_space w -> no_space x.
Proof.
  intros [a [b ->]] H. apply Forall_app in H. destruct H as [_ H].
  apply Forall_app in H. tauto.
Qed.

Lemma substring_no_eow (x w : str) :
  substring x w -> Py.contains w EOW = false -> Py.contains x EOW = false.
Proof. intros [a [b ->]]. apply contains_sub. Qed.

Lemma lstrip_no_space (s : str) : no_space s -> Py.lstrip s = s.
Proof.
  destruct s as [|c s]; [reflexivity|]. intros H. inversion H as [|? ? Hc _].
  simpl. now rewrite Hc.
Qed.

Lemma strip_no_space (s : str) : no_space s -> Py.strip s = s.
Proof.
  intros H. unfold Py.strip. rewrite (lstrip_no_space H).
  rewrite lstrip_no_space by now apply Forall_rev.
  apply rev_involutive.
Qed.

Lemma split_fuel_nonempty n sep s : Py.split_fuel n sep s <> [].
Proof.
  destruct n; simpl; [discriminate|].
  destruct (Py.partition sep s) as [[a b]|]; discriminate.
Qed.

Lemma split_fuel_substring n sep : forall s,
  Forall (fun x => substring x s) (Py.split_fuel n sep s).
Proof.
  induction n as [|n IH]; intros s; simpl.
  - constructor; [apply substring_refl | constructor].
  - destruct (Py.partition sep s) as [[a b]|] eqn:E.
    + apply partition_spec in E. subst s. constructor.
      * exists [], (sep ++ b). reflexivity.
      * eapply Forall_impl; [|apply IH]. intros x Hx.
        eapply substring_trans; [exact Hx|].
        exists (a ++ sep), []. now rewrite app_nil_r, <- app_assoc.
    + constructor; [apply substring_refl | constructor].
Qed.

(** The pieces [isolate_glossary] returns for a list of splits. *)
Lemma isolated_pieces (w g : str) : forall splits,
  splits <> [] -> g <> [] -> no_space w -> substring g w ->
  Forall (fun x => substring x w) splits ->
  exists lst, Py.last_item splits = Ok lst /\
    let segments :=
      flat_map (fun split =>
                  map Py.strip
                    (filter (fun segment => negb (eqs segment []))
                       [split; g]))
        (Py.init splits) in
    let out := if negb (eqs lst []) then segments ++ [Py.strip lst]
               else segments in
    concat out = Py.join g splits /\ Forall (fragment w) out.
Proof.
  intros splits Hne Hg Hw Hgw. induction splits as [|x rest IH]; [congruence|].
  intros Hs. inversion Hs as [|? ? Hx Hrest]; subst.
  assert (Py.strip g = g) as Eg
    by (apply strip_no_space; eapply substring_no_space; eauto).
  assert (Py.strip x = x) as Ex
    by (apply strip_no_space; eapply substring_no_space; eauto).
  destruct rest as [|y r].
  - exists x. split; [reflexivity|]. cbn [Py.init removelast flat_map app].
    destruct (eqs x []) eqn:E; cbn [negb].
    + apply eqs_true in E. subst x. split; [reflexivity|constructor].
    + apply eqs_false in E. rewrite Ex. split; [apply app_nil_r|].
      constructor; [now split | constructor].
  - destruct IH as [lst [El [Hc Hf]]]; [discriminate|assumption|].
    exists lst. split.
    { unfold Py.last_item in *. cbn [rev] in *.
      destruct (rev r ++ [y]) as [|z zs] eqn:Er; [discriminate|].
      now rewrite <- app_comm_cons. }
    change (Py.init (x :: y :: r)) with (x :: Py.init (y :: r)).
    cbn [flat_map].
    set (rest_segments := flat_map _ (Py.init (y :: r))) in *.
    assert (forall tl : list str,
      concat tl = Py.join g (y :: r) -> Forall (fragment w) tl ->
      let hd := map Py.strip
                  (filter (fun segment => negb (eqs segment [])) [x; g]) in
      concat (hd ++ tl) = Py.join g (x :: y :: r)
      /\ Forall (fragment w) (hd ++ tl)) as Hstep.
    { intros tl Htl Hftl. cbn [filter].
      assert (eqs g [] = false) as -> by now apply eqs_false.
      cbn [negb]. change (Py.join g (x :: y :: r))
        with (x ++ g ++ Py.join g (y :: r)).
      destruct (eqs x []) eqn:E; cbn [negb map app concat].
      - apply eqs_true in E. subst x. rewrite Eg, Htl. split; [reflexivity|].
        constructor; [now split | assumption].
      - apply eqs_false in E. rewrite Ex, Eg, Htl.
        split; [reflexivity|].
        constructor; [now split|]. constructor; [now split | assumption]. }
    cbv zeta in *. destruct (negb (eqs lst [])).
    + rewrite <- app_assoc.
      apply (Hstep (rest_segments ++ [Py.strip lst])); tauto.
    + apply (Hstep rest_segments); tauto.
Qed.

Lemma isolate_glossary_ok (w word g : str) :
  g <> [] -> no_space w -> fragment w word ->
  exists out, isolate_glossary word g = Ok out
    /\ concat out = word /\ Forall (fragment w) out.
Proof.
  intros Hg Hw [Hne Hsub]. unfold isolate_glossary.
  destruct (eqs word g || negb (Py.contains word g)) eqn:E.
  - exists [word]. split; [reflexivity|]. split; [apply app_nil_r|].
    constructor; [now split | constructor].
  - apply orb_false_iff in E. destruct E as [_ E].
    apply negb_false_iff, contains_spec in E.
    unfold Py.split. destruct g as [|g0 g']; [congruence|].
    set (g := g0 :: g') in *. cbn [bind].
    assert (substring g w) as Hgw
      by (eapply substring_trans; [exact E | exact Hsub]).
    assert (Forall (fun x => substring x w)
              (Py.split_fuel (length word) g word)) as Hall.
    { eapply Forall_impl; [|apply split_fuel_substring].
      intros x Hx. eapply substring_trans; [exact Hx | exact Hsub]. }
    destruct (@isolated_pieces w g (Py.split_fuel (length word) g word)
                (@split_fuel_nonempty _ _ _) Hg Hw Hgw Hall) as [lst [-> H]].
    cbn [bind]. cbv zeta in H. rewrite join_split_fuel in H.
    destruct (negb (eqs lst [])); eexists; (split; [reflexivity | exact H]).
Qed.

Lemma isolate_all_ok (w g : str) :
  g <> [] -> no_space w ->
  forall segments, Forall (fragment w) segments ->
  exists out, isolate_all segments g = Ok out
    /\ concat out = concat segments /\ Forall (fragment w) out.
Proof.
  intros Hg Hw. induction segments as [|s rest IH]; intros Hs; simpl.
  - exists []. auto.
  - inversion Hs as [|? ? H1 H2]; subst.
    destruct (isolate_glossary_ok Hg Hw H1) as [a [-> [Ea Fa]]].
    destruct (IH H2) as [b [-> [Eb Fb]]]. simpl.
    exists (a ++ b). split; [reflexivity|]. split.
    + rewrite concat_app. congruence.
    + apply Forall_app. now split.
Qed.

Lemma isolate_glossaries_ok (w : str) : forall (gs : list str) segments,
  Forall (fun g => g <> []) gs -> no_space w ->
  Forall (fragment w) segments ->
  exists out, isolate_glossaries_from gs segments = Ok out
    /\ concat out = concat segments /\ Forall (fragment w) out.
Proof.
  induction gs as [|g rest IH]; intros segments Hg Hw Hs; simpl.
  - exists segments. auto.
  - inversion Hg as [|? ? Hg1 Hg2]; subst.
    destruct (isolate_all_ok Hg1 Hw Hs) as [a [-> [Ea Fa]]]. simpl.
    destruct (IH a Hg2 Hw Fa) as [out [-> [Eo Fo]]].
    exists out. split; [reflexivity|]. split; [congruence | assumption].
Qed.

(** ** Segmenting one word *)

Lemma deep_enough_substring (s w : str) :
  substring s w -> deep_enough w -> deep_enough s.
Proof.
  intros [a [b ->]]. unfold deep_enough. rewrite !length_app. lia.
Qed.

Lemma encode_segments_ok self (w : str) :
  supported (version self) ->
  (supplied (vocab self) = true ->
   wf_reverse (bpe_codes_reverse self) /\ deep_enough w) ->
  forall segments c, Forall (fragment w) segments ->
  exists l c', encode_segments self segments c = (Ok l, c')
    /\ (cache_ok c -> Py.contains w EOW = false ->
        concat l = concat segments /\ cache_ok c').
Proof.
  intros Hv Hwf. induction segments as [|s rest IH]; intros c Hs; simpl.
  - exists [], c. auto.
  - inversion Hs as [|? ? [Hne Hsub] Hrest]; subst.
    assert (supplied (vocab self) = true ->
            wf_reverse (bpe_codes_reverse self) /\ deep_enough s) as Hwfs.
    { intros Hsup. destruct (Hwf Hsup) as [H1 H2]. split; [assumption|].
      now apply deep_enough_substring with (w := w). }
    destruct (@encode_ok s (bpe_codes self) (bpe_codes_reverse self)
                (vocab self) (separator self) (version self) c
                (glossaries self) Hv Hne Hwfs) as [v [c1 [-> H1]]].
    destruct (IH c1 Hrest) as [l [c2 [-> H2]]].
    exists (pieces v ++ l), c2. split; [reflexivity|].
    intros Hc Hno.
    destruct (H1 Hc (substring_no_eow Hsub Hno)) as [E1 Hc1].
    destruct (H2 Hc1 Hno) as [E2 Hc2].
    split; [|assumption]. rewrite concat_app. cbn [concat]. congruence.
Qed.

Lemma format_word_plain self (word : str) (i : list str) (x : str) :
  case_feature self = false ->
  format_word self word (i ++ [x])
  = Ok (map (fun item => item ++ separator self) i ++ [x]).
Proof.
  intros Hcf. unfold format_word. rewrite Hcf. cbn [negb].
  now rewrite last_item_app, init_app.
Qed.

Lemma word_text_plain self (i : list str) (x : str) :
  case_feature self = false ->
  word_text self (map (fun item => item ++ separator self) i ++ [x])
  = concat (i ++ [x]).
Proof.
  intros Hcf. unfold word_text, token_text.
  rewrite last_item_app, init_app, Hcf, map_map, concat_app.
  cbn [concat]. rewrite app_nil_r. f_equal. f_equal.
  rewrite <- (map_id i) at 2.
  apply map_ext. intros a. apply drop_last_app.
Qed.

(** C1, as the code has it: with the case feature off, on a supported
    version, the output tokens of a non-empty word without whitespace
    that does not contain the marker text [</w>] spell the word once
    the merge separators are taken off, whatever the rules, the
    glossaries (non-empty strings) and the cache (of entries that spell
    their keys); the cache stays such a cache.  When a vocabulary is
    supplied, this is for a well-formed reverse table and a word that
    the recursion depth left to the interpreter has room for. *)
Theorem segment_word_round_trip self (word : str) c :
  case_feature self = false ->
  supported (version self) ->
  word <> [] -> no_space word -> Py.contains word EOW = false ->
  Forall (fun g => g <> []) (glossaries self) ->
  (supplied (vocab self) = true ->
   wf_reverse (bpe_codes_reverse self) /\ deep_enough word) ->
  cache_ok c ->
  exists toks c',
    segment_word self word c = (Ok toks, c')
    /\ word_text self toks = word /\ cache_ok c'.
Proof.
  intros Hcf Hv Hne Hsp Hno Hg Hwf Hc.
  unfold segment_word, new_word_of, normalize, _isolate_glossaries.
  rewrite Hcf.
  assert (Forall (fragment word) [word]) as Hfr.
  { constructor; [|constructor]. split; [assumption | apply substring_refl]. }
  destruct (@isolate_glossaries_ok word (glossaries self) [word] Hg Hsp Hfr)
    as [segments [-> [Es Fs]]].
  destruct (@encode_segments_ok self word Hv Hwf segments c Fs)
    as [nw [c' [-> H]]].
  destruct (H Hc Hno) as [Enw Hc'].
  assert (concat nw = word) as Eword.
  { rewrite Enw, Es. cbn [concat]. apply app_nil_r. }
  assert (nw <> []) as Hnw by (intros ->; now subst word).
  destruct (nonempty_last Hnw) as [i [x ->]].
  rewrite format_word_plain by assumption.
  eexists _, c'. split; [reflexivity|]. split; [|assumption].
  now rewrite word_text_plain.
Qed.

(** ** Loading the rule file *)

Section DictList.
Context {K V : Type}.
Variable eq_dec : forall a b : K, {a = b} + {a <> b}.

Lemma get_in (d : Dict.t) (k : K) (v : V) :
  Dict.get eq_dec d k = Some v -> In (k, v) d.
Proof.
  induction d as [|[k' v'] d IH]; simpl; [discriminate|].
  destruct (eq_dec k k') as [->|_].
  - intros [= ->]. now left.
  - intros H. right. now apply IH.
Qed.

Lemma in_set (d : Dict.t) (k k' : K) (v v' : V) :
  In (k, v) (Dict.set eq_dec d k' v') -> (k, v) = (k', v') \/ In (k, v) d.
Proof.
  induction d as [|[k0 v0] d IH]; simpl.
  - intros [H|[]]. now left.
  - destruct (eq_dec k' k0) as [->|_]; simpl.
    + intros [H|H]; [left; congruence | right; now right].
    + intros [H|H]; [right; now left|].
      destruct (IH H) as [E|E]; [now left | right; now right].
Qed.

Lemma in_fold_set (l : list (K * V)) : forall (d : Dict.t) (k : K) (v : V),
  In (k, v) (fold_left (fun d kv => Dict.set eq_dec d (fst kv) (snd kv)) l d) ->
  In (k, v) l \/ In (k, v) d.
Proof.
  induction l as [|[k0 v0] l IH]; intros d k v; simpl; [now right|].
  intros H. destruct (IH _ _ _ H) as [E|E]; [left; now right|].
  apply in_set in E. destruct E as [E|E]; [left; now left | now right].
Qed.

Lemma in_of_list (l : list (K * V)) (k : K) (v : V) :
  In (k, v) (Dict.of_list eq_dec l) -> In (k, v) l.
Proof.
  intros H. apply in_fold_set in H. now destruct H as [H|[]].
Qed.

End DictList.

Lemma rank_fold_first (c : code) : forall (l : list code) n i,
  nth_error l i = Some c ->
  (forall j, j < i -> nth_error l j <> Some c) ->
  Dict.get code_eq_dec
    (fold_right (fun (ic : nat * code) d =>
                   Dict.set code_eq_dec d (snd ic) (fst ic))
       [] (combine (seq n (length l)) l)) c
  = Some (n + i).
Proof.
  induction l as [|c0 l IH]; intros n i Hi Hfirst.
  - destruct i; discriminate.
  - cbn [length seq combine fold_right fst snd].
    destruct i as [|i].
    + injection Hi as ->. rewrite get_set_eq. f_equal. lia.
    + rewrite get_set_neq.
      * rewrite (IH (S n) i); [f_equal; lia | exact Hi |].
        intros j Hj. apply (Hfirst (S j)). lia.
      * intros ->. apply (Hfirst 0); [lia | reflexivity].
Qed.

Lemma rank_table_fold (codes : list code) :
  rank_table codes
  = fold_right (fun (ic : nat * code) d =>
                  Dict.set code_eq_dec d (snd ic) (fst ic))
      [] (enumerate codes).
Proof.
  unfold rank_table, Dict.of_list.
  rewrite map_rev, <- fold_left_rev_right, rev_involutive.
  induction (enumerate codes) as [|ic l IH]; simpl; congruence.
Qed.

Lemma rank_table_in (codes : list code) (c : code) (i : nat) :
  In (c, i) (rank_table codes) -> In c codes.
Proof.
  unfold rank_table. intros H. apply in_of_list in H.
  apply in_map_iff in H. destruct H as [[j c'] [[= -> ->] H]].
  apply in_rev in H. unfold enumerate in H.
  now apply in_combine_r in H.
Qed.

Lemma map_result_ok {A B} (f : A -> result B) (l : list A) :
  (forall x, In x l -> exists y, f x = Ok y) ->
  exists ys, map_result f l = Ok ys
    /\ forall y, In y ys -> exists x, In x l /\ f x = Ok y.
Proof.
  induction l as [|x l IH]; intros H; simpl.
  - exists []. split; [reflexivity|]. intros y [].
  - destruct (H x (or_introl eq_refl)) as [y Ey]. rewrite Ey. simpl.
    destruct IH as [ys [-> Hys]]; [intros; apply H; now right|]. simpl.
    exists (y :: ys). split; [reflexivity|].
    intros y' [<-|Hy'].
    + exists x. split; [now left | assumption].
    + destruct (Hys _ Hy') as [x' [Hx' E]]. exists x'. split; [now right | assumption].
Qed.

(** The loader builds its reverse table whenever every rule has at
    least two symbols; every entry is then a rule of the file, under
    the concatenation of its first two symbols. *)
Lemma reverse_table_ok (codes : list code) :
  Forall (fun c => 2 <= length c) codes ->
  exists rev, reverse_table (rank_table codes) = Ok rev
    /\ forall k v, Dict.get str_eq_dec rev k = Some v ->
         In v codes /\ exists l r tl, v = l :: r :: tl /\ k = l ++ r.
Proof.
  intros Hall. unfold reverse_table.
  destruct (@map_result_ok (code * nat) (str * code)
              (fun pi => a <- item (fst pi) 0 ;; b <- item (fst pi) 1 ;;
                         Ok (a ++ b, fst pi)) (rank_table codes))
    as [kvs [-> Hkvs]].
  - intros [c i] Hin. apply rank_table_in in Hin.
    rewrite Forall_forall in Hall. specialize (Hall _ Hin).
    destruct c as [|l [|r tl]]; simpl in Hall; try lia.
    simpl. eauto.
  - simpl. eexists. split; [reflexivity|].
    intros k v Hget. apply get_in, in_of_list in Hget.
    destruct (Hkvs _ Hget) as [[c i] [Hin E]].
    apply rank_table_in in Hin. cbn [fst] in E.
    destruct c as [|l [|r tl]]; try discriminate.
    simpl in E. injection E as <- <-. split; [assumption|]. eauto.
Qed.

Lemma loaded_reverse_wf (codes : list code) :
  Forall rule_ok codes ->
  exists rev, reverse_table (rank_table codes) = Ok rev /\ wf_reverse rev.
Proof.
  intros Hall.
  destruct (@reverse_table_ok codes) as [rev [E H]].
  - eapply Forall_impl; [|exact Hall].
    intros c [l [r [-> _]]]. simpl. lia.
  - exists rev. split; [assumption|]. intros k v Hget.
    destruct (H k v Hget) as [Hin [l [r [tl [-> ->]]]]].
    rewrite Forall_forall in Hall.
    destruct (Hall _ Hin) as [l' [r' [[= -> -> ->] [Hl [Hr He]]]]].
    exists l', r'. auto.
Qed.

(** ** The rule table *)

Lemma lower_bpe_loaded :
  BPE_init lower_file (lit "@@") None None false = Ok (lower_bpe [0; 1]%Z)
  /\ BPE_init lower_file_v02 (lit "@@") None None false
     = Ok (lower_bpe [0; 2]%Z).
Proof. split; reflexivity. Qed.

(** C6: the rank of a rule is the position, among the lines of rules,
    of the first line that holds it; the later lines that repeat it do
    not change it. *)
Theorem first_occurrence_rank (codes : list str) sep voc gl cf bpe v lines
  (c : code) (i : nat) :
  read_header codes = Ok (v, lines) ->
  BPE_init codes sep voc gl cf = Ok bpe ->
  nth_error (map Py.words lines) i = Some c ->
  (forall j, j < i -> nth_error (map Py.words lines) j <> Some c) ->
  Dict.get code_eq_dec (bpe_codes bpe) c = Some i.
Proof.
  intros Hh Hb Hi Hfirst. unfold BPE_init in Hb. rewrite Hh in Hb.
  cbn [bind fst snd] in Hb.
  destruct (reverse_table (rank_table (map Py.words lines))) as [rev|];
    [|discriminate].
  injection Hb as <-. cbn [bpe_codes].
  rewrite rank_table_fold. unfold enumerate.
  now rewrite (@rank_fold_first c (map Py.words lines) 0 i Hi Hfirst).
Qed.

Lemma initial_symbols_unsupported version (orig : str) :
  ~ supported version -> initial_symbols version orig = Raise NotImplementedError.
Proof.
  intros H. unfold initial_symbols.
  destruct (version_eq_dec version [0; 1]%Z) as [E|_]; [destruct H; now left|].
  destruct (version_eq_dec version [0; 2]%Z) as [E|_]; [destruct H; now right|].
  reflexivity.
Qed.

(** C7, as the code has it: loading does not look at the version.  A
    file whose header is read as version [v] and whose rules have two
    symbols or more loads, whatever [v] is; when [v] is neither 0.1 nor
    0.2 it is [encode] that raises [NotImplementedError], on every word
    that is neither cached nor a glossary. *)
Theorem unsupported_version_raises_in_encode (codes : list str) sep voc gl cf
  v lines :
  read_header codes = Ok (v, lines) ->
  Forall (fun l => 2 <= length (Py.words l)) lines ->
  exists bpe,
    BPE_init codes sep voc gl cf = Ok bpe
    /\ version bpe = v
    /\ (~ supported v ->
        forall (orig : str) c,
          Dict.get str_eq_dec c orig = None ->
          inb orig (glossaries bpe) = false ->
          encode orig (bpe_codes bpe) (bpe_codes_reverse bpe) (vocab bpe)
            (separator bpe) (version bpe) c (glossaries bpe)
          = (Raise NotImplementedError, c)).
Proof.
  intros Hh Hall. unfold BPE_init. rewrite Hh. cbn [bind fst snd].
  destruct (@reverse_table_ok (map Py.words lines)) as [rev [-> _]].
  { apply Forall_map. exact Hall. }
  cbn [bind]. eexists. split; [reflexivity|]. split; [reflexivity|].
  intros Hv orig c Hc Hg. unfold encode. cbn [version glossaries] in *.
  rewrite Hc, Hg. now rewrite initial_symbols_unsupported.
Qed.

(** ** Round trip, cache and vocabulary *)

Lemma lower_reverse_wf :
  wf_reverse [(lit "low", [lit "lo"; lit "w"]); (lit "lo", [lit "l"; lit "o"])].
Proof.
  destruct (@loaded_reverse_wf (map Py.words lower_file)) as [rev [E H]].
  - repeat constructor.
    + exists (lit "l"), (lit "o"). repeat split; discriminate.
    + exists (lit "lo"), (lit "w"). repeat split; discriminate.
  - vm_compute in E. injection E as <-. exact H.
Qed.


(** C10, as the code has it: under version 0.2 a one-letter word that
    is neither cached nor a glossary is returned as it is, whatever the
    vocabulary and the tables, and the cache is left as it is. *)
Theorem one_letter_word_v02 (ch : char) bpe_codes rev voc sep c gl :
  Dict.get str_eq_dec c [ch] = None ->
  inb [ch] gl = false ->
  encode [ch] bpe_codes rev voc sep [0; 2]%Z c gl = (Ok (VStr [ch]), c).
Proof.
  intros Hc Hg. unfold encode. rewrite Hc, Hg. reflexivity.
Qed.

(** C5, as the code has it: of the tokens [check_vocab_and_split]
    returns, over a reverse table whose entries are pairs, each one
    before the last is in the vocabulary with the separator or has no
    entry in the reverse table, and the last one is in the vocabulary
    or the reverse table has no entry under the token followed by the
    end-of-word marker, which is the key the word-final lookup uses.
    The function does return on a non-empty word when the table is
    well-formed and the interpreter has the recursion depth for each
    token.  With a vocabulary, the tuple that [encode] returns for a
    word that is neither cached nor a glossary is such a list of
    tokens. *)
Theorem vocabulary_constraint (word : list str) rev voc sep :
  pairs_only rev ->
  (forall out,
      check_vocab_and_split word rev voc sep = Ok out ->
      exists front lst,
        out = front ++ [lst]
        /\ Forall (nonfinal_ok rev voc sep) front
        /\ final_ok rev voc lst)
  /\ (wf_reverse rev -> word <> [] -> tokens_fit word ->
      exists out, check_vocab_and_split word rev voc sep = Ok out)
  /\ (forall (orig : str) codes ver c gl toks c',
        voc <> [] ->
        Dict.get str_eq_dec c orig = None -> inb orig gl = false ->
        encode orig codes rev (Some voc) sep ver c gl = (Ok (VSeq toks), c') ->
        exists front lst,
          toks = front ++ [lst]
          /\ Forall (nonfinal_ok rev voc sep) front
          /\ final_ok rev voc lst).
Proof.
  intros Hp. split; [|split].
  - intros out H.
    exact (@check_vocab_and_split_tokens rev voc sep word out Hp H).
  - intros Hwf Hne Hfit.
    destruct (@check_vocab_and_split_concat rev voc sep word Hwf Hne Hfit)
      as [out [E _]].
    eauto.
  - intros orig codes ver c gl toks c' Hvoc Hc Hg. unfold encode.
    rewrite Hc, Hg.
    destruct (initial_symbols ver orig) as [w|]; [|discriminate].
    destruct (get_pairs w) as [[|p ps]|]; try discriminate.
    unfold encode_merges.
    destruct (merge_loop (length w) codes w (p :: ps)) as [w1|];
      [|discriminate].
    cbn [bind]. destruct (strip_eow w1) as [w2|]; [|discriminate].
    cbn [bind]. destruct voc as [|x voc']; [congruence|].
    cbn [supplied vocab_set].
    destruct (check_vocab_and_split w2 rev (x :: voc') sep) as [out|] eqn:E;
      [|discriminate].
    intros [= <- _].
    exact (@check_vocab_and_split_tokens rev (x :: voc') sep w2 out Hp E).
Qed.

(** ** The merge scenario *)

Lemma key_le_trans (a b c : option nat) :
  key_lt b a = false -> key_lt c b = false -> key_lt c a = false.
Proof.
  destruct a, b, c; simpl; try congruence.
  rewrite !Nat.ltb_ge. lia.
Qed.

Lemma key_lt_le (a b : option nat) : key_lt a b = true -> key_lt b a = false.
Proof.
  destruct a, b; simpl; try congruence.
  rewrite Nat.ltb_lt, Nat.ltb_ge. lia.
Qed.

Lemma key_le_refl (a : option nat) : key_lt a a = false.
Proof. destruct a; simpl; [apply Nat.ltb_irrefl | reflexivity]. Qed.

Lemma min_from_minimal {A} (key : A -> option nat) (l : list A) : forall best,
  key_lt (key best) (key (min_from key best l)) = false
  /\ forall x, In x l -> key_lt (key x) (key (min_from key best l)) = false.
Proof.
  induction l as [|y l IH]; intros best; simpl.
  - split; [apply key_le_refl | intros x []].
  - destruct (IH (if key_lt (key y) (key best) then y else best)) as [H1 H2].
    destruct (key_lt (key y) (key best)) eqn:E.
    + split.
      * eapply key_le_trans; [exact H1 | now apply key_lt_le].
      * intros x [<-|Hx]; [assumption | now apply H2].
    + split; [assumption|].
      intros x [<-|Hx]; [|now apply H2].
      eapply key_le_trans; [exact H1 | exact E].
Qed.

(** [min] returns a pair of the set, and no pair of the set has a
    smaller rank. *)
Lemma py_min_minimal {A} (key : A -> option nat) (l : list A) (b : A) :
  py_min key l = Ok b ->
  In b l /\ forall x, In x l -> key_lt (key x) (key b) = false.
Proof.
  intros H. split; [now apply (py_min_in key)|].
  destruct l as [|y l]; [discriminate|]. injection H as <-.
  destruct (min_from_minimal key l y) as [H1 H2].
  intros x [<-|Hx]; auto.
Qed.

(** When the pair [min] returns has no rank, no pair of the set has. *)
Lemma py_min_unranked bpe_codes (pairs : list (str * str)) (b : str * str) :
  py_min (rank_of bpe_codes) pairs = Ok b ->
  Dict.mem code_eq_dec bpe_codes (tup b) = false ->
  forall p, In p pairs -> Dict.mem code_eq_dec bpe_codes (tup p) = false.
Proof.
  intros H Hb p Hp. apply py_min_minimal in H. destruct H as [_ H].
  specialize (H p Hp). unfold Dict.mem, rank_of in *.
  destruct (Dict.get code_eq_dec bpe_codes (tup b)); [discriminate|].
  now destruct (Dict.get code_eq_dec bpe_codes (tup p)).
Qed.

(** C2, as the code has it: with the rules (l, o) of rank 0 and (lo, w)
    of rank 1, separator [@@], no vocabulary, no glossary and no case
    feature, the word [lower] gives the tokens [low@@], [e@@], [r],
    under version 0.1 and under version 0.2: no rule joins [e] and [r].
    In each iteration of the merge loop the pair chosen is a pair of
    the word that no other pair of the word outranks, and the loop
    stops on a pair without rank only when no pair of the word has a
    rank. *)
Theorem lower_scenario :
  fst (segment_word (lower_bpe [0; 1]%Z) (lit "lower") [])
  = Ok [lit "low@@"; lit "e@@"; lit "r"]
  /\ fst (segment_word (lower_bpe [0; 2]%Z) (lit "lower") [])
     = Ok [lit "low@@"; lit "e@@"; lit "r"]
  /\ fst (segment (lower_bpe [0; 1]%Z) (lit "lower")) = Ok (lit "low@@ e@@ r")
  /\ (forall codes (pairs : list (str * str)) b,
        py_min (rank_of codes) pairs = Ok b ->
        In b pairs
        /\ (forall p, In p pairs ->
              key_lt (rank_of codes p) (rank_of codes b) = false)
        /\ (Dict.mem code_eq_dec codes (tup b) = false ->
            forall p, In p pairs ->
              Dict.mem code_eq_dec codes (tup p) = false)).
Proof.
  split; [reflexivity|]. split; [reflexivity|]. split; [reflexivity|].
  intros codes pairs b H. split; [|split].
  - now apply (py_min_in (rank_of codes)).
  - now apply py_min_minimal.
  - now apply py_min_unranked.
Qed.

(** ** Glossary isolation: the fragments *)

(** C8, as the code has it: on a non-empty word without whitespace and
    a non-empty glossary, [isolate_glossary] returns fragments none of
    which is empty. *)
Theorem isolate_glossary_fragments (word glossary : str) :
  word <> [] -> no_space word -> glossary <> [] ->
  exists out,
    isolate_glossary word glossary = Ok out
    /\ Forall (fun x => x <> []) out.
Proof.
  intros Hne Hsp Hg.
  destruct (@isolate_glossary_ok word word glossary Hg Hsp
              (conj Hne (substring_refl word))) as [out [E [_ H]]].
  exists out. split; [assumption|].
  eapply Forall_impl; [|exact H]. now intros x [Hx _].
Qed.

Lemma isolate_glossary_scenario :
  isolate_glossary (lit "1934USABUSA") (lit "USA")
  = Ok [lit "1934"; lit "USA"; lit "B"; lit "USA"].
Proof. reflexivity. Qed.

(** ** The serving endpoint *)

(** A request for a model that is not configured is answered by the
    error value, and nothing is raised. *)
Lemma find_model_none (models : list model_t) (wanted : str) : forall model m,
  Forall (fun x => name x <> wanted) models ->
  fst (find_model models wanted model m) = model.
Proof.
  induction models as [|x rest IH]; intros model m H; [reflexivity|].
  inversion H as [|? ? Hx Hrest]; subst. cbn [find_model].
  apply eqs_false in Hx. rewrite Hx. now apply IH.
Qed.

Lemma preprocess_unknown_model (models : list model_t) (body : request) :
  Forall (fun x => name x <> req_model body) models ->
  preprocess models body = (Ok (Err (lit "no such model")), models).
Proof.
  intros H. unfold preprocess.
  pose proof (@find_model_none models (req_model body) None None H) as E.
  destruct (find_model models (req_model body) None None) as [model m].
  simpl in E. now subst model.
Qed.

(** C9 fails on the code: the request names model [a], which is
    configured first; the response is the text segmented by the engine
    of [b], the last model of the list, not by the engine of [a]. *)
Theorem preprocess_answers_with_last_model :
  fst (preprocess two_models (mkRequest (lit "a") (lit "lo")))
  = Ok (Res (lit "l@@ o"))
  /\ fst (segment (lower_bpe [0; 1]%Z) (lit "lo")) = Ok (lit "lo")
  /\ fst (segment plain_bpe (lit "lo")) = Ok (lit "l@@ o").
Proof. repeat split; reflexivity. Qed.

(** ** Characters and case *)

Ltac chars :=
  intros;
  unfold Py.lower_char, Py.upper_char, Py.isupper, Py.is_ascii_letter in *;
  unfold Py.is_ascii_upper, Py.is_ascii_lower, Py.isspace in *;
  repeat match goal with
         | H : context [N.leb ?a ?b] |- _ => destruct (N.leb_spec a b)
         | H : context [N.eqb ?a ?b] |- _ => destruct (N.eqb_spec a b)
         end;
  simpl in *; try discriminate;
  repeat match goal with
         | |- context [N.leb ?a ?b] =>
             first [ replace (N.leb a b) with true
                       by (symmetry; apply N.leb_le; lia)
                   | replace (N.leb a b) with false
                       by (symmetry; apply N.leb_gt; lia)
                   | destruct (N.leb_spec a b) ]
         | |- context [N.eqb ?a ?b] =>
             first [ replace (N.eqb a b) with false
                       by (symmetry; apply N.eqb_neq; lia)
                   | destruct (N.eqb_spec a b) ]
         end;
  simpl in *; try congruence; try lia.

Lemma letter_cases c :
  Py.is_ascii_letter c = true ->
  (Py.is_ascii_upper c = true /\ Py.is_ascii_lower c = false)
  \/ (Py.is_ascii_upper c = false /\ Py.is_ascii_lower c = true).
Proof. chars; auto. Qed.

Lemma upper_lower_char c :
  Py.is_ascii_upper c = true -> Py.upper_char (Py.lower_char c) = c.
Proof. chars. Qed.

Lemma lower_char_lower c : Py.is_ascii_lower c = true -> Py.lower_char c = c.
Proof. chars. Qed.

Lemma upper_char_upper c : Py.is_ascii_upper c = true -> Py.upper_char c = c.
Proof. chars. Qed.

Lemma lower_char_is_lower c :
  Py.is_ascii_letter c = true -> Py.is_ascii_lower (Py.lower_char c) = true.
Proof. chars. Qed.

Lemma letter_not_space c : Py.is_ascii_letter c = true -> Py.isspace c = false.
Proof. chars. Qed.

Lemma lower_not_sep c : Py.is_ascii_lower c = true -> c <> 65517%N.
Proof. chars. Qed.

Lemma upper_char_sep : Py.upper_char 65517 = 65517%N.
Proof. reflexivity. Qed.

Lemma lower_all_lower (s : str) :
  forallb Py.is_ascii_lower s = true -> Py.lower s = s.
Proof.
  induction s as [|c s IH]; simpl; [reflexivity|].
  intros H. apply andb_true_iff in H. destruct H as [Hc Hs].
  now rewrite lower_char_lower, IH.
Qed.

Lemma upper_lower_all_upper (s : str) :
  forallb Py.is_ascii_upper s = true -> Py.upper (Py.lower s) = s.
Proof.
  induction s as [|c s IH]; simpl; [reflexivity|].
  intros H. apply andb_true_iff in H. destruct H as [Hc Hs].
  now rewrite upper_lower_char, IH.
Qed.

Lemma lower_letters (s : str) :
  letters s -> forallb Py.is_ascii_lower (Py.lower s) = true.
Proof.
  induction 1 as [|c s Hc _ IH]; simpl; [reflexivity|].
  now rewrite lower_char_is_lower, IH.
Qed.

Lemma all_lower_not_upper (s : str) :
  forallb Py.is_ascii_lower s = true -> s <> [] ->
  forallb Py.is_ascii_upper s = false.
Proof.
  destruct s as [|c s]; [congruence|]. simpl. intros H _.
  apply andb_true_iff in H. destruct H as [Hc _].
  assert (Py.is_ascii_upper c = false) as -> by chars. reflexivity.
Qed.

Lemma lower_is_not_upper c :
  Py.is_ascii_lower c = true -> Py.is_ascii_upper c = false.
Proof. chars. Qed.

(** A string none of whose characters is the first character of [p]
    does not contain [p]. *)
Lemma contains_head_absent (p0 : char) (p s : str) :
  Forall (fun c => c <> p0) s -> Py.contains s (p0 :: p) = false.
Proof.
  induction 1 as [|c s Hc _ IH]; [reflexivity|].
  cbn [Py.contains Py.startswith]. rewrite IH.
  destruct (N.eqb_spec p0 c); [congruence | reflexivity].
Qed.

Lemma all_lower_forall (P : char -> Prop) (s : str) :
  (forall c, Py.is_ascii_lower c = true -> P c) ->
  forallb Py.is_ascii_lower s = true -> Forall P s.
Proof.
  intros HP. induction s as [|c s IH]; simpl; [constructor|].
  intros H. apply andb_true_iff in H. destruct H as [Hc Hs].
  constructor; auto.
Qed.

Lemma letters_forall (P : char -> Prop) (s : str) :
  (forall c, Py.is_ascii_letter c = true -> P c) -> letters s -> Forall P s.
Proof. intros HP H. eapply Forall_impl; [|exact H]. exact HP. Qed.

(** ** Tags and their decoding *)

Ltac tags :=
  repeat match goal with
         | |- context [eqs (lit ?a) (lit ?b)] =>
             let v := eval vm_compute in (eqs (lit a) (lit b)) in
             change (eqs (lit a) (lit b)) with v
         end;
  cbv iota.

Lemma get_case_feature_one c :
  get_case_feature [c] = Ok (if Py.isupper c then lit "S" else lit "N").
Proof. unfold get_case_feature. simpl. now destruct (Py.isupper c). Qed.

Lemma get_case_feature_shape c (mid : str) d :
  get_case_feature (c :: mid ++ [d])
  = Ok (case_tag (Py.isupper c) (Py.isupper d) (forallb Py.isupper mid)).
Proof.
  unfold get_case_feature. cbn [Py.first_item bind].
  change (c :: mid ++ [d]) with ((c :: mid) ++ [d]).
  rewrite last_item_app. cbn [bind].
  rewrite length_app. cbn [length].
  destruct mid as [|m mid].
  - simpl. unfold case_tag.
    destruct (Py.isupper c), (Py.isupper d); reflexivity.
  - cbn [length].
    destruct (Nat.eqb_spec (S (S (length mid)) + 1) 1) as [E|_]; [lia|].
    destruct (Nat.eqb_spec (S (S (length mid)) + 1) 2) as [E|_]; [lia|].
    assert (Py.slice 1 (S (S (length mid)) + 1 - 1) ((c :: m :: mid) ++ [d])
            = m :: mid) as ->.
    { unfold Py.slice. cbn [app skipn].
      replace (S (S (length mid)) + 1 - 1 - 1) with (length (m :: mid))
        by (simpl; lia).
      change (m :: mid ++ [d]) with ((m :: mid) ++ [d]).
      rewrite firstn_app, Nat.sub_diag, firstn_all. simpl. now rewrite app_nil_r. }
    unfold case_tag.
    destruct (Py.isupper c), (Py.isupper d), (forallb Py.isupper (m :: mid));
      reflexivity.
Qed.

Lemma apply_case_N (norm : str) : apply_case norm (lit "N") = Ok norm.
Proof. reflexivity. Qed.

Lemma apply_case_A (norm : str) : apply_case norm (lit "A") = Ok (Py.upper norm).
Proof. reflexivity. Qed.

Lemma apply_case_S c (rest : str) :
  apply_case (c :: rest) (lit "S") = Ok (Py.upper_char c :: rest).
Proof. reflexivity. Qed.

Lemma endswith_sep (body : str) z :
  Py.endswith (body ++ [z]) [65517%N] = N.eqb 65517 z.
Proof.
  unfold Py.endswith. rewrite rev_app_distr.
  cbn [rev app Py.startswith]. apply andb_true_r.
Qed.

Lemma apply_case_E (body : str) z (sfx : str) :
  Forall (fun c => c <> 65517%N) (body ++ [z]) ->
  sfx = [] \/ sfx = OPENNMT_SEP ->
  apply_case (body ++ [z] ++ sfx) (lit "E")
  = Ok (body ++ [Py.upper_char z] ++ sfx).
Proof.
  intros Hno Hsfx. unfold apply_case. tags. unfold OPENNMT_SEP in *.
  assert (Py.startswith (body ++ [z]) [65517%N] = false) as Hstart.
  { destruct body as [|b body]; inversion Hno as [|? ? Hb _]; subst;
      cbn [app Py.startswith]; rewrite andb_true_r; apply N.eqb_neq;
      congruence. }
  assert (z <> 65517%N) as Hz.
  { apply Forall_app in Hno. destruct Hno as [_ Hno]. now inversion Hno. }
  destruct Hsfx as [->| ->].
  - rewrite app_nil_r, endswith_sep.
    replace (65517 =? z)%N with false by (symmetry; apply N.eqb_neq; congruence).
    cbv iota. rewrite Hstart. cbv iota.
    rewrite last_item_app, init_app. cbn [bind Py.upper map].
    now rewrite app_nil_r.
  - rewrite (app_assoc body [z] [65517%N]).
    rewrite (endswith_sep (body ++ [z]) 65517), N.eqb_refl. cbv iota.
    rewrite init_app, Hstart. cbv iota.
    rewrite last_item_app, init_app. cbn [bind Py.upper map app].
    now rewrite <- app_assoc.
Qed.

Lemma forallb_rev_eq {A} (f : A -> bool) (l : list A) :
  forallb f (rev l) = forallb f l.
Proof.
  induction l as [|x l IH]; [reflexivity|].
  cbn [rev forallb]. rewrite forallb_app, IH. cbn [forallb].
  rewrite andb_true_r. apply andb_comm.
Qed.

Lemma restorable_shape c (mid : str) d :
  restorable (c :: mid ++ [d])
  = (Py.is_ascii_lower c && forallb Py.is_ascii_lower mid && Py.is_ascii_lower d)
    || (Py.is_ascii_upper c && forallb Py.is_ascii_upper mid && Py.is_ascii_upper d)
    || (Py.is_ascii_upper c && (forallb Py.is_ascii_lower mid && Py.is_ascii_lower d))
    || (Py.is_ascii_upper d && (forallb Py.is_ascii_lower mid && Py.is_ascii_lower c)).
Proof.
  unfold restorable.
  change (rev (c :: mid ++ [d])) with (rev (mid ++ [d]) ++ [c]).
  rewrite rev_app_distr. cbn [rev app forallb].
  rewrite !forallb_app, forallb_rev_eq. cbn [forallb].
  rewrite !andb_true_r, !andb_assoc. reflexivity.
Qed.

(** A restorable stretch of letters is tagged, and its tag restores it
    from its lower-case form, with or without the separator behind. *)
Lemma restore_surface (surf sfx : str) :
  letters surf -> restorable surf = true ->
  sfx = [] \/ sfx = OPENNMT_SEP ->
  exists feat,
    get_case_feature surf = Ok feat
    /\ letters feat /\ feat <> []
    /\ apply_case (Py.lower surf ++ sfx) feat = Ok (surf ++ sfx).
Proof.
  intros Hl Hr Hsfx.
  destruct surf as [|c rest]; [discriminate|].
  inversion Hl as [|? ? Hc Hrest]; subst.
  destruct (list_eq_dec N.eq_dec rest []) as [->|Hne].
  - rewrite get_case_feature_one.
    change (Py.isupper c) with (Py.is_ascii_upper c).
    destruct (letter_cases _ Hc) as [[Hu Hlo]|[Hu Hlo]]; rewrite Hu.
    + exists (lit "S"). repeat split; [repeat constructor | discriminate |].
      cbn [Py.lower map app]. rewrite apply_case_S.
      now rewrite upper_lower_char.
    + exists (lit "N"). repeat split; [repeat constructor | discriminate |].
      cbn [Py.lower map app]. rewrite apply_case_N.
      now rewrite lower_char_lower.
  - destruct (nonempty_last Hne) as [mid [d ->]].
    rewrite restorable_shape in Hr. rewrite get_case_feature_shape.
    apply Forall_app in Hrest. destruct Hrest as [Hmid Hd].
    inversion Hd as [|? ? Hd' _]; subst.
    change (forallb Py.isupper mid) with (forallb Py.is_ascii_upper mid).
    change (Py.isupper c) with (Py.is_ascii_upper c).
    change (Py.isupper d) with (Py.is_ascii_upper d).
    destruct (letter_cases _ Hc) as [[Huc Hlc]|[Huc Hlc]];
      destruct (letter_cases _ Hd') as [[Hud Hld]|[Hud Hld]];
      rewrite Huc, Hud, Hlc, Hld in Hr; rewrite Huc, Hud;
      cbn [andb orb] in Hr; rewrite ?andb_false_r, ?andb_true_r in Hr;
      cbn [andb orb] in Hr; rewrite ?orb_false_r in Hr.
    + (* both capitals: all upper case *)
      rewrite Hr. exists (lit "A").
      repeat split; [repeat constructor | discriminate |].
      rewrite apply_case_A. unfold Py.upper. rewrite map_app.
      fold (Py.upper (Py.lower (c :: mid ++ [d]))).
      rewrite upper_lower_all_upper.
      * destruct Hsfx as [->| ->]; reflexivity.
      * cbn [forallb]. rewrite forallb_app. cbn [forallb].
        now rewrite Huc, Hr, Hud.
    + (* first capital only *)
      exists (lit "S"). repeat split; [repeat constructor | discriminate |].
      cbn [Py.lower map app]. rewrite apply_case_S.
      rewrite upper_lower_char by assumption.
      fold (Py.lower (mid ++ [d])). rewrite lower_all_lower; [reflexivity|].
      rewrite forallb_app. cbn [forallb]. now rewrite Hr, Hld.
    + (* last capital only *)
      exists (lit "E"). repeat split; [repeat constructor | discriminate |].
      assert (Py.lower (c :: mid ++ [d]) = (c :: mid) ++ [Py.lower_char d])
        as ->.
      { cbn [Py.lower map]. rewrite map_app. cbn [map app].
        fold (Py.lower mid). rewrite lower_all_lower by assumption.
        now rewrite lower_char_lower. }
      rewrite <- app_assoc, apply_case_E; [|  | assumption].
      * rewrite upper_lower_char by assumption. cbn [app].
        now rewrite <- app_assoc.
      * apply Forall_app. split.
        -- constructor; [now apply lower_not_sep|].
           eapply all_lower_forall; [|exact Hr]. apply lower_not_sep.
        -- constructor; [|constructor]. apply lower_not_sep.
           now apply lower_char_is_lower.
    + (* no capital *)
      exists (lit "N"). repeat split; [repeat constructor | discriminate |].
      rewrite apply_case_N, lower_all_lower; [reflexivity|].
      cbn [forallb]. rewrite forallb_app. cbn [forallb].
      now rewrite Hlc, Hr, Hld.
Qed.

(** ** Splitting and joining lines *)

Lemma partition_length sep (s a b : str) :
  Py.partition sep s = Some (a, b) -> length s = length a + length sep + length b.
Proof.
  intros H. apply partition_spec in H. subst s. rewrite !length_app. lia.
Qed.

(** The fuel of [split_fuel] does not matter once it covers the length
    of the string. *)
Lemma split_fuel_enough (sep : str) : sep <> [] ->
  forall n m (s : str), length s <= n -> length s <= m ->
  Py.split_fuel n sep s = Py.split_fuel m sep s.
Proof.
  intros Hsep. induction n as [|n IH]; intros m s Hn Hm.
  - destruct s; [|simpl in Hn; lia]. destruct m; [reflexivity|]. simpl.
    destruct sep; [congruence | reflexivity].
  - simpl. destruct (Py.partition sep s) as [[a b]|] eqn:E.
    + pose proof (partition_length _ _ E) as Hl.
      assert (0 < length sep) by (destruct sep; [congruence | simpl; lia]).
      destruct m as [|m]; [lia|]. simpl. rewrite E. f_equal.
      apply IH; lia.
    + destruct m; simpl; [reflexivity | now rewrite E].
Qed.

Lemma replace_absent (p0 : char) (p new s : str) :
  Forall (fun c => c <> p0) s -> Py.replace (p0 :: p) new s = s.
Proof.
  intros H. unfold Py.replace.
  assert (Py.partition (p0 :: p) s = None) as E
    by now apply partition_none, contains_head_absent.
  destruct (length s); simpl; [reflexivity | now rewrite E].
Qed.

Lemma partition_cut (p0 : char) (p a b : str) :
  Forall (fun c => c <> p0) a ->
  Py.partition (p0 :: p) (a ++ (p0 :: p) ++ b) = Some (a, b).
Proof.
  induction 1 as [|c a Hc _ IH].
  - cbn [app]. unfold Py.partition.
    destruct b; cbn [Py.startswith]; rewrite N.eqb_refl, startswith_app;
      cbn [andb]; change (length (p0 :: p)) with (S (length p));
      cbn [skipn]; now rewrite skipn_app, skipn_all, Nat.sub_diag.
  - change ((c :: a) ++ (p0 :: p) ++ b) with (c :: (a ++ (p0 :: p) ++ b)).
    set (r := a ++ (p0 :: p) ++ b) in *.
    cbn [Py.partition Py.startswith].
    replace (p0 =? c)%N with false by (symmetry; apply N.eqb_neq; congruence).
    cbn [andb]. now rewrite IH.
Qed.

Lemma replace_cut (p0 : char) (p a b : str) :
  Forall (fun c => c <> p0) a ->
  Py.replace (p0 :: p) [] (a ++ (p0 :: p) ++ b)
  = a ++ Py.replace (p0 :: p) [] b.
Proof.
  intros H. unfold Py.replace. rewrite !length_app. cbn [length].
  replace (length a + (S (length p) + length b))
    with (S (length a + length p + length b)) by lia.
  cbn [Py.split_fuel]. rewrite partition_cut by assumption.
  rewrite (@split_fuel_enough (p0 :: p) ltac:(discriminate)
             (length a + length p + length b) (length b) b) by lia.
  pose proof (@split_fuel_nonempty (length b) (p0 :: p) b) as Hne.
  destruct (Py.split_fuel (length b) (p0 :: p) b) as [|y l]; [congruence|].
  reflexivity.
Qed.

Lemma words_go_run (x s cur : str) :
  no_space x -> Py.words_go (x ++ s) cur = Py.words_go s (rev x ++ cur).
Proof.
  intros H. revert cur. induction H as [|c x Hc _ IH]; intros cur;
    [reflexivity|].
  cbn [app Py.words_go]. rewrite Hc, IH. cbn [rev].
  now rewrite <- app_assoc.
Qed.

(** Splitting on whitespace undoes joining with single spaces. *)
Lemma words_join (toks : list str) :
  Forall (fun t => t <> [] /\ no_space t) toks ->
  Py.words (Py.join (lit " ") toks) = toks.
Proof.
  unfold Py.words. induction 1 as [|t toks [Hne Hsp] Hrest IH]; [reflexivity|].
  destruct toks as [|u toks].
  - cbn [Py.join]. rewrite <- (app_nil_r t), words_go_run by assumption.
    cbn [Py.words_go]. rewrite app_nil_r.
    destruct (rev t) eqn:E.
    + apply (f_equal (@rev N)) in E. rewrite rev_involutive in E. now subst t.
    + now rewrite <- E, rev_involutive, app_nil_r.
  - change (Py.join (lit " ") (t :: u :: toks))
      with (t ++ lit " " ++ Py.join (lit " ") (u :: toks)).
    rewrite words_go_run by assumption. rewrite app_nil_r.
    change (lit " " ++ Py.join (lit " ") (u :: toks))
      with (32%N :: Py.join (lit " ") (u :: toks)).
    cbn [Py.words_go].
    change (Py.isspace 32) with true. cbv iota.
    destruct (rev t) eqn:E.
    + apply (f_equal (@rev N)) in E. rewrite rev_involutive in E. now subst t.
    + rewrite <- E, rev_involutive. f_equal. exact IH.
Qed.

(** The words of a sentence are non-empty and free of whitespace. *)
Lemma words_go_fragments (s : str) : forall cur,
  no_space cur ->
  Forall (fun w => w <> [] /\ no_space w) (Py.words_go s cur).
Proof.
  induction s as [|c s IH]; intros cur Hcur; cbn [Py.words_go].
  - destruct cur as [|d cur]; constructor; [|constructor].
    split; [|now apply Forall_rev].
    intros E. apply (f_equal (@rev N)) in E. rewrite rev_involutive in E.
    discriminate.
  - destruct (Py.isspace c) eqn:Ec.
    + destruct cur as [|d cur]; [apply IH; constructor|].
      constructor; [|apply IH; constructor].
      split; [|now apply Forall_rev].
      intros E. apply (f_equal (@rev N)) in E. rewrite rev_involutive in E.
      discriminate.
    + apply IH. now constructor.
Qed.

Lemma words_fragments (s : str) :
  Forall (fun w => w <> [] /\ no_space w) (Py.words s).
Proof. apply words_go_fragments. constructor. Qed.

(** ** The case round trip *)

Lemma slices_lower : forall (items : list str) (word rest : str),
  Py.lower word = concat items ++ rest ->
  map Py.lower (slices word items) = items
  /\ Py.lower (skipn (length (concat items)) word) = rest
  /\ concat (slices word items) ++ skipn (length (concat items)) word = word.
Proof.
  induction items as [|x items IH]; intros word rest H.
  - simpl. auto.
  - cbn [concat] in H. rewrite <- app_assoc in H.
    assert (Py.lower (firstn (length x) word) = x) as Hx.
    { unfold Py.lower in *. rewrite <- firstn_map, H.
      now rewrite firstn_app, Nat.sub_diag, firstn_all, app_nil_r. }
    assert (Py.lower (skipn (length x) word) = concat items ++ rest) as Hr.
    { unfold Py.lower in *. rewrite <- skipn_map, H.
      now rewrite skipn_app, Nat.sub_diag, skipn_all. }
    destruct (IH _ _ Hr) as [H1 [H2 H3]].
    cbn [slices map concat]. rewrite length_app, Nat.add_comm, <- skipn_skipn.
    rewrite Hx, H1. repeat split; [assumption|].
    rewrite <- app_assoc, H3. apply firstn_skipn.
Qed.

Lemma partition_feat (a b : str) :
  Forall (fun c => c <> 65512%N) a ->
  Py.partition FEAT (a ++ FEAT ++ b) = Some (a, b).
Proof. intros H. unfold FEAT. now apply partition_cut. Qed.

Lemma lower_word_chars (P : char -> Prop) (surf : str) :
  (forall c, Py.is_ascii_lower c = true -> P c) ->
  letters surf -> Forall P (Py.lower surf).
Proof.
  intros HP H. eapply all_lower_forall; [exact HP|]. now apply lower_letters.
Qed.

(** A token of the case feature is decoded to its stretch of the
    surface word, with the separator if it has one. *)
Lemma token_decodes (surf sfx : str) :
  letters surf -> restorable surf = true ->
  sfx = [] \/ sfx = OPENNMT_SEP ->
  exists feat,
    get_case_feature surf = Ok feat
    /\ detokenize_word (Py.lower surf ++ sfx ++ FEAT ++ feat) = Ok (surf ++ sfx)
    /\ Py.lower surf ++ sfx ++ FEAT ++ feat <> []
    /\ no_space (Py.lower surf ++ sfx ++ FEAT ++ feat).
Proof.
  intros Hl Hr Hsfx.
  destruct (restore_surface Hl Hr Hsfx) as [feat [Hf [Hfl [Hfn Ha]]]].
  exists feat. split; [assumption|]. split; [|split].
  - unfold detokenize_word. rewrite app_assoc, partition_feat; [assumption|].
    apply Forall_app. split.
    + apply lower_word_chars; [|assumption]. chars.
    + destruct Hsfx as [->| ->]; repeat constructor. discriminate.
  - destruct surf; [discriminate | discriminate].
  - unfold no_space. repeat (apply Forall_app; split).
    + apply lower_word_chars; [|assumption]. chars.
    + destruct Hsfx as [->| ->]; repeat constructor.
    + repeat constructor.
    + eapply letters_forall; [|exact Hfl]. apply letter_not_space.
Qed.

Lemma feature_items_decode (word : str) : forall (items : list str) pos,
  map Py.lower (slices (skipn pos word) items) = items ->
  Forall (fun surf => letters surf /\ restorable surf = true)
    (slices (skipn pos word) items) ->
  exists toks,
    feature_items OPENNMT_SEP word items pos
    = Ok (toks, pos + length (concat items))
    /\ map_result detokenize_word toks
       = Ok (map (fun surf => surf ++ OPENNMT_SEP)
               (slices (skipn pos word) items))
    /\ Forall (fun t => t <> [] /\ no_space t) toks.
Proof.
  induction items as [|x items IH]; intros pos Hlow Hall.
  - exists []. simpl. rewrite Nat.add_0_r. auto.
  - cbn [slices map] in Hlow, Hall. injection Hlow as Hx Hrest.
    inversion Hall as [|? ? [Hl Hr] Hall']; subst.
    rewrite skipn_skipn in Hrest, Hall'.
    cbn [feature_items].
    assert (Py.slice pos (pos + length x) word
            = firstn (length x) (skipn pos word)) as ->.
    { unfold Py.slice. now rewrite Nat.add_comm, Nat.add_sub. }
    destruct (@token_decodes (firstn (length x) (skipn pos word)) OPENNMT_SEP
                Hl Hr (or_intror eq_refl)) as [feat [-> [Hd [Hn Hs]]]].
    cbn [bind]. rewrite Hx in Hd, Hn, Hs.
    rewrite (Nat.add_comm (length x) pos) in Hrest, Hall'.
    destruct (IH (pos + length x) Hrest Hall') as [toks [-> [Ht Hf]]].
    cbn [bind fst snd]. eexists. split; [|split].
    + cbn [concat]. rewrite length_app, Nat.add_assoc. reflexivity.
    + cbn [map_result]. rewrite Hd. cbn [bind]. rewrite Ht. cbn [bind].
      cbn [slices map]. rewrite skipn_skipn.
      now rewrite (Nat.add_comm (length x) pos).
    + constructor; [now split | assumption].
Qed.

Lemma join_onmt (front : list str) (lst : str) :
  Forall (Forall (fun c => c <> 65517%N)) front ->
  Forall (fun c => c <> 65517%N) lst ->
  Py.replace (OPENNMT_SEP ++ lit " ") []
    (Py.join (lit " ") (map (fun surf => surf ++ OPENNMT_SEP) front ++ [lst]))
  = concat front ++ lst.
Proof.
  intros Hf Hl. change (OPENNMT_SEP ++ lit " ") with [65517%N; 32%N].
  induction Hf as [|x front Hx _ IH].
  - cbn [map app Py.join concat]. now apply replace_absent.
  - cbn [map app concat].
    set (rest := map (fun surf => surf ++ OPENNMT_SEP) front ++ [lst]) in *.
    assert (Py.join (lit " ") ((x ++ OPENNMT_SEP) :: rest)
            = x ++ [65517%N; 32%N] ++ Py.join (lit " ") rest) as ->.
    { destruct rest as [|y l] eqn:E; [now destruct front|].
      change (Py.join (lit " ") ((x ++ OPENNMT_SEP) :: y :: l))
        with ((x ++ OPENNMT_SEP) ++ lit " " ++ Py.join (lit " ") (y :: l)).
      now rewrite <- app_assoc. }
    rewrite replace_cut by assumption. rewrite IH. apply app_assoc.
Qed.

Lemma letters_firstn n (s : str) : letters s -> letters (firstn n s).
Proof.
  intros H. revert n. induction H as [|c s Hc Hs IH]; intros [|n]; simpl.
  - constructor.
  - constructor.
  - constructor.
  - constructor; [assumption | apply IH].
Qed.

Lemma letters_skipn n (s : str) : letters s -> letters (skipn n s).
Proof.
  intros H. revert n. induction H as [|c s Hc Hs IH]; intros [|n]; simpl.
  - constructor.
  - constructor.
  - now constructor.
  - apply IH.
Qed.

Lemma letters_slices (items : list str) : forall (word : str),
  letters word -> Forall letters (slices word items).
Proof.
  induction items as [|x items IH]; intros word H; cbn [slices];
    constructor.
  - now apply letters_firstn.
  - apply IH. now apply letters_skipn.
Qed.

Lemma map_result_app {A B} (f : A -> result B) (l1 l2 : list A) r1 r2 :
  map_result f l1 = Ok r1 -> map_result f l2 = Ok r2 ->
  map_result f (l1 ++ l2) = Ok (r1 ++ r2).
Proof.
  revert r1. induction l1 as [|x l1 IH]; intros r1; simpl.
  - now intros [= <-].
  - destruct (f x) as [y|]; [|discriminate]. simpl.
    destruct (map_result f l1) as [ys|]; [|discriminate]. simpl.
    intros [= <-] H2. now rewrite (IH ys eq_refl H2).
Qed.

(** C3, as the code has it: with the case feature on and the OpenNMT
    separator, under a supported version, with non-empty glossaries and
    a cache of entries that spell their keys (and, when a vocabulary is
    supplied, a well-formed reverse table and the recursion depth for
    the word), a non-empty word of ASCII letters is segmented into
    pieces that spell its lower-case form; when the stretch of the word
    under each piece is not empty and is all lower case, all upper
    case, or has one capital that stands first or last, the tokens,
    decoded by the detokenizer, give the word back. *)
Theorem case_round_trip self (word : str) c :
  case_feature self = true -> separator self = OPENNMT_SEP ->
  supported (version self) -> word <> [] -> letters word ->
  Forall (fun g => g <> []) (glossaries self) ->
  (supplied (vocab self) = true ->
   wf_reverse (bpe_codes_reverse self) /\ deep_enough word) ->
  cache_ok c ->
  exists new_word c',
    new_word_of self word c = (Ok new_word, c')
    /\ concat new_word = Py.lower word
    /\ (forallb restorable (surfaces word new_word) = true ->
        exists toks,
          segment_word self word c = (Ok toks, c')
          /\ detokenize_line (Py.join (lit " ") toks) = Ok word).
Proof.
  intros Hcf Hsep Hv Hne Hl Hg Hwf0 Hc.
  assert (supplied (vocab self) = true ->
          wf_reverse (bpe_codes_reverse self) /\ deep_enough (Py.lower word))
    as Hwf.
  { intros Hsup. destruct (Hwf0 Hsup) as [H1 H2]. split; [assumption|].
    unfold deep_enough, Py.lower in *. now rewrite length_map. }
  assert (normalize self word = Py.lower word) as Hnorm.
  { unfold normalize. rewrite Hcf. unfold FEAT.
    rewrite contains_head_absent; [reflexivity|].
    apply lower_word_chars; [|assumption]. chars. }
  assert (Py.lower word <> []) as Hlne by (destruct word; [congruence|discriminate]).
  assert (no_space (Py.lower word)) as Hsp
    by (apply lower_word_chars; [|assumption]; chars).
  assert (Py.contains (Py.lower word) EOW = false) as Hno.
  { rewrite EOW_eq. apply contains_head_absent.
    apply lower_word_chars; [|assumption]. chars. }
  assert (Forall (fragment (Py.lower word)) [Py.lower word]) as Hfr.
  { constructor; [|constructor]. split; [assumption | apply substring_refl]. }
  unfold segment_word, new_word_of, _isolate_glossaries. rewrite Hnorm.
  destruct (@isolate_glossaries_ok (Py.lower word) (glossaries self)
              [Py.lower word] Hg Hsp Hfr) as [segments [-> [Es Fs]]].
  destruct (@encode_segments_ok self (Py.lower word) Hv Hwf segments c Fs)
    as [nw [c' [-> H]]].
  destruct (H Hc Hno) as [Enw _].
  assert (concat nw = Py.lower word) as Eword.
  { rewrite Enw, Es. cbn [concat]. apply app_nil_r. }
  exists nw, c'. split; [reflexivity|]. split; [assumption|].
  intros Hres. rewrite forallb_forall in Hres.
  assert (nw <> []) as Hnw by (intros ->; now rewrite <- Eword in Hlne).
  destruct (nonempty_last Hnw) as [i [x ->]].
  unfold surfaces in Hres. rewrite init_app in Hres.
  rewrite concat_app in Eword. cbn [concat] in Eword.
  rewrite app_nil_r in Eword. symmetry in Eword.
  destruct (@slices_lower i word x Eword) as [Hi [Hx Hw]].
  unfold format_word. rewrite Hcf, Hsep, init_app, last_item_app.
  cbn [negb].
  destruct (@feature_items_decode word i 0) as [front [-> [Hd Hf]]].
  { exact Hi. }
  { apply Forall_forall. intros surf Hin. split.
    - pose proof (@letters_slices i word Hl) as Hall.
      rewrite Forall_forall in Hall. now apply Hall.
    - apply Hres. apply in_or_app. now left. }
  cbn [bind fst snd Nat.add]. cbn [skipn] in Hd.
  set (lst := skipn (length (concat i)) word) in *.
  assert (In lst (slices word i ++ [lst])) as Hin
    by (apply in_or_app; right; now left).
  destruct (@token_decodes lst [] (letters_skipn _ Hl) (Hres lst Hin)
              (or_introl eq_refl)) as [feat [-> [Hdl [Hnl Hsl]]]].
  cbn [bind app] in *. rewrite Hx in Hdl, Hnl, Hsl. rewrite app_nil_r in Hdl.
  eexists. split; [reflexivity|].
  unfold detokenize_line. rewrite words_join.
  2:{ apply Forall_app. split; [assumption|]. constructor; [now split|constructor]. }
  rewrite (@map_result_app _ _ detokenize_word front [x ++ FEAT ++ feat]
             _ [lst] Hd).
  2:{ cbn [map_result]. now rewrite Hdl. }
  cbn [bind]. rewrite join_onmt.
  - rewrite Hw.
    change (lit " " ++ OPENNMT_SEP) with [32%N; 65517%N].
    rewrite replace_absent; [reflexivity|].
    eapply letters_forall; [|exact Hl]. chars.
  - pose proof (@letters_slices i word Hl) as Hall.
    eapply Forall_impl; [|exact Hall].
    intros s Hs. eapply letters_forall; [|exact Hs]. chars.
  - eapply letters_forall; [|apply letters_skipn, Hl]. chars.
Qed.

(** The tag B is decoded like the tag S: of the two capitals of [LoW]
    the decoder restores the first one only. *)
Lemma tag_B_restores_first_capital_only :
  get_case_feature (lit "LoW") = Ok (lit "B")
  /\ apply_case (lit "low") (lit "B") = Ok (lit "Low").
Proof. split; reflexivity. Qed.

(** ** The order of the set of pairs

    [get_pairs] returns a set, and [min] reads it in an order the code
    does not fix.  The model lists the pairs by first occurrence; the
    lemmas below show that another order changes nothing: the ranks of
    a loaded rule table are distinct, so the pair of smallest rank is
    the same in every order, and when no pair has a rank every choice
    ends the loop. *)

Lemma rank_fold_nth (c : code) : forall (l : list code) n k,
  Dict.get code_eq_dec
    (fold_right (fun (ic : nat * code) d =>
                   Dict.set code_eq_dec d (snd ic) (fst ic))
       [] (combine (seq n (length l)) l)) c = Some k ->
  n <= k /\ nth_error l (k - n) = Some c.
Proof.
  induction l as [|c0 l IH]; intros n k; [discriminate|].
  cbn [length seq combine fold_right fst snd].
  destruct (code_eq_dec c0 c) as [->|Hne].
  - rewrite get_set_eq. intros [= <-]. rewrite Nat.sub_diag. now split.
  - rewrite get_set_neq by assumption. intros H.
    destruct (IH _ _ H) as [Hle Hn]. split; [lia|].
    replace (k - n) with (S (k - S n)) by lia. exact Hn.
Qed.

Lemma rank_table_nth (codes : list code) (c : code) (i : nat) :
  Dict.get code_eq_dec (rank_table codes) c = Some i ->
  nth_error codes i = Some c.
Proof.
  rewrite rank_table_fold. unfold enumerate. intros H.
  apply rank_fold_nth in H. destruct H as [_ H].
  now rewrite Nat.sub_0_r in H.
Qed.

(** Distinct pairs have distinct ranks in a loaded rule table. *)
Lemma rank_table_injective (codes : list code) (p q : str * str) (r : nat) :
  rank_of (rank_table codes) p = Some r ->
  rank_of (rank_table codes) q = Some r ->
  p = q.
Proof.
  unfold rank_of. intros Hp Hq.
  apply rank_table_nth in Hp, Hq. rewrite Hp in Hq.
  destruct p, q. unfold tup in Hq. simpl in Hq. congruence.
Qed.

Lemma py_min_any_order codes (l l' : list (str * str)) b b' :
  (forall p, In p l <-> In p l') ->
  py_min (rank_of codes) l = Ok b ->
  py_min (rank_of codes) l' = Ok b' ->
  rank_of codes b = rank_of codes b'.
Proof.
  intros Hsame Hb Hb'.
  apply py_min_minimal in Hb, Hb'.
  destruct Hb as [Hin H], Hb' as [Hin' H'].
  specialize (H b' (proj2 (Hsame b') Hin')).
  specialize (H' b (proj1 (Hsame b) Hin)).
  destruct (rank_of codes b), (rank_of codes b'); simpl in *;
    try congruence.
  apply Nat.ltb_ge in H, H'. f_equal. lia.
Qed.

Lemma py_min_loaded_any_order (codes : list code) (l l' : list (str * str))
  b b' :
  (forall p, In p l <-> In p l') ->
  py_min (rank_of (rank_table codes)) l = Ok b ->
  py_min (rank_of (rank_table codes)) l' = Ok b' ->
  b = b'
  \/ (Dict.mem code_eq_dec (rank_table codes) (tup b) = false
      /\ Dict.mem code_eq_dec (rank_table codes) (tup b') = false).
Proof.
  intros Hsame Hb Hb'.
  pose proof (@py_min_any_order (rank_table codes) l l' b b' Hsame Hb Hb') as E.
  unfold Dict.mem. unfold rank_of in E.
  destruct (Dict.get code_eq_dec (rank_table codes) (tup b)) as [r|] eqn:Er.
  - left. eapply rank_table_injective; unfold rank_of; [exact Er|].
    now rewrite <- E.
  - right. now rewrite <- E.
Qed.

(** ** A word that holds the marker text

    [encode] takes the marker off the last symbol with
    [replace('</w>','')], which removes every occurrence.  Under the
    rules of [marker_file] the word [</w>] is merged with its marker
    into one symbol, and nothing of it is left: the round trip needs a
    word without the marker text. *)

Lemma marker_text_in_word_is_lost :
  exists bpe,
    BPE_init marker_file (lit "@@") None None false = Ok bpe
    /\ fst (segment_word bpe (lit "</w>") []) = Ok [[]].
Proof. eexists. split; reflexivity. Qed.

(** * Further properties of the code *)

(** ** The cache does not change what is computed *)

Lemma encode_miss_value (orig : str) codes rev voc sep ver (c : cache_t) gl :
  Dict.get str_eq_dec c orig = None ->
  fst (encode orig codes rev voc sep ver c gl)
  = fst (encode orig codes rev voc sep ver [] gl).
Proof.
  intros Hc. unfold encode. rewrite Hc. cbn [Dict.get].
  destruct (inb orig gl); [reflexivity|].
  destruct (initial_symbols ver orig) as [w|]; [|reflexivity].
  destruct (get_pairs w) as [[|p ps]|]; try reflexivity.
  destruct (encode_merges w (p :: ps) codes rev voc sep); reflexivity.
Qed.

(** What [encode] writes to the cache: nothing, or the sequence it
    returns under the word it was called with. *)
Lemma encode_cache_after (orig : str) codes rev voc sep ver (c : cache_t) gl :
  snd (encode orig codes rev voc sep ver c gl) = c
  \/ exists word,
       Dict.get str_eq_dec c orig = None
       /\ fst (encode orig codes rev voc sep ver c gl) = Ok (VSeq word)
       /\ snd (encode orig codes rev voc sep ver c gl)
          = Dict.set str_eq_dec c orig word.
Proof.
  unfold encode.
  destruct (Dict.get str_eq_dec c orig) as [v|] eqn:Hc; [now left|].
  destruct (inb orig gl); [right; now exists [orig]|].
  destruct (initial_symbols ver orig) as [w|]; [|now left].
  destruct (get_pairs w) as [[|p ps]|]; try now left.
  destruct (encode_merges w (p :: ps) codes rev voc sep) as [word|];
    [|now left].
  right. now exists word.
Qed.

Lemma encode_faithful self (orig : str) (c : cache_t) :
  cache_faithful self c ->
  fst (encode orig (bpe_codes self) (bpe_codes_reverse self) (vocab self)
         (separator self) (version self) c (glossaries self))
  = fresh_value self orig
  /\ cache_faithful self
       (snd (encode orig (bpe_codes self) (bpe_codes_reverse self)
               (vocab self) (separator self) (version self) c
               (glossaries self))).
Proof.
  intros Hc.
  assert (fst (encode orig (bpe_codes self) (bpe_codes_reverse self)
                 (vocab self) (separator self) (version self) c
                 (glossaries self)) = fresh_value self orig) as Hval.
  { destruct (Dict.get str_eq_dec c orig) as [v|] eqn:Hg.
    - rewrite (Hc _ _ Hg). unfold encode. now rewrite Hg.
    - now apply encode_miss_value. }
  split; [assumption|].
  destruct (encode_cache_after orig (bpe_codes self) (bpe_codes_reverse self)
              (vocab self) (separator self) (version self) c
              (glossaries self)) as [->|[word [Hg [Hv ->]]]]; [assumption|].
  intros k v. destruct (str_eq_dec orig k) as [<-|Hne].
  - rewrite get_set_eq. intros [= <-]. now rewrite <- Hval.
  - rewrite get_set_neq by assumption. apply Hc.
Qed.

Lemma encode_segments_faithful self : forall (segments : list str) (c : cache_t),
  cache_faithful self c ->
  fst (encode_segments self segments c) = fst (encode_segments self segments [])
  /\ cache_faithful self (snd (encode_segments self segments c)).
Proof.
  assert (forall (segments : list str) (c1 c2 : cache_t),
            cache_faithful self c1 -> cache_faithful self c2 ->
            fst (encode_segments self segments c1)
            = fst (encode_segments self segments c2)
            /\ cache_faithful self (snd (encode_segments self segments c1)))
    as H.
  { induction segments as [|s rest IH]; intros c1 c2 H1 H2;
      cbn [encode_segments]; [now split|].
    destruct (@encode_faithful self s c1 H1) as [E1 F1].
    destruct (@encode_faithful self s c2 H2) as [E2 F2].
    destruct (encode s (bpe_codes self) (bpe_codes_reverse self) (vocab self)
                (separator self) (version self) c1 (glossaries self))
      as [r1 d1].
    destruct (encode s (bpe_codes self) (bpe_codes_reverse self) (vocab self)
                (separator self) (version self) c2 (glossaries self))
      as [r2 d2].
    cbn [fst snd] in *. rewrite E1, E2.
    destruct (fresh_value self s) as [v|e]; [|now split].
    destruct (IH d1 d2 F1 F2) as [E F].
    destruct (encode_segments self rest d1) as [[l1|e1] k1];
      destruct (encode_segments self rest d2) as [[l2|e2] k2];
      cbn [fst snd] in *; try discriminate; (split; [congruence | assumption]). }
  intros segments c Hc. apply H; [assumption|]. intros k v Hk. discriminate.
Qed.

Lemma encode_segments_with_cache self c0 : forall (segments : list str) c,
  encode_segments (with_cache self c0) segments c
  = encode_segments self segments c.
Proof.
  induction segments as [|s rest IH]; intros c; cbn [encode_segments];
    [reflexivity|].
  change (encode s (bpe_codes (with_cache self c0))
            (bpe_codes_reverse (with_cache self c0)) (vocab (with_cache self c0))
            (separator (with_cache self c0)) (version (with_cache self c0)) c
            (glossaries (with_cache self c0)))
    with (encode s (bpe_codes self) (bpe_codes_reverse self) (vocab self)
            (separator self) (version self) c (glossaries self)).
  destruct (encode s (bpe_codes self) (bpe_codes_reverse self) (vocab self)
              (separator self) (version self) c (glossaries self)) as [[v|e] c1];
    [|reflexivity].
  now rewrite IH.
Qed.

Lemma segment_word_with_cache self c0 (word : str) c :
  segment_word (with_cache self c0) word c = segment_word self word c.
Proof.
  unfold segment_word, new_word_of.
  change (normalize (with_cache self c0) word) with (normalize self word).
  change (_isolate_glossaries (with_cache self c0) (normalize self word))
    with (_isolate_glossaries self (normalize self word)).
  destruct (_isolate_glossaries self (normalize self word)) as [segs|e];
    [|reflexivity].
  now rewrite encode_segments_with_cache.
Qed.

Lemma segment_words_with_cache self c0 : forall (ws : list str) c,
  segment_words (with_cache self c0) ws c = segment_words self ws c.
Proof.
  induction ws as [|w rest IH]; intros c; cbn [segment_words]; [reflexivity|].
  rewrite segment_word_with_cache.
  destruct (segment_word self w c) as [[toks|e] c1]; [|reflexivity].
  now rewrite IH.
Qed.

Lemma segment_word_faithful self (word : str) (c1 c2 : cache_t) :
  cache_faithful self c1 -> cache_faithful self c2 ->
  fst (segment_word self word c1) = fst (segment_word self word c2)
  /\ cache_faithful self (snd (segment_word self word c1)).
Proof.
  intros H1 H2. unfold segment_word, new_word_of.
  destruct (_isolate_glossaries self (normalize self word)) as [segs|e];
    [|now split].
  destruct (@encode_segments_faithful self segs c1 H1) as [E1 F1].
  destruct (@encode_segments_faithful self segs c2 H2) as [E2 _].
  rewrite <- E2 in E1. clear E2.
  destruct (encode_segments self segs c1) as [[l1|e1] k1];
    destruct (encode_segments self segs c2) as [[l2|e2] k2];
    cbn [fst snd] in *; try discriminate;
    (split; [congruence | assumption]).
Qed.

Lemma segment_words_faithful self : forall (ws : list str) (c1 c2 : cache_t),
  cache_faithful self c1 -> cache_faithful self c2 ->
  fst (segment_words self ws c1) = fst (segment_words self ws c2)
  /\ cache_faithful self (snd (segment_words self ws c1)).
Proof.
  induction ws as [|w rest IH]; intros c1 c2 H1 H2; cbn [segment_words];
    [now split|].
  destruct (@segment_word_faithful self w c1 c2 H1 H2) as [E F1].
  destruct (@segment_word_faithful self w c2 c1 H2 H1) as [_ F2].
  destruct (segment_word self w c1) as [[t1|e1] k1];
    destruct (segment_word self w c2) as [[t2|e2] k2];
    cbn [fst snd] in *; try discriminate; [|split; [congruence | assumption]].
  injection E as <-.
  destruct (IH k1 k2 F1 F2) as [E' F].
  destruct (segment_words self rest k1) as [[o1|x1] j1];
    destruct (segment_words self rest k2) as [[o2|x2] j2];
    cbn [fst snd] in *; try discriminate; (split; [congruence | assumption]).
Qed.

Lemma cache_faithful_empty self : cache_faithful self [].
Proof. intros k v H. discriminate. Qed.

Lemma cache_faithful_with_cache self c0 c :
  cache_faithful (with_cache self c0) c <-> cache_faithful self c.
Proof. split; intros H k v Hk; exact (H k v Hk). Qed.

Lemma segment_faithful self c (sentence : str) :
  cache_faithful self c ->
  fst (segment (with_cache self c) sentence)
  = fst (segment (with_cache self []) sentence)
  /\ exists c', snd (segment (with_cache self c) sentence) = with_cache self c'
       /\ cache_faithful self c'.
Proof.
  intros Hc. unfold segment. cbn [cache with_cache].
  rewrite !segment_words_with_cache.
  destruct (@segment_words_faithful self (Py.words sentence) c []
              Hc (cache_faithful_empty self)) as [E F].
  destruct (segment_words self (Py.words sentence) c) as [[o1|e1] k1];
    destruct (segment_words self (Py.words sentence) []) as [[o2|e2] k2];
    cbn [fst snd] in *; try discriminate.
  - split; [congruence|]. exists k1. now split.
  - split; [congruence|]. exists k1. now split.
Qed.

Lemma with_cache_same self : with_cache self (cache self) = self.
Proof. now destruct self. Qed.

(** X1: an engine whose cache holds only what [encode] computes (the
    empty cache of a loaded engine does) answers a call as if no call
    had come before: the line [segment] returns after another call is
    the line it returns without it, and the cache stays such a cache. *)
Theorem segment_history_irrelevant self (first_sentence sentence : str) :
  cache_faithful self (cache self) ->
  fst (segment (snd (segment self first_sentence)) sentence)
  = fst (segment self sentence)
  /\ cache_faithful self (cache (snd (segment self first_sentence))).
Proof.
  intros Hc.
  destruct (@segment_faithful self (cache self) first_sentence Hc)
    as [_ [c1 [E1 F1]]].
  destruct (@segment_faithful self (cache self) sentence Hc) as [E2 _].
  destruct (@segment_faithful self c1 sentence F1) as [E3 _].
  rewrite with_cache_same in *. rewrite E1, E3, <- E2. now split.
Qed.

(** ** Entries of the cache are kept *)

Lemma encode_keeps (orig : str) codes rev voc sep ver (c : cache_t) gl k v :
  Dict.get str_eq_dec c k = Some v ->
  Dict.get str_eq_dec (snd (encode orig codes rev voc sep ver c gl)) k = Some v.
Proof.
  intros Hk.
  destruct (encode_cache_after orig codes rev voc sep ver c gl)
    as [->|[word [Hg [_ ->]]]]; [assumption|].
  rewrite get_set_neq; [assumption|]. congruence.
Qed.

Lemma encode_segments_keeps self k v : forall (segments : list str) c,
  Dict.get str_eq_dec c k = Some v ->
  Dict.get str_eq_dec (snd (encode_segments self segments c)) k = Some v.
Proof.
  induction segments as [|s rest IH]; intros c Hk; cbn [encode_segments];
    [assumption|].
  pose proof (@encode_keeps s (bpe_codes self) (bpe_codes_reverse self)
                (vocab self) (separator self) (version self) c
                (glossaries self) k v Hk) as H1.
  destruct (encode s (bpe_codes self) (bpe_codes_reverse self) (vocab self)
              (separator self) (version self) c (glossaries self))
    as [[x|e] c1]; cbn [snd] in *; [|assumption].
  specialize (IH c1 H1).
  destruct (encode_segments self rest c1) as [[l|e] c2]; assumption.
Qed.

Lemma segment_word_keeps self k v (word : str) c :
  Dict.get str_eq_dec c k = Some v ->
  Dict.get str_eq_dec (snd (segment_word self word c)) k = Some v.
Proof.
  intros Hk. unfold segment_word, new_word_of.
  destruct (_isolate_glossaries self (normalize self word)) as [segs|e];
    [|assumption].
  pose proof (@encode_segments_keeps self k v segs c Hk) as H.
  destruct (encode_segments self segs c) as [[l|e] c1]; assumption.
Qed.

Lemma segment_words_keeps self k v : forall (ws : list str) c,
  Dict.get str_eq_dec c k = Some v ->
  Dict.get str_eq_dec (snd (segment_words self ws c)) k = Some v.
Proof.
  induction ws as [|w rest IH]; intros c Hk; cbn [segment_words];
    [assumption|].
  pose proof (@segment_word_keeps self k v w c Hk) as H1.
  destruct (segment_word self w c) as [[t|e] c1]; cbn [snd] in *;
    [|assumption].
  specialize (IH c1 H1).
  destruct (segment_words self rest c1) as [[o|e] c2]; assumption.
Qed.

(** ** What is cached, and under which key *)

Lemma encode_segments_new_keys self (k : str) : forall (segments : list str) c,
  Dict.get str_eq_dec c k = None ->
  Dict.get str_eq_dec (snd (encode_segments self segments c)) k <> None ->
  In k segments.
Proof.
  induction segments as [|s rest IH]; intros c Hk Hafter;
    cbn [encode_segments] in Hafter; [contradiction|].
  destruct (str_eq_dec k s) as [->|Hks]; [now left|]. right.
  assert (Dict.get str_eq_dec
            (snd (encode s (bpe_codes self) (bpe_codes_reverse self)
                    (vocab self) (separator self) (version self) c
                    (glossaries self))) k = None) as H1.
  { destruct (encode_cache_after s (bpe_codes self) (bpe_codes_reverse self)
                (vocab self) (separator self) (version self) c
                (glossaries self)) as [->|[word [_ [_ ->]]]]; [assumption|].
    rewrite get_set_neq; [assumption | congruence]. }
  destruct (encode s (bpe_codes self) (bpe_codes_reverse self) (vocab self)
              (separator self) (version self) c (glossaries self))
    as [[v|e] c1]; cbn [snd] in *; [|contradiction].
  apply (IH c1 H1).
  destruct (encode_segments self rest c1) as [[l|e] c2]; exact Hafter.
Qed.

Lemma segment_word_new_keys self (word k : str) c :
  Dict.get str_eq_dec c k = None ->
  Dict.get str_eq_dec (snd (segment_word self word c)) k <> None ->
  exists segments,
    _isolate_glossaries self (normalize self word) = Ok segments
    /\ In k segments.
Proof.
  intros Hk Hafter. unfold segment_word, new_word_of in Hafter.
  destruct (_isolate_glossaries self (normalize self word)) as [segs|e];
    [|contradiction].
  exists segs. split; [reflexivity|].
  apply (@encode_segments_new_keys self k segs c Hk).
  destruct (encode_segments self segs c) as [[l|e] c1]; exact Hafter.
Qed.

(** C4, as the code has it.  A call of [encode] on a word that is
    neither cached nor a glossary and whose initial symbol sequence has
    two symbols or more stores the sequence it returns under the word
    it was called with, and any later call that finds this entry
    returns the same sequence and leaves the cache as it is; the call
    does return when no vocabulary is supplied, and with a vocabulary
    when the reverse table is well-formed and the interpreter has the
    recursion depth for the word.  A word with a single initial symbol
    is returned as it is and nothing is written to the cache.  The word
    [encode] is called with is not the word of the sentence: every key
    that [segment] adds for a word is one of the pieces that glossary
    isolation cuts out of the normalized word. *)
Theorem encode_caches_result (orig : str) codes rev voc sep ver c gl :
  Dict.get str_eq_dec c orig = None ->
  inb orig gl = false ->
  (two_symbols ver orig ->
   (forall v c',
       encode orig codes rev voc sep ver c gl = (Ok v, c') ->
       exists word,
         v = VSeq word
         /\ Dict.get str_eq_dec c' orig = Some word
         /\ forall c'', Dict.get str_eq_dec c'' orig = Some word ->
              encode orig codes rev voc sep ver c'' gl
              = (Ok (VSeq word), c''))
   /\ ((supplied voc = true -> wf_reverse rev /\ deep_enough orig) ->
       exists v c', encode orig codes rev voc sep ver c gl = (Ok v, c')))
  /\ (one_symbol ver orig ->
      encode orig codes rev voc sep ver c gl = (Ok (VStr orig), c))
  /\ (forall self (word k : str) c0,
        Dict.get str_eq_dec c0 k = None ->
        Dict.get str_eq_dec (snd (segment_word self word c0)) k <> None ->
        exists segments,
          _isolate_glossaries self (normalize self word) = Ok segments
          /\ In k segments).
Proof.
  intros Hc Hg. split; [|split].
  - intros Htwo.
    assert (supported ver /\ orig <> []) as [Hv Hne].
    { destruct Htwo as [[-> H]|[-> H]].
      - split; [now left | assumption].
      - split; [now right|]. destruct orig; [simpl in H; lia | discriminate]. }
    split.
    + intros v c'. unfold encode. rewrite Hc, Hg.
      destruct (@initial_symbols_ok ver orig Hv Hne) as [w [-> [_ [_ Hl]]]].
      assert (2 <= length w) as Hw.
      { rewrite Hl. destruct Htwo as [[-> H]|[-> H]].
        - destruct orig; [congruence | simpl; lia].
        - simpl. exact H. }
      destruct w as [|x [|y r]]; [simpl in Hw; lia | simpl in Hw; lia |].
      destruct (get_pairs_nonempty x y r) as [p [ps ->]].
      destruct (encode_merges (x :: y :: r) (p :: ps) codes rev voc sep)
        as [word|]; [|discriminate].
      intros [= <- <-]. exists word. split; [reflexivity|].
      split; [apply get_set_eq|].
      intros c'' Hc''. unfold encode. now rewrite Hc''.
    + intros Hwf.
      destruct (@encode_ok orig codes rev voc sep ver c gl Hv Hne Hwf)
        as [v [c' [E _]]].
      eauto.
  - intros [[-> ->]|[-> Hone]]; unfold encode; rewrite Hc, Hg.
    + reflexivity.
    + destruct orig as [|ch [|? ?]]; try discriminate. reflexivity.
  - intros self word k c0. apply segment_word_new_keys.
Qed.

(** X2: a call of [segment] never removes or changes an entry of the
    cache, whether it returns or raises. *)
Theorem segment_keeps_cache_entries self (sentence k : str) v :
  Dict.get str_eq_dec (cache self) k = Some v ->
  Dict.get str_eq_dec (cache (snd (segment self sentence))) k = Some v.
Proof.
  intros Hk. unfold segment.
  pose proof (@segment_words_keeps self k v (Py.words sentence) (cache self) Hk)
    as H.
  destruct (segment_words self (Py.words sentence) (cache self))
    as [[o|e] c]; exact H.
Qed.

(** ** Segmenting a file line by line *)

Lemma write_lines_faithful self : forall (input : list str) c out bpe',
  cache_faithful self c ->
  write_lines (with_cache self c) input = (out, Ok bpe') ->
  Forall2 (fun line written =>
             exists res,
               fst (segment (with_cache self []) line) = Ok res
               /\ written = Py.strip res ++ [10%N])
    input out.
Proof.
  induction input as [|line rest IH]; intros c out bpe' Hc; cbn [write_lines].
  - intros [= <- _]. constructor.
  - destruct (@segment_faithful self c line Hc) as [E [c1 [E1 F1]]].
    destruct (segment (with_cache self c) line) as [[res|e] b1];
      cbn [fst snd] in *; [|discriminate].
    subst b1. intros H.
    destruct (write_lines (with_cache self c1) rest) as [o r] eqn:Er.
    cbn [fst snd] in H. injection H as <- ->.
    constructor; [|eapply IH; eassumption].
    exists res. split; [now rewrite <- E | reflexivity].
Qed.

(** X3: when the loop over the lines of the input ends without
    exception, what it wrote for each line is the line that a fresh
    engine returns for that line alone, stripped, with a line break:
    the cache carried from line to line changes nothing. *)
Theorem write_lines_line_by_line (bpe : BPE) (input : list str) out bpe' :
  cache_faithful bpe (cache bpe) ->
  write_lines bpe input = (out, Ok bpe') ->
  Forall2 (fun line written =>
             exists res,
               fst (segment (with_cache bpe []) line) = Ok res
               /\ written = Py.strip res ++ [10%N])
    input out.
Proof.
  intros Hc H. rewrite <- (with_cache_same bpe) in H.
  exact (@write_lines_faithful bpe input (cache bpe) out bpe' Hc H).
Qed.

(** ** The result of the merge loop *)

Lemma pairs_from_complete p : forall (w : list str) prev acc,
  adjacent p (prev :: w) -> In p (pairs_from prev w acc).
Proof.
  induction w as [|c w IH]; intros prev acc [a [b E]].
  - destruct a as [|? [|? ?]]; discriminate.
  - cbn [pairs_from]. destruct a as [|a0 a]; simpl in E.
    + injection E as -> -> _. apply pairs_from_keeps.
      destruct p. apply set_add_new.
    + injection E as _ E. apply IH. now exists a, b.
Qed.

Lemma get_pairs_complete p (w : list str) pairs :
  get_pairs w = Ok pairs -> adjacent p w -> In p pairs.
Proof.
  destruct w as [|prev w]; [discriminate|]. intros [= <-].
  apply pairs_from_complete.
Qed.

Lemma merge_loop_exit codes : forall fuel (word : list str) pairs w',
  get_pairs word = Ok pairs ->
  merge_loop fuel codes word pairs = Ok w' ->
  length w' <= length word
  /\ (length w' = 1
      \/ forall p, adjacent p w' -> Dict.mem code_eq_dec codes (tup p) = false).
Proof.
  induction fuel as [|fuel IH]; intros word pairs w' Hp; [discriminate|].
  cbn [merge_loop].
  destruct (py_min (rank_of codes) pairs) as [bigram|] eqn:Em; [|discriminate].
  cbn [bind].
  destruct (Dict.mem code_eq_dec codes (tup bigram)) eqn:Eb; cbn [negb].
  - pose proof (merge_pass_length (fst bigram) (snd bigram) word) as Hl.
    destruct (Nat.eqb_spec (length (merge_pass (fst bigram) (snd bigram) word)) 1)
      as [E1|N1].
    + intros [= <-]. split; [assumption | now left].
    + destruct (get_pairs (merge_pass (fst bigram) (snd bigram) word))
        as [pairs'|] eqn:Ep; [|discriminate].
      cbn [bind]. intros H. destruct (IH _ _ _ Ep H) as [H1 H2].
      split; [lia | assumption].
  - intros [= <-]. split; [lia|]. right. intros p Hadj.
    eapply py_min_unranked; [exact Em | exact Eb |].
    eapply get_pairs_complete; eassumption.
Qed.

(** X4: on a word of two symbols or more the merge loop of [encode]
    ends within as many iterations as the word has symbols.  Its result
    spells the same text in no more symbols, and it is fully merged:
    it is a single symbol, or no two neighbouring symbols of it have a
    rule. *)
Theorem merge_loop_result codes (word : list str) pairs :
  get_pairs word = Ok pairs -> pairs <> [] ->
  exists w',
    merge_loop (length word) codes word pairs = Ok w'
    /\ concat w' = concat word
    /\ 1 <= length w' <= length word
    /\ (length w' = 1
        \/ forall p, adjacent p w' ->
             Dict.mem code_eq_dec codes (tup p) = false).
Proof.
  intros Hp Hne.
  destruct (@merge_loop_total codes (length word) word pairs Hp Hne
              (Nat.le_refl _)) as [w' [E [Hc [Hn _]]]].
  destruct (@merge_loop_exit codes (length word) word pairs w' Hp E)
    as [Hl Hx].
  exists w'. repeat split; try assumption.
  destruct w'; [congruence | simpl; lia].
Qed.

(** ** Words no rule applies to *)

(** X5: a word none of whose neighbouring initial symbols have a rule
    (any word, when the rule file is empty) is split into its
    characters, under either version, when no vocabulary is supplied
    and the word is neither cached nor a glossary. *)
Theorem unruled_word_is_spelled (orig : str) codes rev sep ver (c : cache_t) gl :
  supported ver -> orig <> [] ->
  Dict.get str_eq_dec c orig = None -> inb orig gl = false ->
  (forall w p, initial_symbols ver orig = Ok w -> adjacent p w ->
               Dict.mem code_eq_dec codes (tup p) = false) ->
  exists v,
    fst (encode orig codes rev None sep ver c gl) = Ok v
    /\ pieces v = map (fun ch => [ch]) orig.
Proof.
  intros Hv Hne Hc Hg Hno. unfold encode. rewrite Hc, Hg.
  destruct (@initial_symbols_ok ver orig Hv Hne) as [w [Ew [Hcw [He Hl]]]].
  specialize (Hno w). rewrite Ew in *.
  assert (w <> []) as Hw.
  { intros ->. destruct (version_eq_dec ver [0; 1]%Z); [discriminate|].
    destruct orig; [congruence | discriminate]. }
  destruct (@get_pairs_ok w Hw) as [ps Ep]. rewrite Ep.
  destruct ps as [|p ps]; [exists (VStr orig); now split|].
  unfold encode_merges.
  assert (merge_loop (length w) codes w (p :: ps) = Ok w) as ->.
  { destruct w as [|x w']; [congruence|]. cbn [length merge_loop].
    destruct (py_min (rank_of codes) (p :: ps)) as [bigram|] eqn:Em;
      [|discriminate].
    cbn [bind]. rewrite Hno; [reflexivity | reflexivity |].
    eapply get_pairs_adjacent; [exact Ep|].
    now apply (py_min_in (rank_of codes)). }
  cbn [bind supplied].
  unfold initial_symbols in Ew.
  destruct (version_eq_dec ver [0; 1]%Z) as [E1|N1].
  - injection Ew as <-. unfold strip_eow.
    rewrite last_item_app, init_app. cbn [bind]. rewrite eqs_refl.
    cbn [bind fst]. eexists. split; reflexivity.
  - destruct (version_eq_dec ver [0; 2]%Z) as [E2|N2];
      [|destruct Hv; congruence].
    destruct (nonempty_last Hne) as [i [ch ->]].
    rewrite last_item_app, init_app in Ew. cbn [bind] in Ew.
    injection Ew as <-. unfold strip_eow.
    rewrite last_item_app, init_app. cbn [bind].
    change (ch :: EOW) with ([ch] ++ EOW).
    assert (eqs ([ch] ++ EOW) EOW = false) as ->
      by (apply eqs_false; discriminate).
    assert (Py.endswith ([ch] ++ EOW) EOW = true) as ->
      by (apply endswith_spec; now exists [ch]).
    rewrite replace_eow.
    + cbn [bind fst]. eexists. split; [reflexivity|].
      cbn [pieces]. now rewrite map_app.
    + rewrite EOW_eq. cbn [Py.contains Py.startswith].
      now rewrite andb_false_r.
Qed.

(** ** Tokens are never empty without a vocabulary *)

Lemma merge_pass_symbols f s (w : list str) :
  Forall (fun x => x <> []) w -> Forall (fun x => x <> []) (merge_pass f s w).
Proof.
  induction w as [w IH] using list_len_ind.
  destruct w as [|x rest]; [intros _; constructor|].
  intros H. inversion H as [|? ? Hx Hrest]; subst.
  rewrite merge_pass_cons. destruct (eqs x f) eqn:Ef.
  - apply eqs_true in Ef. subst f.
    destruct rest as [|y r]; [assumption|].
    inversion Hrest as [|? ? Hy Hr]; subst.
    destruct (eqs y s).
    + constructor.
      * destruct x; [congruence | discriminate].
      * apply IH; [simpl; lia | assumption].
    + constructor; [assumption|]. apply IH; [simpl; lia | assumption].
  - constructor; [assumption|]. apply IH; [simpl; lia | assumption].
Qed.

Lemma merge_loop_symbols codes : forall fuel (word : list str) pairs w',
  Forall (fun x => x <> []) word ->
  merge_loop fuel codes word pairs = Ok w' ->
  Forall (fun x => x <> []) w'.
Proof.
  induction fuel as [|fuel IH]; intros word pairs w' Hw; [discriminate|].
  cbn [merge_loop].
  destruct (py_min (rank_of codes) pairs) as [bigram|]; [|discriminate].
  cbn [bind].
  destruct (negb (Dict.mem code_eq_dec codes (tup bigram))).
  - now intros [= <-].
  - pose proof (@merge_pass_symbols (fst bigram) (snd bigram) word Hw) as Hm.
    destruct (length (merge_pass (fst bigram) (snd bigram) word) =? 1).
    + now intros [= <-].
    + destruct (get_pairs (merge_pass (fst bigram) (snd bigram) word))
        as [pairs'|]; [|discriminate].
      cbn [bind]. now apply IH.
Qed.

Lemma initial_symbols_nonempty ver (orig : str) w :
  initial_symbols ver orig = Ok w -> Forall (fun x => x <> []) w.
Proof.
  unfold initial_symbols.
  assert (forall l : str, Forall (fun x : str => x <> []) (map (fun c => [c]) l))
    as Hmap by (intros l; apply Forall_map, Forall_forall; discriminate).
  destruct (version_eq_dec ver [0; 1]%Z).
  - intros [= <-]. apply Forall_app. split; [apply Hmap|].
    repeat constructor. discriminate.
  - destruct (version_eq_dec ver [0; 2]%Z); [|discriminate].
    destruct (Py.last_item orig) as [c|]; [|discriminate].
    intros [= <-]. apply Forall_app. split; [apply Hmap|].
    repeat constructor. discriminate.
Qed.

Lemma strip_eow_symbols (w w' : list str) :
  Forall (fun x => x <> []) w ->
  (forall i x, w = i ++ [x ++ EOW] -> Py.contains x EOW = false) ->
  strip_eow w = Ok w' ->
  Forall (fun x => x <> []) w'.
Proof.
  intros Hw Hno E. unfold strip_eow in E.
  destruct (Py.last_item w) as [lst|] eqn:El; [|discriminate].
  cbn [bind] in E. apply init_last_item in El.
  rewrite El in Hw. apply Forall_app in Hw. destruct Hw as [Hi Hl].
  destruct (eqs lst EOW) eqn:Eq; [now injection E as <-|].
  destruct (Py.endswith lst EOW) eqn:Ee.
  - injection E as <-. apply endswith_spec in Ee. destruct Ee as [x ->].
    apply Forall_app. split; [assumption|]. repeat constructor.
    rewrite replace_eow by (eapply Hno; exact El).
    intros ->. apply eqs_false in Eq. now apply Eq.
  - injection E as <-. rewrite El. apply Forall_app. now split.
Qed.

(** On an empty cache, without a vocabulary: the pieces computed for a
    non-empty word without the marker text spell the word, and none is
    empty. *)
Lemma fresh_pieces self (orig : str) :
  supported (version self) -> supplied (vocab self) = false ->
  orig <> [] -> Py.contains orig EOW = false ->
  exists v,
    fresh_value self orig = Ok v
    /\ concat (pieces v) = orig
    /\ Forall (fun tok => tok <> []) (pieces v).
Proof.
  intros Hv Hs Hne Hno. unfold fresh_value, encode. cbn [Dict.get].
  destruct (inb orig (glossaries self)).
  { eexists. split; [reflexivity|]. cbn [pieces concat].
    split; [apply app_nil_r | now repeat constructor]. }
  destruct (@initial_symbols_ok (version self) orig Hv Hne)
    as [w [Ew [Hcw [He _]]]].
  rewrite Ew.
  pose proof (initial_symbols_nonempty _ _ Ew) as Hsym.
  assert (w <> []) as Hw
    by (destruct He as [i [x ->]]; now destruct i).
  destruct (@get_pairs_ok w Hw) as [ps Ep]. rewrite Ep.
  destruct ps as [|p ps].
  { eexists. split; [reflexivity|]. cbn [pieces].
    split; [apply concat_chars|].
    apply Forall_map, Forall_forall. discriminate. }
  unfold encode_merges.
  destruct (@merge_loop_total (bpe_codes self) (length w) w (p :: ps) Ep)
    as [w1 [E1 [Hc1 [Hn1 He1]]]]; [discriminate | lia |].
  rewrite E1. cbn [bind].
  pose proof (@merge_loop_symbols (bpe_codes self) _ _ _ _ Hsym E1) as Hsym1.
  rewrite Hcw in Hc1.
  destruct (@strip_eow_ok w1 orig (He1 He) Hc1 Hne) as [w2 [E2 [_ Hcat]]].
  rewrite E2. cbn [bind]. rewrite Hs. cbn [fst].
  eexists. split; [reflexivity|]. cbn [pieces].
  split; [now apply Hcat|].
  eapply strip_eow_symbols; [exact Hsym1 | | exact E2].
  intros i x ->. rewrite concat_app in Hc1. cbn [concat] in Hc1.
  rewrite app_nil_r, app_assoc in Hc1. apply app_inv_tail in Hc1.
  subst orig. apply (contains_sub (concat i) x []).
  now rewrite app_nil_r.
Qed.

(** X6: without a vocabulary, the pieces [encode] computes for a
    non-empty word that does not hold the end-of-word marker text are
    never empty, under either version and whatever the rules. *)
Theorem encode_tokens_never_empty (orig : str) codes rev voc sep ver
  (c : cache_t) gl :
  supported ver -> orig <> [] -> Py.contains orig EOW = false ->
  supplied voc = false ->
  Dict.get str_eq_dec c orig = None ->
  exists v,
    fst (encode orig codes rev voc sep ver c gl) = Ok v
    /\ Forall (fun tok => tok <> []) (pieces v).
Proof.
  intros Hv Hne Hno Hs Hc. rewrite (encode_miss_value _ _ _ _ _ _ _ _ Hc).
  destruct (@fresh_pieces (mkBPE ver codes rev sep voc gl false []) orig
              Hv Hs Hne Hno) as [v [E [_ H]]].
  exists v. split; assumption.
Qed.

(** ** The vocabulary check *)

Lemma recursive_split_yields rev voc sep : forall fuel (segment : str) final out,
  recursive_split fuel segment rev voc sep final = Ok out -> out <> [].
Proof.
  induction fuel as [|fuel IH]; intros segment final out; [discriminate|].
  cbn [recursive_split].
  destruct (Dict.get str_eq_dec rev (if final then segment ++ EOW else segment))
    as [[|l [|r [|? ?]]]|]; try (intros [= <-]; discriminate).
  destruct (if inb (l ++ sep) voc then Ok [l]
            else recursive_split fuel l rev voc sep false) as [a|];
    [|discriminate].
  cbn [bind].
  match goal with
  | |- context [bind ?r _] => destruct r as [b|] eqn:Eb; [|discriminate]
  end.
  cbn [bind]. intros [= <-].
  assert (b <> []) as Hb.
  { match type of Eb with
    | (if ?t then _ else _) = _ => destruct t
    end; [injection Eb as <-; discriminate | eapply IH; exact Eb]. }
  destruct a; [assumption | discriminate].
Qed.

Lemma check_nonfinal_groups rev voc sep :
  wf_reverse rev ->
  forall segments,
    tokens_fit segments ->
    exists groups,
      check_nonfinal segments rev voc sep = Ok (concat groups)
      /\ Forall2 (fun tok g => g <> [] /\ concat g = tok) segments groups.
Proof.
  intros Hwf. induction segments as [|s rest IH]; intros Hfit;
    cbn [check_nonfinal].
  - exists []. split; [reflexivity | constructor].
  - inversion Hfit as [|? ? Hs Hrest]; subst.
    destruct (IH Hrest) as [gs [Egs Hgs]].
    assert (exists a, (if inb (s ++ sep) voc then Ok [s]
                       else recursive_split recursion_depth s rev voc sep false)
                      = Ok a /\ a <> [] /\ concat a = s) as [a [-> [Hn Ha]]].
    { destruct (inb (s ++ sep) voc).
      - exists [s]. repeat split; [discriminate | apply app_nil_r].
      - destruct (@recursive_split_concat rev voc sep Hwf recursion_depth s false)
          as [a [Ea Hc]]; [lia|].
        exists a. repeat split; [assumption | | assumption].
        eapply recursive_split_yields; exact Ea. }
    rewrite Egs. cbn [bind]. exists (a :: gs). split; [reflexivity|].
    constructor; [now split | assumption].
Qed.

(** X7: under a well-formed reverse table, and when the interpreter
    has the recursion depth for each token (more than its length plus
    one), the vocabulary check returns on a non-empty word, and it only
    ever splits: each token of the word is replaced, in place, by one
    piece or more that spell it. *)
Theorem vocab_check_only_splits rev voc sep (word : list str) :
  wf_reverse rev -> word <> [] -> tokens_fit word ->
  exists groups,
    check_vocab_and_split word rev voc sep = Ok (concat groups)
    /\ Forall2 (fun tok g => g <> [] /\ concat g = tok) word groups.
Proof.
  intros Hwf Hne Hfit. destruct (nonempty_last Hne) as [i [x ->]].
  unfold check_vocab_and_split. rewrite init_app, last_item_app.
  apply Forall_app in Hfit. destruct Hfit as [Hi Hx].
  inversion Hx as [|? ? Hx' _]; subst.
  destruct (@check_nonfinal_groups rev voc sep Hwf i Hi) as [gs [-> Hgs]].
  cbn [bind].
  assert (exists a, (if inb x voc then Ok [x]
                     else recursive_split recursion_depth x rev voc sep true)
                    = Ok a /\ a <> [] /\ concat a = x) as [a [-> [Hn Ha]]].
  { destruct (inb x voc).
    - exists [x]. repeat split; [discriminate | apply app_nil_r].
    - destruct (@recursive_split_concat rev voc sep Hwf recursion_depth x true)
        as [a [Ea Hc]]; [lia|].
      exists a. repeat split; [assumption | | assumption].
      eapply recursive_split_yields; exact Ea. }
  cbn [bind]. exists (gs ++ [a]). split.
  - rewrite concat_app. cbn [concat]. now rewrite app_nil_r.
  - apply Forall2_app; [assumption|]. constructor; [now split | constructor].
Qed.

Lemma check_nonfinal_known rev voc sep : forall front : list str,
  Forall (fun tok => In (tok ++ sep) voc) front ->
  check_nonfinal front rev voc sep = Ok front.
Proof.
  induction front as [|s rest IH]; intros H; [reflexivity|].
  inversion H as [|? ? Hs Hrest]; subst. cbn [check_nonfinal].
  apply inb_true in Hs. rewrite Hs, (IH Hrest). reflexivity.
Qed.

(** X8: a word whose tokens are all in the vocabulary (the last as it
    is, the others with the separator appended) passes the vocabulary
    check unchanged, whatever the reverse table holds. *)
Theorem vocab_check_keeps_known_tokens rev voc sep (front : list str)
  (lst : str) :
  Forall (fun tok => In (tok ++ sep) voc) front -> In lst voc ->
  check_vocab_and_split (front ++ [lst]) rev voc sep = Ok (front ++ [lst]).
Proof.
  intros Hf Hl. unfold check_vocab_and_split.
  rewrite init_app, last_item_app, (@check_nonfinal_known rev voc sep front Hf).
  apply inb_true in Hl. cbn [bind]. now rewrite Hl.
Qed.

Lemma recursive_split_step fuel (segment : str) rev voc sep final :
  recursive_split (S fuel) segment rev voc sep final =
  match Dict.get str_eq_dec rev (if final then segment ++ EOW else segment) with
  | Some [left_; right0] =>
      let right_ := if final then Py.drop_last 4 right0 else right0 in
      l <- (if inb (left_ ++ sep) voc then Ok [left_]
            else recursive_split fuel left_ rev voc sep false) ;;
      r <- (if (final && inb right_ voc)
               || (negb final && inb (right_ ++ sep) voc)
            then Ok [right_]
            else recursive_split fuel right_ rev voc sep final) ;;
      Ok (l ++ r)
  | _ => Ok [segment]
  end.
Proof. reflexivity. Qed.

Lemma wf_no_marker_key rev : wf_reverse rev -> Dict.get str_eq_dec rev EOW = None.
Proof.
  intros Hwf. destruct (Dict.get str_eq_dec rev EOW) as [v|] eqn:E;
    [|reflexivity].
  destruct (Hwf _ _ E) as [l [r [_ [Hk [Hl [Hr He]]]]]].
  assert (Py.endswith EOW EOW = true) as H by reflexivity.
  apply He, endswith_spec in H. destruct H as [x ->].
  apply (f_equal (@length N)) in Hk. rewrite !length_app in Hk.
  destruct l; [congruence|]. simpl in Hk. lia.
Qed.

(** X9: with a vocabulary the output can hold an empty token.  Under a
    well-formed reverse table, and when the interpreter has the
    recursion depth for each token: if the last token of a word is out
    of the vocabulary, the empty string is out of it too, and the
    reverse table resolves the token, with the end-of-word marker, to
    itself and the bare marker (a rule that merged the marker onto
    it), then the check ends the word with the empty string. *)
Theorem vocab_check_empty_last_token rev voc sep (front : list str)
  (lst : str) :
  wf_reverse rev -> tokens_fit (front ++ [lst]) ->
  Dict.get str_eq_dec rev (lst ++ EOW) = Some [lst; EOW] ->
  inb lst voc = false -> inb [] voc = false ->
  exists out,
    check_vocab_and_split (front ++ [lst]) rev voc sep = Ok (out ++ [[]]).
Proof.
  intros Hwf Hfit Hget Hl He. unfold check_vocab_and_split.
  rewrite init_app, last_item_app.
  apply Forall_app in Hfit. destruct Hfit as [Hi Hx].
  inversion Hx as [|? ? Hx' _]; subst.
  destruct (@check_nonfinal_concat rev voc sep Hwf front) as [a [-> _]].
  { eapply Forall_impl; [|exact Hi]. cbv beta. intros; lia. }
  cbn [bind]. rewrite Hl.
  assert (exists n, recursion_depth = S (S n) /\ length lst < S n)
    as [n [En Hn]].
  { exists (recursion_depth - 2). split; lia. }
  rewrite En.
  rewrite recursive_split_step, Hget. cbv beta iota zeta.
  assert (Py.drop_last 4 EOW = []) as -> by reflexivity.
  rewrite He. cbn [andb negb orb].
  assert (recursive_split (S n) [] rev voc sep true = Ok [[]]) as ->.
  { rewrite recursive_split_step. cbn [app].
    now rewrite (wf_no_marker_key Hwf). }
  assert (exists l, (if inb (lst ++ sep) voc then Ok [lst]
                     else recursive_split (S n) lst rev voc sep false) = Ok l)
    as [l ->].
  { destruct (inb (lst ++ sep) voc); [eauto|].
    destruct (@recursive_split_concat rev voc sep Hwf (S n) lst false)
      as [l [El _]]; [lia | eauto]. }
  cbn [bind].
  exists (a ++ l). now rewrite app_assoc.
Qed.

Lemma final_merge_reverse_wf :
  wf_reverse [(lit "lo</w>", [lit "lo"; lit "</w>"]);
              (lit "lo", [lit "l"; lit "o"])].
Proof.
  destruct (@loaded_reverse_wf (map Py.words final_merge_file)) as [rev [E H]].
  - repeat constructor.
    + exists (lit "l"), (lit "o"). repeat split; discriminate.
    + exists (lit "lo"), (lit "</w>").
      repeat split; try discriminate.
  - vm_compute in E. injection E as <-. exact H.
Qed.

(** ** Glossaries *)

(** X10: with non-empty glossaries, [_isolate_glossaries] returns on
    every non-empty word without whitespace; the pieces spell the word,
    and each is a non-empty stretch of it. *)
Theorem isolate_glossaries_keeps_word self (word : str) :
  Forall (fun g => g <> []) (glossaries self) ->
  word <> [] -> no_space word ->
  exists out,
    _isolate_glossaries self word = Ok out
    /\ concat out = word
    /\ Forall (fragment word) out.
Proof.
  intros Hg Hne Hsp. unfold _isolate_glossaries.
  destruct (@isolate_glossaries_ok word (glossaries self) [word] Hg Hsp)
    as [out [E [Hc Hf]]].
  - constructor; [|constructor]. split; [assumption | apply substring_refl].
  - exists out. split; [assumption|]. split; [|assumption].
    rewrite Hc. cbn [concat]. apply app_nil_r.
Qed.

(** X11: a glossary that occurs in a word is isolated: it is one of
    the pieces [isolate_glossary] returns. *)
Theorem isolate_glossary_isolates (word glossary : str) :
  glossary <> [] -> no_space word -> Py.contains word glossary = true ->
  exists out,
    isolate_glossary word glossary = Ok out /\ In glossary out.
Proof.
  intros Hg Hsp Hc. unfold isolate_glossary.
  destruct (eqs word glossary) eqn:Eq.
  - apply eqs_true in Eq. subst. exists [glossary]. split; [reflexivity|].
    now left.
  - rewrite Hc. cbn [orb negb]. unfold Py.split.
    destruct glossary as [|g0 g']; [congruence|].
    set (g := g0 :: g') in *. cbn [bind].
    destruct (length word) as [|n] eqn:El.
    { destruct word; [discriminate Hc || (cbn in Hc; discriminate)
                     | discriminate]. }
    cbn [Py.split_fuel].
    destruct (partition_some _ _ Hc) as [a [b Ep]]. rewrite Ep.
    pose proof (split_fuel_nonempty n g b) as Hrest.
    destruct (nonempty_last Hrest) as [i [x Ei]]. rewrite Ei.
    change (a :: i ++ [x]) with ((a :: i) ++ [x]).
    rewrite last_item_app, init_app. cbn [bind].
    assert (Py.strip g = g) as Hs.
    { apply strip_no_space. apply substring_no_space with (w := word);
        [|assumption].
      apply contains_spec in Hc. exact Hc. }
    assert (In g (flat_map (fun split =>
                   map Py.strip
                     (filter (fun segment => negb (eqs segment [])) [split; g]))
                   (a :: i))) as Hin.
    { cbn [flat_map]. apply in_or_app. left.
      cbn [filter]. assert (eqs g [] = false) as ->
        by (apply eqs_false; discriminate).
      cbn [negb]. destruct (negb (eqs a [])); cbn [map].
      - right. left. exact Hs.
      - left. exact Hs. }
    destruct (negb (eqs x [])); eexists; (split; [reflexivity|]).
    + apply in_or_app. now left.
    + assumption.
Qed.

Lemma isolate_glossaries_from_app (gs1 gs2 : list str) : forall segments,
  isolate_glossaries_from (gs1 ++ gs2) segments
  = (out <- isolate_glossaries_from gs1 segments ;;
     isolate_glossaries_from gs2 out).
Proof.
  induction gs1 as [|g gs1 IH]; intros segments; [reflexivity|].
  cbn [app isolate_glossaries_from].
  destruct (isolate_all segments g) as [a|]; [|reflexivity].
  cbn [bind]. apply IH.
Qed.

(** X12: an empty string among the glossaries makes
    [_isolate_glossaries] raise [ValueError] on every non-empty word
    without whitespace: the empty string is in every word, and
    [split] refuses an empty separator. *)
Theorem empty_glossary_raises self (word : str) (before after : list str) :
  glossaries self = before ++ [] :: after ->
  Forall (fun g => g <> []) before ->
  word <> [] -> no_space word ->
  _isolate_glossaries self word = Raise ValueError.
Proof.
  intros Hgl Hb Hne Hsp. unfold _isolate_glossaries.
  rewrite Hgl, isolate_glossaries_from_app.
  destruct (@isolate_glossaries_ok word before [word] Hb Hsp)
    as [out [-> [Hc Hf]]].
  - constructor; [|constructor]. split; [assumption | apply substring_refl].
  - cbn [bind isolate_glossaries_from].
    destruct out as [|s rest].
    + cbn [concat] in Hc. rewrite app_nil_r in Hc. congruence.
    + inversion Hf as [|? ? [Hs _] _]; subst.
      cbn [isolate_all]. unfold isolate_glossary.
      assert (eqs s [] = false) as -> by now apply eqs_false.
      assert (Py.contains s [] = true) as ->
        by (destruct s; reflexivity).
      reflexivity.
Qed.

(** ** The case tag *)

(** X13: [get_case_feature] raises [IndexError] on the empty string;
    on any other string it returns one of the five tags. *)
Theorem get_case_feature_tags :
  get_case_feature [] = Raise IndexError
  /\ forall c (rest : str),
       exists tag,
         get_case_feature (c :: rest) = Ok tag
         /\ In tag [lit "S"; lit "E"; lit "B"; lit "A"; lit "N"].
Proof.
  split; [reflexivity|]. intros c rest.
  destruct (list_eq_dec N.eq_dec rest []) as [->|Hne].
  - rewrite get_case_feature_one. eexists. split; [reflexivity|].
    destruct (Py.isupper c); simpl; tauto.
  - destruct (nonempty_last Hne) as [mid [d ->]].
    rewrite get_case_feature_shape. eexists. split; [reflexivity|].
    unfold case_tag.
    destruct (Py.isupper c), (Py.isupper d), (forallb Py.isupper mid);
      simpl; tauto.
Qed.

(** ** The detokenizer *)

(** X14: [apply_case] passes a token with a tag that is none of N, A,
    S, E and B through unchanged, and does not raise. *)
Theorem apply_case_unknown_tag (norm feat : str) :
  ~ In feat [lit "N"; lit "A"; lit "S"; lit "E"; lit "B"] ->
  apply_case norm feat = Ok norm.
Proof.
  intros H. unfold apply_case.
  assert (eqs feat (lit "N") = false) as ->
    by (apply eqs_false; intros ->; apply H; simpl; tauto).
  assert (eqs feat (lit "A") = false) as ->
    by (apply eqs_false; intros ->; apply H; simpl; tauto).
  assert (eqs feat (lit "S") = false) as ->
    by (apply eqs_false; intros ->; apply H; simpl; tauto).
  assert (eqs feat (lit "E") = false) as ->
    by (apply eqs_false; intros ->; apply H; simpl; tauto).
  assert (eqs feat (lit "B") = false) as ->
    by (apply eqs_false; intros ->; apply H; simpl; tauto).
  cbv zeta. cbn [bind]. f_equal.
  destruct (Py.endswith norm OPENNMT_SEP) eqn:Ee.
  - apply endswith_spec in Ee. destruct Ee as [x ->].
    unfold OPENNMT_SEP. rewrite init_app.
    destruct (Py.startswith x [65517%N]) eqn:Es.
    + apply startswith_spec in Es. destruct Es as [y ->]. reflexivity.
    + reflexivity.
  - destruct (Py.startswith norm OPENNMT_SEP) eqn:Es.
    + apply startswith_spec in Es. destruct Es as [y ->].
      cbn [app skipn]. now rewrite app_nil_r.
    + cbn [app]. apply app_nil_r.
Qed.

Lemma words_go_chars (P : char -> Prop) (s : str) : forall cur,
  Forall P cur -> Forall P s -> Forall (Forall P) (Py.words_go s cur).
Proof.
  induction s as [|c s IH]; intros cur Hcur Hs; cbn [Py.words_go].
  - destruct cur; constructor; [now apply Forall_rev | constructor].
  - inversion Hs as [|? ? Hc Hrest]; subst.
    destruct (Py.isspace c).
    + destruct cur as [|d cur]; [apply IH; [constructor | assumption]|].
      constructor; [now apply Forall_rev|].
      apply IH; [constructor | assumption].
    + apply IH; [now constructor | assumption].
Qed.

Lemma join_chars (P : char -> Prop) (sep : str) (l : list str) :
  Forall P sep -> Forall (Forall P) l -> Forall P (Py.join sep l).
Proof.
  intros Hsep. induction 1 as [|x l Hx Hl IH]; [constructor|].
  destruct l as [|y l]; [assumption|].
  change (Py.join sep (x :: y :: l)) with (x ++ sep ++ Py.join sep (y :: l)).
  apply Forall_app. split; [assumption|]. apply Forall_app. now split.
Qed.

Lemma contains_absent_char (q : char) (s p : str) :
  Forall (fun c => c <> q) s -> In q p -> Py.contains s p = false.
Proof.
  intros Hs Hq. destruct (Py.contains s p) eqn:E; [|reflexivity].
  apply contains_spec in E. destruct E as [a [b ->]].
  apply Forall_app in Hs. destruct Hs as [_ Hs].
  apply Forall_app in Hs. destruct Hs as [Hp _].
  rewrite Forall_forall in Hp. now destruct (Hp q Hq).
Qed.

Lemma replace_no_match (p new s : str) :
  Py.contains s p = false -> Py.replace p new s = s.
Proof.
  intros H. unfold Py.replace. apply partition_none in H.
  destruct (length s); cbn [Py.split_fuel]; [reflexivity | now rewrite H].
Qed.

Lemma map_result_id {A} (f : A -> result A) (l : list A) :
  Forall (fun x => f x = Ok x) l -> map_result f l = Ok l.
Proof.
  induction 1 as [|x l Hx _ IH]; [reflexivity|].
  cbn [map_result]. now rewrite Hx, IH.
Qed.

Lemma detokenize_plain_line (line : str) :
  Forall (fun c => c <> 65512%N /\ c <> 65517%N) line ->
  detokenize_line line = Ok (Py.join (lit " ") (Py.words line)).
Proof.
  intros H. unfold detokenize_line.
  assert (Forall (Forall (fun c => c <> 65512%N /\ c <> 65517%N))
            (Py.words line)) as Hw
    by (apply words_go_chars; [constructor | assumption]).
  rewrite map_result_id.
  - cbn [bind]. f_equal.
    assert (Forall (fun c => c <> 65517%N)
              (Py.join (lit " ") (Py.words line))) as Hj.
    { eapply Forall_impl;
        [|apply (@join_chars (fun c => c <> 65512%N /\ c <> 65517%N));
          [|exact Hw]].
      - now intros c [_ Hc].
      - repeat constructor; discriminate. }
    rewrite (@replace_no_match (OPENNMT_SEP ++ lit " ")).
    + apply replace_no_match.
      apply contains_absent_char with (q := 65517%N); [assumption|].
      right. now left.
    + apply contains_absent_char with (q := 65517%N); [assumption|].
      now left.
  - eapply Forall_impl; [|exact Hw]. intros w Hc. unfold detokenize_word.
    rewrite partition_none; [reflexivity|].
    unfold FEAT. apply contains_head_absent.
    eapply Forall_impl; [|exact Hc]. now intros c [Hf _].
Qed.

(** X15: the detokenizer leaves text without the feature symbol and
    without the OpenNMT separator as it is, up to whitespace: each line
    is written as its words joined by single spaces, and nothing is
    raised. *)
Theorem detokenize_plain_text (input : list str) :
  Forall (Forall (fun c => c <> 65512%N /\ c <> 65517%N)) input ->
  detokenize_lines input
  = (map (fun line => Py.join (lit " ") (Py.words line) ++ [10%N]) input,
     None).
Proof.
  induction 1 as [|line input Hline _ IH]; [reflexivity|].
  cbn [detokenize_lines map].
  rewrite (detokenize_plain_line Hline), IH. reflexivity.
Qed.

(** ** Loading a rule file *)

Lemma first_index (c : code) : forall l : list code,
  In c l ->
  exists i, nth_error l i = Some c
    /\ forall j, j < i -> nth_error l j <> Some c.
Proof.
  induction l as [|c0 l IH]; intros H; [destruct H|].
  destruct (code_eq_dec c0 c) as [->|Hne].
  - exists 0. split; [reflexivity|]. intros j Hj. lia.
  - destruct H as [H|H]; [congruence|].
    destruct (IH H) as [i [Hi Hfirst]]. exists (S i). split; [assumption|].
    intros [|j] Hj; cbn [nth_error]; [congruence|]. apply Hfirst. lia.
Qed.

Lemma rank_table_has (codes : list code) (c : code) :
  In c codes -> exists i, In (c, i) (rank_table codes).
Proof.
  intros H. destruct (@first_index c codes H) as [i [Hi Hfirst]].
  exists i. eapply get_in. rewrite rank_table_fold. unfold enumerate.
  apply (@rank_fold_first c codes 0 i Hi Hfirst).
Qed.

Lemma map_result_raises {A B} (f : A -> result B) (e : exn) : forall l : list A,
  (forall x e', In x l -> f x = Raise e' -> e' = e) ->
  (exists x e', In x l /\ f x = Raise e') ->
  map_result f l = Raise e.
Proof.
  induction l as [|x l IH]; intros Hall [y [e' [Hy Ey]]]; [destruct Hy|].
  cbn [map_result]. destruct (f x) as [v|e0] eqn:Ex.
  - cbn [bind]. rewrite IH; [reflexivity | |].
    + intros z e1 Hz. apply Hall. now right.
    + destruct Hy as [->|Hy]; [congruence|]. eauto.
  - cbn [bind]. f_equal. apply (Hall x e0); [now left | assumption].
Qed.

Lemma forallb_fails {A} (f : A -> bool) (l : list A) :
  forallb f l = false -> exists x, In x l /\ f x = false.
Proof.
  induction l as [|x l IH]; [discriminate|]. cbn [forallb].
  destruct (f x) eqn:Ex; cbn [andb].
  - intros H. destruct (IH H) as [y [Hy Ey]]. exists y. split; [now right|assumption].
  - intros _. exists x. split; [now left | assumption].
Qed.

(** X16: once the version header is read, the rule file loads exactly
    when every line of rules has two symbols or more: then the engine
    has the version of the header, the separator given and an empty
    cache, and every entry of its reverse table is a line of the file
    under the concatenation of its first two symbols; a line with
    fewer symbols, a blank line for one, makes the constructor raise
    [IndexError]. *)
Theorem rule_lines_need_two_symbols (codes : list str) sep voc gl cf
  (v : list Z) (lines : list str) :
  read_header codes = Ok (v, lines) ->
  if forallb (fun l => 2 <=? length (Py.words l)) lines
  then exists b,
         BPE_init codes sep voc gl cf = Ok b
         /\ version b = v /\ separator b = sep /\ cache b = []
         /\ forall k c,
              Dict.get str_eq_dec (bpe_codes_reverse b) k = Some c ->
              In c (map Py.words lines)
              /\ exists l r tl, c = l :: r :: tl /\ k = l ++ r
  else BPE_init codes sep voc gl cf = Raise IndexError.
Proof.
  intros Hh. unfold BPE_init. rewrite Hh. cbn [bind fst snd].
  destruct (forallb (fun l => 2 <=? length (Py.words l)) lines) eqn:Ef.
  - destruct (@reverse_table_ok (map Py.words lines)) as [rev [-> Hrev]].
    + apply Forall_map, Forall_forall. intros l Hl.
      rewrite forallb_forall in Ef. apply Nat.leb_le. now apply Ef.
    + cbn [bind]. eexists. split; [reflexivity|].
      cbn [version separator cache bpe_codes_reverse].
      split; [reflexivity|]. split; [reflexivity|]. split; [reflexivity|].
      exact Hrev.
  - destruct (forallb_fails _ _ Ef) as [line [Hin Hshort]].
    apply Nat.leb_gt in Hshort.
    destruct (@rank_table_has (map Py.words lines) (Py.words line))
      as [i Hi]; [now apply in_map|].
    unfold reverse_table.
    rewrite (@map_result_raises _ _ _ IndexError); [reflexivity | |].
    + intros [c n] e' _. cbn [fst]. unfold item.
      destruct (nth_error c 0); cbn [bind]; [|congruence].
      destruct (nth_error c 1); cbn [bind]; [discriminate | congruence].
    + exists (Py.words line, i), IndexError. split; [assumption|].
      cbn [fst]. unfold item.
      destruct (Py.words line) as [|a [|b tl]]; cbn [length] in Hshort;
        [reflexivity | reflexivity | lia].
Qed.

(** ** The vocabulary file *)

Lemma vocab_add_in (w x : str) (vocabulary : list str) :
  In w (vocab_add x vocabulary) <-> w = x \/ In w vocabulary.
Proof.
  unfold vocab_add. destruct (inb x vocabulary) eqn:E.
  - apply inb_true in E. split; [tauto|]. intros [->|H]; assumption.
  - rewrite in_app_iff. simpl. split; intros H; intuition congruence.
Qed.

Lemma vocab_add_nodup (x : str) (vocabulary : list str) :
  NoDup vocabulary -> NoDup (vocab_add x vocabulary).
Proof.
  intros H. unfold vocab_add. destruct (inb x vocabulary) eqn:E; [assumption|].
  apply NoDup_app; [assumption | repeat constructor; intros [] |].
  intros y Hy [<-|[]]. apply inb_true in Hy. congruence.
Qed.

Lemma read_vocabulary_from_members threshold : forall file acc voc,
  read_vocabulary_from file threshold acc = Ok voc ->
  (NoDup acc -> NoDup voc)
  /\ forall w,
       In w voc <->
       In w acc
       \/ exists line freq f,
            In line file /\ Py.words line = [w; freq]
            /\ py_int freq = Ok f /\ passes threshold f = true.
Proof.
  induction file as [|line rest IH]; intros acc voc.
  - intros [= <-]. split; [auto|]. intros w. split; [tauto|].
    intros [H|[line [freq [f [[] _]]]]]. exact H.
  - cbn [read_vocabulary_from].
    destruct (Py.words line) as [|word [|freq [|? ?]]] eqn:Ew;
      try discriminate.
    destruct (py_int freq) as [f|] eqn:Ef; [|discriminate]. cbn [bind].
    intros H. destruct (IH _ _ H) as [Hnd Hmem]. split.
    + intros Hacc. apply Hnd.
      destruct (passes threshold f); [now apply vocab_add_nodup | assumption].
    + intros w. rewrite Hmem. split.
      * intros [Hw|[l [fr [f' [Hl Hrest]]]]].
        -- destruct (passes threshold f) eqn:Ep; [|now left].
           apply vocab_add_in in Hw. destruct Hw as [->|Hw]; [|now left].
           right. exists line, freq, f. repeat split; auto. now left.
        -- right. exists l, fr, f'. split; [now right | assumption].
      * intros [Hw|[l [fr [f' [[<-|Hl] [Hwl [Hfl Hp]]]]]]].
        -- left. destruct (passes threshold f); [|assumption].
           apply vocab_add_in. now right.
        -- left. rewrite Ew in Hwl. injection Hwl as -> ->.
           rewrite Ef in Hfl. injection Hfl as ->. rewrite Hp.
           apply vocab_add_in. now left.
        -- right. exists l, fr, f'. auto.
Qed.

(** X17: when [read_vocabulary] returns, the vocabulary holds, once
    each, exactly the first fields of the lines whose second field is a
    frequency that reaches the threshold, or any frequency when there
    is no threshold. *)
Theorem read_vocabulary_members (file : list str) (threshold : option Z)
  (voc : list str) :
  read_vocabulary file threshold = Ok voc ->
  NoDup voc
  /\ forall w,
       In w voc <->
       exists line freq f,
         In line file /\ Py.words line = [w; freq]
         /\ py_int freq = Ok f /\ passes threshold f = true.
Proof.
  intros H. destruct (read_vocabulary_from_members _ _ _ H) as [Hnd Hmem].
  split; [apply Hnd; constructor|].
  intros w. rewrite Hmem. split; [|tauto]. now intros [[]|H'].
Qed.

Lemma digits_val_raises (s : str) : forall acc e,
  digits_val acc s = Raise e -> e = ValueError.
Proof.
  induction s as [|c s IH]; intros acc e; cbn [digits_val]; [discriminate|].
  destruct ((48 <=? c) && (c <=? 57))%N; [apply IH | congruence].
Qed.

Lemma py_int_raises (x : str) e : py_int x = Raise e -> e = ValueError.
Proof.
  unfold py_int. destruct x as [|c ds]; [congruence|].
  destruct (c =? 45)%N.
  - destruct ds as [|d ds]; [congruence|].
    destruct (digits_val 0 (d :: ds)) eqn:E; [discriminate|].
    cbn [bind]. intros [= <-]. eapply digits_val_raises; exact E.
  - destruct (c =? 43)%N; [|apply digits_val_raises].
    destruct ds as [|d ds]; [congruence | apply digits_val_raises].
Qed.

Lemma read_vocabulary_from_malformed threshold (line : str) :
  length (Py.words line) <> 2 ->
  forall file acc, In line file ->
    read_vocabulary_from file threshold acc = Raise ValueError.
Proof.
  intros Hbad. induction file as [|l rest IH]; intros acc Hin; [destruct Hin|].
  cbn [read_vocabulary_from].
  destruct (Py.words l) as [|word [|freq [|? ?]]] eqn:Ew; try reflexivity.
  destruct Hin as [->|Hin]; [rewrite Ew in Hbad; simpl in Hbad; lia|].
  destruct (py_int freq) as [f|e] eqn:Ef; cbn [bind].
  - now apply IH.
  - f_equal. eapply py_int_raises; exact Ef.
Qed.

(** X18: a line of the vocabulary file that is not made of two fields,
    a blank line for one, makes [read_vocabulary] raise [ValueError],
    wherever it stands in the file. *)
Theorem read_vocabulary_malformed_line (file : list str)
  (threshold : option Z) (line : str) :
  In line file -> length (Py.words line) <> 2 ->
  read_vocabulary file threshold = Raise ValueError.
Proof.
  intros Hin Hbad. unfold read_vocabulary.
  now apply read_vocabulary_from_malformed with (line := line).
Qed.

(** ** The server *)

Lemma find_model_last (wanted : str) (m : model_t) : forall front model m0,
  find_model (front ++ [m]) wanted model m0
  = (if eqs (name m) wanted then Some m
     else fst (find_model front wanted model m0),
     Some m).
Proof.
  induction front as [|x front IH]; intros model m0; [reflexivity|].
  cbn [app find_model]. apply IH.
Qed.

Lemma find_model_found (wanted : str) : forall models model m0,
  model <> None \/ Exists (fun x => name x = wanted) models ->
  fst (find_model models wanted model m0) <> None.
Proof.
  induction models as [|x rest IH]; intros model m0 H.
  - destruct H as [H|H]; [exact H | inversion H].
  - cbn [find_model]. apply IH.
    destruct (eqs (name x) wanted) eqn:E; [left; discriminate|].
    destruct H as [H|H]; [now left|].
    inversion H as [? ? Hx|? ? Hrest]; subst; [|now right].
    apply eqs_false in E. contradiction.
Qed.

(** X19: whenever the model a request names is configured,
    [preprocess] segments the text with the engine of the last
    configured model, whichever model was named: the response is the
    stripped line of that engine, or the exception it raises, and only
    that engine's cache is touched. *)
Theorem preprocess_runs_last_model (front : list model_t) (m : model_t)
  (body : request) :
  Exists (fun x => name x = req_model body) (front ++ [m]) ->
  preprocess (front ++ [m]) body
  = (match fst (segment (bpe m) (req_seg body)) with
     | Ok res => Ok (Res (Py.strip res))
     | Raise e => Raise e
     end,
     front ++ [mkModel (name m) (snd (segment (bpe m) (req_seg body)))]).
Proof.
  intros H. unfold preprocess.
  pose proof (@find_model_found (req_model body) (front ++ [m]) None None
                (or_intror H)) as Hf.
  rewrite find_model_last in *. cbn [fst] in Hf.
  destruct (if eqs (name m) (req_model body) then Some m
            else fst (find_model front (req_model body) None None))
    as [model|]; [|congruence].
  rewrite init_app.
  destruct (segment (bpe m) (req_seg body)) as [[res|e] b]; reflexivity.
Qed.

(** X20: [preprocess] answers with the error value [no such model]
    exactly when no configured model has the name of the request; then
    nothing is raised, no engine runs and the models stay as they
    are. *)
Theorem preprocess_error_value (models : list model_t) (body : request) :
  (Forall (fun x => name x <> req_model body) models ->
   preprocess models body = (Ok (Err (lit "no such model")), models))
  /\ (fst (preprocess models body) = Ok (Err (lit "no such model")) ->
      Forall (fun x => name x <> req_model body) models).
Proof.
  split.
  - intros H. unfold preprocess.
    pose proof (@find_model_none models (req_model body) None None H) as E.
    destruct (find_model models (req_model body) None None) as [model m0].
    cbn [fst] in E. now subst model.
  - intros H.
    destruct (Forall_Exists_dec (fun x => name x <> req_model body)
                (fun x => match str_eq_dec (name x) (req_model body) with
                          | left E => right (fun Hn => Hn E)
                          | right Hn => left Hn
                          end) models) as [Hall|Hex]; [assumption|].
    exfalso.
    assert (Exists (fun x => name x = req_model body) models) as Hex'.
    { eapply Exists_impl; [|exact Hex]. intros x Hx. cbn in Hx.
      destruct (str_eq_dec (name x) (req_model body)); [assumption|].
      contradiction. }
    pose proof (@find_model_found (req_model body) models None None
                  (or_intror Hex')) as Hf.
    unfold preprocess in H.
    destruct (find_model models (req_model body) None None) as [[model|] m0];
      cbn [fst] in Hf; [|congruence].
    destruct m0 as [m|]; [|discriminate].
    destruct (segment (bpe m) (req_seg body)) as [[res|e] b]; discriminate.
Qed.

Lemma BPE_init_fields (codes : list str) sep voc gl cf b :
  BPE_init codes sep voc gl cf = Ok b ->
  separator b = sep /\ vocab b = voc /\ case_feature b = cf /\ cache b = []
  /\ glossaries b = match gl with Some (g :: gs) => g :: gs | _ => [] end.
Proof.
  unfold BPE_init.
  destruct (read_header codes) as [h|]; [|discriminate]. cbn [bind].
  destruct (reverse_table (rank_table (map Py.words (snd h)))) as [rev|];
    [|discriminate].
  cbn [bind]. intros [= <-]. repeat split.
Qed.

(** X21: when [load_models] returns, there is one model for each entry
    of the configuration, in the order of the configuration, under the
    name of its entry; its engine has the separator of the entry, no
    vocabulary, no glossaries, the case feature off and an empty
    cache. *)
Theorem load_models_plain_engines (fs : str -> option (list str))
  (config : list config_entry) (res : list model_t) :
  load_models fs config = Loaded res ->
  Forall2 (fun c m =>
             name m = cfg_name c
             /\ separator (bpe m) = cfg_separator c
             /\ vocab (bpe m) = None
             /\ glossaries (bpe m) = []
             /\ case_feature (bpe m) = false
             /\ cache (bpe m) = [])
    config res.
Proof.
  revert res. induction config as [|c rest IH]; intros res.
  - intros [= <-]. constructor.
  - cbn [load_models].
    destruct (fs (cfg_codes_file c)) as [codes|]; [|discriminate].
    destruct (BPE_init codes (cfg_separator c) None None false) as [b|] eqn:Eb;
      [|discriminate].
    destruct (load_models fs rest) as [res'| |]; try discriminate.
    intros [= <-]. constructor; [|now apply IH].
    destruct (BPE_init_fields _ _ _ _ _ Eb) as [Hs [Hv [Hc [Hca Hg]]]].
    cbn [name bpe]. auto 10.
Qed.

(** ** Segmenting a sentence and decoding it *)

Lemma join_head_app (sep a b : str) (l : list str) :
  Py.join sep ((a ++ b) :: l) = a ++ Py.join sep (b :: l).
Proof. destruct l; cbn [Py.join]; [reflexivity | now rewrite <- app_assoc]. Qed.

Lemma partition_skip (p0 : char) (p a b : str) :
  Forall (fun c => c <> p0) a ->
  Py.partition (p0 :: p) (a ++ b)
  = match Py.partition (p0 :: p) b with
    | Some (u, v) => Some (a ++ u, v)
    | None => None
    end.
Proof.
  induction 1 as [|c a Hc _ IH]; cbn [app].
  - destruct (Py.partition (p0 :: p) b) as [[u v]|]; reflexivity.
  - cbn [Py.partition Py.startswith].
    assert (N.eqb p0 c = false) as -> by (apply N.eqb_neq; congruence).
    cbn [andb]. rewrite IH.
    destruct (Py.partition (p0 :: p) b) as [[u v]|]; reflexivity.
Qed.

Lemma replace_skip (p0 : char) (p new a b : str) :
  Forall (fun c => c <> p0) a ->
  Py.replace (p0 :: p) new (a ++ b) = a ++ Py.replace (p0 :: p) new b.
Proof.
  intros H. unfold Py.replace.
  destruct (Py.partition (p0 :: p) b) as [[u v]|] eqn:E.
  - pose proof (partition_length _ _ E) as Hl. cbn [length] in Hl.
    rewrite length_app.
    destruct (length b) as [|n] eqn:En; [lia|].
    rewrite Nat.add_succ_r. cbn [Py.split_fuel].
    rewrite partition_skip by assumption. rewrite E.
    rewrite (@split_fuel_enough (p0 :: p) ltac:(discriminate)
               (length a + n) n v) by lia.
    apply join_head_app.
  - assert (forall k, Py.split_fuel k (p0 :: p) (a ++ b) = [a ++ b]) as ->.
    { intros [|k]; cbn [Py.split_fuel]; [reflexivity|].
      rewrite partition_skip by assumption. now rewrite E. }
    assert (forall k, Py.split_fuel k (p0 :: p) b = [b]) as ->.
    { intros [|k]; cbn [Py.split_fuel]; [reflexivity | now rewrite E]. }
    reflexivity.
Qed.

(** The tokens of a sentence, from the pieces of its words: every
    piece but the last of its word gets the separator. *)
Lemma join_onmt_front (T : list str) (x : str) : forall i : list str,
  Forall (Forall (fun c => c <> 65517%N)) i ->
  Py.replace [65517%N; 32%N] []
    (Py.join (lit " ") (map (fun it => it ++ OPENNMT_SEP) i ++ x :: T))
  = concat i
    ++ Py.replace [65517%N; 32%N] [] (Py.join (lit " ") (x :: T)).
Proof.
  induction 1 as [|p i Hp _ IH]; [reflexivity|].
  cbn [map app concat].
  set (rest := map (fun it => it ++ OPENNMT_SEP) i ++ x :: T) in *.
  assert (Py.join (lit " ") ((p ++ OPENNMT_SEP) :: rest)
          = p ++ [65517%N; 32%N] ++ Py.join (lit " ") rest) as ->.
  { destruct rest as [|y l] eqn:E; [now destruct i|].
    change (Py.join (lit " ") ((p ++ OPENNMT_SEP) :: y :: l))
      with ((p ++ OPENNMT_SEP) ++ lit " " ++ Py.join (lit " ") (y :: l)).
    now rewrite <- app_assoc. }
  rewrite replace_cut by assumption. rewrite IH. apply app_assoc.
Qed.

Lemma join_onmt_words : forall groups : list (list str * str),
  Forall (fun g => Forall (Forall (fun c => c <> 65517%N)) (fst g ++ [snd g]))
    groups ->
  Py.replace [65517%N; 32%N] []
    (Py.join (lit " ")
       (flat_map (fun g => map (fun it => it ++ OPENNMT_SEP) (fst g) ++ [snd g])
          groups))
  = Py.join (lit " ") (map (fun g => concat (fst g) ++ snd g) groups).
Proof.
  induction 1 as [|[i x] groups Hg _ IH]; [reflexivity|].
  cbn [flat_map map fst snd] in *.
  apply Forall_app in Hg. destruct Hg as [Hi Hx].
  inversion Hx as [|? ? Hx' _]; subst.
  rewrite <- app_assoc. cbn [app].
  rewrite join_onmt_front by assumption.
  rewrite join_head_app. f_equal.
  set (T := flat_map
              (fun g => map (fun it => it ++ OPENNMT_SEP) (fst g) ++ [snd g])
              groups) in *.
  destruct groups as [|g groups].
  - cbn [map Py.join]. subst T. cbn [flat_map Py.join].
    now apply replace_absent.
  - assert (exists y l, T = y :: l) as [y [l ET]].
    { subst T. cbn [flat_map]. destruct g as [[|a i'] x']; cbn; eauto. }
    rewrite ET in *.
    change (Py.join (lit " ") (x :: y :: l))
      with (x ++ lit " " ++ Py.join (lit " ") (y :: l)).
    rewrite app_assoc, replace_skip.
    + rewrite IH. cbn [map].
      change (Py.join (lit " ")
                (x :: (concat (fst g) ++ snd g)
                   :: map (fun g0 => concat (fst g0) ++ snd g0) groups))
        with (x ++ lit " " ++
              Py.join (lit " ")
                ((concat (fst g) ++ snd g)
                   :: map (fun g0 => concat (fst g0) ++ snd g0) groups)).
      now rewrite <- app_assoc.
    + apply Forall_app. split; [assumption|].
      repeat constructor. discriminate.
Qed.

Lemma words_go_substring (sentence : str) : forall (s cur pre : str),
  sentence = pre ++ rev cur ++ s ->
  Forall (fun w => substring w sentence) (Py.words_go s cur).
Proof.
  induction s as [|c s IH]; intros cur pre E; cbn [Py.words_go].
  - destruct cur as [|d cur]; constructor; [|constructor].
    exists pre, []. exact E.
  - destruct (Py.isspace c).
    + destruct cur as [|d cur].
      * apply (IH [] (pre ++ [c])). rewrite E. cbn [rev app].
        now rewrite <- app_assoc.
      * constructor.
        -- exists pre, (c :: s). exact E.
        -- apply (IH [] (pre ++ rev (d :: cur) ++ [c])). rewrite E.
           cbn [rev app]. now rewrite <- !app_assoc.
    + apply (IH (c :: cur) pre). rewrite E. cbn [rev].
      now rewrite <- !app_assoc.
Qed.

Lemma encode_segments_pieces self (w : str) :
  supported (version self) -> supplied (vocab self) = false ->
  Py.contains w EOW = false ->
  forall (segments : list str) (c : cache_t),
    cache_faithful self c -> Forall (fragment w) segments ->
    exists l,
      fst (encode_segments self segments c) = Ok l
      /\ concat l = concat segments
      /\ Forall (fun t => t <> []) l
      /\ cache_faithful self (snd (encode_segments self segments c)).
Proof.
  intros Hv Hs Hno. induction segments as [|s rest IH]; intros c Hc Hf;
    cbn [encode_segments].
  - exists []. repeat split; [constructor | assumption].
  - inversion Hf as [|? ? [Hne Hsub] Hrest]; subst.
    destruct (@encode_faithful self s c Hc) as [E F].
    destruct (@fresh_pieces self s Hv Hs Hne (substring_no_eow Hsub Hno))
      as [v [Ev [Hcat Hsym]]].
    rewrite Ev in E.
    destruct (encode s (bpe_codes self) (bpe_codes_reverse self) (vocab self)
                (separator self) (version self) c (glossaries self))
      as [r d]. cbn [fst snd] in *. subst r.
    destruct (IH d F Hrest) as [l [El [Hl [Hsl Fl]]]].
    destruct (encode_segments self rest d) as [[l'|e] k]; cbn [fst snd] in *;
      [|discriminate].
    injection El as ->. exists (pieces v ++ l). split; [reflexivity|].
    split; [|split; [|assumption]].
    + rewrite concat_app. cbn [concat]. congruence.
    + apply Forall_app. now split.
Qed.

Lemma segment_word_plain self (word : str) (c : cache_t) :
  case_feature self = false -> supported (version self) ->
  supplied (vocab self) = false ->
  Forall (fun g => g <> []) (glossaries self) ->
  word <> [] -> no_space word -> Py.contains word EOW = false ->
  cache_faithful self c ->
  exists i x,
    fst (segment_word self word c)
    = Ok (map (fun it => it ++ separator self) i ++ [x])
    /\ concat i ++ x = word
    /\ Forall (fun t => t <> []) (i ++ [x])
    /\ cache_faithful self (snd (segment_word self word c)).
Proof.
  intros Hcf Hv Hs Hg Hne Hsp Hno Hc.
  unfold segment_word, new_word_of, normalize, _isolate_glossaries.
  rewrite Hcf.
  destruct (@isolate_glossaries_ok word (glossaries self) [word] Hg Hsp)
    as [segs [-> [Hcat Hfr]]].
  { constructor; [|constructor]. split; [assumption | apply substring_refl]. }
  destruct (@encode_segments_pieces self word Hv Hs Hno segs c Hc Hfr)
    as [l [El [Hl [Hsym F]]]].
  destruct (encode_segments self segs c) as [[l'|e] k]; cbn [fst snd] in *;
    [|discriminate].
  injection El as ->.
  assert (concat l = word) as Hw
    by (rewrite Hl, Hcat; cbn [concat]; apply app_nil_r).
  assert (l <> []) as Hln by (intros ->; cbn [concat] in Hw; congruence).
  destruct (nonempty_last Hln) as [i [x ->]].
  exists i, x. rewrite (format_word_plain _ _ _ _ Hcf).
  split; [reflexivity|]. split; [|split; assumption].
  rewrite concat_app in Hw. cbn [concat] in Hw. now rewrite app_nil_r in Hw.
Qed.

Lemma segment_words_plain self :
  case_feature self = false -> supported (version self) ->
  supplied (vocab self) = false ->
  Forall (fun g => g <> []) (glossaries self) ->
  forall (ws : list str) (c : cache_t),
    cache_faithful self c ->
    Forall (fun w => w <> [] /\ no_space w /\ Py.contains w EOW = false) ws ->
    exists groups : list (list str * str),
      fst (segment_words self ws c)
      = Ok (flat_map (fun g => map (fun it => it ++ separator self) (fst g)
                               ++ [snd g]) groups)
      /\ map (fun g => concat (fst g) ++ snd g) groups = ws
      /\ Forall (fun g => Forall (fun t => t <> []) (fst g ++ [snd g])) groups
      /\ cache_faithful self (snd (segment_words self ws c)).
Proof.
  intros Hcf Hv Hs Hg. induction ws as [|w rest IH]; intros c Hc Hws;
    cbn [segment_words].
  - exists []. repeat split; [constructor | assumption].
  - inversion Hws as [|? ? [Hne [Hsp Hno]] Hrest]; subst.
    destruct (@segment_word_plain self w c Hcf Hv Hs Hg Hne Hsp Hno Hc)
      as [i [x [E [Hw [Hsym F]]]]].
    destruct (segment_word self w c) as [[toks|e] k]; cbn [fst snd] in *;
      [|discriminate].
    injection E as ->.
    destruct (IH k F Hrest) as [groups [Eg [Hmap [Hall Fk]]]].
    destruct (segment_words self rest k) as [[out|e] k']; cbn [fst snd] in *;
      [|discriminate].
    injection Eg as ->. exists ((i, x) :: groups).
    cbn [flat_map map fst snd]. split; [reflexivity|].
    split; [congruence|]. split; [now constructor | assumption].
Qed.

Lemma concat_chars_all (P : char -> Prop) (l : list str) :
  Forall P (concat l) -> Forall (Forall P) l.
Proof.
  induction l as [|x l IH]; cbn [concat]; intros H; [constructor|].
  apply Forall_app in H. destruct H as [Hx Hl]. constructor; auto.
Qed.

Lemma detokenize_groups (groups : list (list str * str)) :
  Forall (fun g => Forall (fun t => t <> []) (fst g ++ [snd g])) groups ->
  Forall (fun g =>
            Forall (fun c => Py.isspace c = false
                             /\ c <> 65512%N /\ c <> 65517%N)
              (concat (fst g) ++ snd g)) groups ->
  detokenize_line
    (Py.join (lit " ")
       (flat_map (fun g => map (fun it => it ++ OPENNMT_SEP) (fst g) ++ [snd g])
          groups))
  = Ok (Py.join (lit " ") (map (fun g => concat (fst g) ++ snd g) groups)).
Proof.
  intros Hne Hch.
  set (toks := flat_map
                 (fun g => map (fun it => it ++ OPENNMT_SEP) (fst g) ++ [snd g])
                 groups).
  assert (Forall (fun g =>
                    Forall (Forall (fun c => Py.isspace c = false
                                             /\ c <> 65512%N /\ c <> 65517%N))
                      (fst g ++ [snd g])) groups) as Hpieces.
  { eapply Forall_impl; [|exact Hch]. intros [i x] H. cbn [fst snd] in *.
    apply concat_chars_all. rewrite concat_app. cbn [concat].
    now rewrite app_nil_r. }
  assert (Forall (fun t => t <> []
                           /\ Forall (fun c => Py.isspace c = false
                                               /\ c <> 65512%N) t) toks)
    as Htoks.
  { subst toks. clear Hch.
    induction groups as [|[i x] groups IH]; [constructor|].
    inversion Hne as [|? ? Hn1 Hn2]; subst.
    inversion Hpieces as [|? ? Hp1 Hp2]; subst.
    cbn [flat_map fst snd] in *. apply Forall_app. split; [|now apply IH].
    apply Forall_app in Hn1, Hp1.
    destruct Hn1 as [Hni Hnx], Hp1 as [Hpi Hpx].
    apply Forall_app. split.
    - apply Forall_map. rewrite Forall_forall in *. intros t Ht. split.
      + specialize (Hni t Ht). destruct t; [congruence | discriminate].
      + apply Forall_app. split.
        * eapply Forall_impl; [|exact (Hpi t Ht)]. cbn. tauto.
        * repeat constructor. discriminate.
    - inversion Hnx; inversion Hpx; subst. repeat constructor; [assumption|].
      eapply Forall_impl; [|eassumption]. cbn. tauto. }
  unfold detokenize_line. rewrite words_join.
  2:{ eapply Forall_impl; [|exact Htoks]. intros t [Ht Hc]. split; [assumption|].
      eapply Forall_impl; [|exact Hc]. cbn. tauto. }
  rewrite map_result_id.
  2:{ eapply Forall_impl; [|exact Htoks]. intros t [_ Hc].
      unfold detokenize_word. rewrite partition_none; [reflexivity|].
      unfold FEAT. apply contains_head_absent.
      eapply Forall_impl; [|exact Hc]. cbn. tauto. }
  cbn [bind]. f_equal.
  change (OPENNMT_SEP ++ lit " ") with [65517%N; 32%N].
  subst toks. rewrite join_onmt_words.
  2:{ eapply Forall_impl; [|exact Hpieces]. intros g H.
      eapply Forall_impl; [|exact H]. intros t Ht.
      eapply Forall_impl; [|exact Ht]. cbn. tauto. }
  apply replace_no_match.
  apply contains_absent_char with (q := 65517%N); [|right; now left].
  apply join_chars; [repeat constructor; discriminate|].
  apply Forall_map. eapply Forall_impl; [|exact Hch]. intros g H.
  eapply Forall_impl; [|exact H]. cbn. tauto.
Qed.

(** A line of input that holds neither the feature symbol nor the
    separator, and not the marker text. *)
Lemma plain_words (sentence : str) :
  Forall (fun c => c <> 65512%N /\ c <> 65517%N) sentence ->
  Py.contains sentence EOW = false ->
  Forall (fun w => w <> [] /\ no_space w /\ Py.contains w EOW = false)
    (Py.words sentence)
  /\ Forall (Forall (fun c => Py.isspace c = false
                              /\ c <> 65512%N /\ c <> 65517%N))
       (Py.words sentence).
Proof.
  intros Hch Hno.
  pose proof (words_fragments sentence) as H1.
  pose proof (@words_go_substring sentence sentence [] [] eq_refl) as H2.
  assert (Forall (Forall (fun c => c <> 65512%N /\ c <> 65517%N))
            (Py.words sentence)) as H3
    by (apply words_go_chars; [constructor | assumption]).
  split; apply Forall_forall; intros w Hw;
    rewrite Forall_forall in H1, H2, H3.
  - destruct (H1 w Hw) as [Hne Hsp]. repeat split; try assumption.
    eapply substring_no_eow; [apply (H2 w Hw) | assumption].
  - destruct (H1 w Hw) as [_ Hsp]. specialize (H3 w Hw).
    unfold no_space in Hsp. rewrite Forall_forall in *. intros ch Hin.
    destruct (H3 ch Hin). repeat split; auto.
Qed.

Lemma segment_decodes self (c : cache_t) (sentence : str) :
  case_feature self = false -> separator self = OPENNMT_SEP ->
  supported (version self) -> supplied (vocab self) = false ->
  Forall (fun g => g <> []) (glossaries self) ->
  cache_faithful self c ->
  Forall (fun c => c <> 65512%N /\ c <> 65517%N) sentence ->
  Py.contains sentence EOW = false ->
  exists line c',
    segment (with_cache self c) sentence = (Ok line, with_cache self c')
    /\ cache_faithful self c'
    /\ detokenize_line line = Ok (Py.join (lit " ") (Py.words sentence)).
Proof.
  intros Hcf Hsep Hv Hs Hg Hc Hch Hno.
  destruct (plain_words Hch Hno) as [Hws Hwch].
  destruct (@segment_words_plain self Hcf Hv Hs Hg (Py.words sentence) c Hc Hws)
    as [groups [E [Hmap [Hall F]]]].
  unfold segment. cbn [cache with_cache].
  rewrite segment_words_with_cache.
  destruct (segment_words self (Py.words sentence) c) as [[out|e] k];
    cbn [fst snd] in *; [|discriminate].
  injection E as ->. eexists _, k. split; [reflexivity|].
  split; [assumption|].
  rewrite Hsep, detokenize_groups; [now rewrite Hmap | assumption |].
  rewrite <- Hmap in Hwch. now rewrite Forall_map in Hwch.
Qed.

(** X22: segmenting and decoding give the sentence back.  With the
    case feature off, the OpenNMT separator, a supported version, no
    vocabulary and non-empty glossaries, on a sentence that holds
    neither the feature symbol, nor the separator, nor the end-of-word
    marker text, [segment] returns a line, and the detokenizer turns
    that line into the words of the sentence joined by single spaces,
    whatever the rules and whatever was segmented before. *)
Theorem segment_then_detokenize self (sentence : str) :
  case_feature self = false -> separator self = OPENNMT_SEP ->
  supported (version self) -> supplied (vocab self) = false ->
  Forall (fun g => g <> []) (glossaries self) ->
  cache_faithful self (cache self) ->
  Forall (fun c => c <> 65512%N /\ c <> 65517%N) sentence ->
  Py.contains sentence EOW = false ->
  exists line,
    fst (segment self sentence) = Ok line
    /\ detokenize_line line = Ok (Py.join (lit " ") (Py.words sentence)).
Proof.
  intros Hcf Hsep Hv Hs Hg Hc Hch Hno.
  destruct (@segment_decodes self (cache self) sentence
              Hcf Hsep Hv Hs Hg Hc Hch Hno) as [line [c' [E [_ Hd]]]].
  rewrite with_cache_same in E. exists line. rewrite E. now split.
Qed.

(** ** The two programs in a row *)

Lemma lstrip_cut (s : str) :
  exists lead, s = lead ++ Py.lstrip s /\ Forall (fun c => Py.isspace c = true) lead.
Proof.
  induction s as [|c s [lead [E H]]].
  - exists []. split; [reflexivity | constructor].
  - cbn [Py.lstrip]. destruct (Py.isspace c) eqn:Ec.
    + exists (c :: lead). split; [cbn [app]; congruence | now constructor].
    + exists []. split; [reflexivity | constructor].
Qed.

Lemma strip_cut (s : str) :
  exists lead trail,
    s = lead ++ Py.strip s ++ trail
    /\ Forall (fun c => Py.isspace c = true) lead
    /\ Forall (fun c => Py.isspace c = true) trail.
Proof.
  destruct (lstrip_cut s) as [lead [E1 H1]].
  destruct (lstrip_cut (rev (Py.lstrip s))) as [t [E2 H2]].
  exists lead, (rev t). unfold Py.strip. split; [|split].
  - rewrite E1 at 1. f_equal.
    apply (f_equal (@rev N)) in E2.
    rewrite rev_involutive, rev_app_distr in E2. exact E2.
  - assumption.
  - now apply Forall_rev.
Qed.

Lemma words_go_lead (lead s : str) :
  Forall (fun c => Py.isspace c = true) lead ->
  Py.words_go (lead ++ s) [] = Py.words_go s [].
Proof.
  induction 1 as [|c lead Hc _ IH]; [reflexivity|].
  cbn [app Py.words_go]. now rewrite Hc.
Qed.

Lemma words_go_trail (trail : str) :
  Forall (fun c => Py.isspace c = true) trail ->
  forall s cur, Py.words_go (s ++ trail) cur = Py.words_go s cur.
Proof.
  intros Ht. induction s as [|c s IH]; intros cur.
  - cbn [app]. revert cur. induction Ht as [|c t Hc _ IHt]; intros cur;
      [reflexivity|].
    cbn [Py.words_go]. rewrite Hc.
    destruct cur as [|d cur]; [apply (IHt [])|].
    now rewrite (IHt []).
  - cbn [app Py.words_go].
    destruct (Py.isspace c); [destruct cur|]; now rewrite ?IH.
Qed.

(** The words of a line are those of the line written for it. *)
Lemma words_written (s : str) : Py.words (Py.strip s ++ [10%N]) = Py.words s.
Proof.
  destruct (strip_cut s) as [lead [trail [E [Hl Ht]]]].
  unfold Py.words. rewrite E at 2.
  rewrite (words_go_lead _ Hl), (words_go_trail Ht).
  apply words_go_trail. repeat constructor.
Qed.

Lemma detokenize_written (res : str) :
  detokenize_line (Py.strip res ++ [10%N]) = detokenize_line res.
Proof. unfold detokenize_line. now rewrite words_written. Qed.

Lemma write_lines_decode self :
  case_feature self = false -> separator self = OPENNMT_SEP ->
  supported (version self) -> supplied (vocab self) = false ->
  Forall (fun g => g <> []) (glossaries self) ->
  forall (input : list str) (c : cache_t),
    cache_faithful self c ->
    Forall (fun line => Forall (fun c => c <> 65512%N /\ c <> 65517%N) line
                        /\ Py.contains line EOW = false) input ->
    exists out b,
      write_lines (with_cache self c) input = (out, Ok b)
      /\ detokenize_lines out
         = (map (fun line => Py.join (lit " ") (Py.words line) ++ [10%N]) input,
            None).
Proof.
  intros Hcf Hsep Hv Hs Hg. induction input as [|line rest IH]; intros c Hc Hin.
  - eexists _, _. split; reflexivity.
  - inversion Hin as [|? ? [Hch Hno] Hrest]; subst.
    destruct (@segment_decodes self c line Hcf Hsep Hv Hs Hg Hc Hch Hno)
      as [res [c' [E [F Hd]]]].
    destruct (IH c' F Hrest) as [out [b [Ew Ed]]].
    cbn [write_lines]. rewrite E, Ew. cbn [fst snd].
    eexists _, b. split; [reflexivity|].
    cbn [detokenize_lines map]. rewrite detokenize_written, Hd, Ed.
    reflexivity.
Qed.

(** X23: the two programs in a row give the text back.  When
    apply_bpe.py runs with the OpenNMT separator, without vocabulary
    and without the case feature, on a rule file that loads under a
    supported version, with no empty glossary, and on input lines that
    hold neither the feature symbol, nor the separator, nor the
    end-of-word marker text, it writes a line for every line of the
    input and raises nothing; and detokenize.py, run on what was
    written, writes each line of the input as its words joined by
    single spaces. *)
Theorem apply_bpe_then_detokenize (args : cli_args) (b0 : BPE) :
  arg_opennmt_separator args = true -> arg_vocabulary args = None ->
  arg_case_feature args = false ->
  BPE_init (arg_codes args) OPENNMT_SEP None (arg_glossaries args) false
  = Ok b0 ->
  supported (version b0) ->
  Forall (fun g => g <> []) (glossaries b0) ->
  Forall (fun line => Forall (fun c => c <> 65512%N /\ c <> 65517%N) line
                      /\ Py.contains line EOW = false) (arg_input args) ->
  exists out b,
    apply_bpe_main args = (out, Ok b)
    /\ detokenize_lines out
       = (map (fun line => Py.join (lit " ") (Py.words line) ++ [10%N])
            (arg_input args),
          None).
Proof.
  intros Hsep Hvoc Hcf Hinit Hv Hg Hin. unfold apply_bpe_main.
  rewrite Hvoc, Hsep, Hcf, Hinit.
  destruct (BPE_init_fields _ _ _ _ _ Hinit) as [Es [Ev [Ec [Eca _]]]].
  rewrite <- (with_cache_same b0), Eca.
  apply write_lines_decode; try assumption.
  - now rewrite Ev.
  - intros k v H. discriminate.
Qed.

(** ** The set of pairs *)

Lemma set_add_nodup q (acc : list (str * str)) :
  NoDup acc -> NoDup (set_add q acc).
Proof.
  intros H. unfold set_add. destruct (in_dec pair_eq_dec q acc); [assumption|].
  apply NoDup_app; [assumption | repeat constructor; intros [] |].
  intros y Hy [<-|[]]. contradiction.
Qed.

Lemma pairs_from_nodup : forall (w : list str) prev acc,
  NoDup acc -> NoDup (pairs_from prev w acc).
Proof.
  induction w as [|c w IH]; intros prev acc H; cbn [pairs_from]; [assumption|].
  apply IH. now apply set_add_nodup.
Qed.

(** X24: [get_pairs] raises [IndexError] on the empty word; on any
    other word it returns, once each, exactly the pairs of neighbouring
    symbols of the word. *)
Theorem get_pairs_neighbours :
  get_pairs [] = Raise IndexError
  /\ forall (x : str) (w : list str),
       exists pairs,
         get_pairs (x :: w) = Ok pairs
         /\ NoDup pairs
         /\ forall p, In p pairs <-> adjacent p (x :: w).
Proof.
  split; [reflexivity|]. intros x w. eexists. split; [reflexivity|]. split.
  - apply pairs_from_nodup. constructor.
  - intros p. split.
    + intros H. apply pairs_from_adjacent in H. now destruct H as [[]|H].
    + apply pairs_from_complete.
Qed.

(** X25: the order in which Python walks the sets of pairs does not
    matter to the merge loop.  Under a rule table built by the loader,
    the loop in which the set of every iteration is walked in an order
    of its own gives the result of the loop that walks each set in the
    order of first occurrence.  (The ranks of a loaded table are
    distinct, so that [min] has one answer unless no pair has a rule,
    and then the loop ends.) *)
Theorem merge_loop_any_set_order (codes : list code)
  (walk : nat -> list (str * str) -> list (str * str)) :
  (forall n l p, In p (walk n l) <-> In p l) ->
  forall (fuel : nat) (word : list str) (pairs : list (str * str)),
    merge_loop_walk walk fuel (rank_table codes) word pairs
    = merge_loop fuel (rank_table codes) word pairs.
Proof.
  intros Hwalk. induction fuel as [|fuel IH]; intros word pairs;
    [reflexivity|].
  cbn [merge_loop merge_loop_walk].
  destruct (py_min (rank_of (rank_table codes)) (walk fuel pairs))
    as [b|e] eqn:Eb;
    destruct (py_min (rank_of (rank_table codes)) pairs) as [b'|e'] eqn:Eb'.
  - cbn [bind].
    destruct (@py_min_loaded_any_order codes (walk fuel pairs) pairs b b'
                (Hwalk fuel pairs) Eb Eb') as [->|[H H']].
    + destruct (negb (Dict.mem code_eq_dec (rank_table codes) (tup b')));
        [reflexivity|].
      destruct (length (merge_pass (fst b') (snd b') word) =? 1);
        [reflexivity|].
      destruct (get_pairs (merge_pass (fst b') (snd b') word)) as [ps|];
        [|reflexivity].
      cbn [bind]. apply IH.
    + now rewrite H, H'.
  - destruct pairs as [|q l]; [|discriminate].
    apply (py_min_in (rank_of (rank_table codes))) in Eb.
    now apply Hwalk in Eb.
  - destruct (walk fuel pairs) as [|q l] eqn:Ew; [|discriminate].
    apply (py_min_in (rank_of (rank_table codes))) in Eb'.
    apply (Hwalk fuel pairs) in Eb'. rewrite Ew in Eb'. destruct Eb'.
  - destruct pairs; [|discriminate].
    destruct (walk fuel []) as [|q l] eqn:Ew; rewrite ?Ew in Eb;
      [|discriminate].
    cbn [py_min] in Eb, Eb'. injection Eb as <-. injection Eb' as <-.
    reflexivity.
Qed.

(** ** Blank lines *)

(** X26: on a sentence made of whitespace only, the empty sentence for
    one, [segment] returns the empty line and leaves the engine as it
    is, whatever the engine: nothing is raised, also under a version
    [encode] does not know. *)
Theorem segment_blank_line self (sentence : str) :
  Forall (fun c => Py.isspace c = true) sentence ->
  segment self sentence = (Ok [], self).
Proof.
  intros H. unfold segment, Py.words.
  rewrite <- (app_nil_r sentence), (words_go_lead [] H).
  cbn [Py.words_go segment_words Py.join]. now rewrite with_cache_same.
Qed.

End Interpreter.

(* ================================================================= *)
(** * Instances *)

(** The theorems above at concrete inputs, and the inputs on which
    statements of the specification fail.  The recursion depth left to
    the interpreter is taken to be 1000 throughout; it matters only
    where an engine with a vocabulary runs. *)

Lemma segment_word_round_trip_witness :
  exists toks c',
    segment_word 1000 lower_vocab_bpe (lit "lower") [] = (Ok toks, c')
    /\ word_text lower_vocab_bpe toks = lit "lower" /\ cache_ok c'.
Proof.
  apply segment_word_round_trip.
  - reflexivity.
  - right. reflexivity.
  - discriminate.
  - repeat constructor.
  - reflexivity.
  - repeat constructor. discriminate.
  - intros _. split; [exact lower_reverse_wf|].
    unfold deep_enough. simpl. lia.
  - intros k v H. discriminate.
Defined.

(** C1 as stated fails: with the case feature on, the tokens of [Ab]
    spell [ab]. *)
Lemma round_trip_fails_with_case_feature :
  exists toks c',
    segment_word 1000 case_bpe (lit "Ab") [] = (Ok toks, c')
    /\ word_text case_bpe toks = lit "ab"
    /\ lit "ab" <> lit "Ab".
Proof.
  eexists _, _. split; [reflexivity|]. split; [reflexivity | discriminate].
Qed.

(** C2 as stated fails: the tokens of [lower] are not [low@@ er]. *)
Lemma lower_scenario_not_as_stated :
  exists toks,
    fst (segment_word 1000 (lower_bpe [0; 1]%Z) (lit "lower") []) = Ok toks
    /\ toks <> [lit "low@@"; lit "er"].
Proof. eexists. split; [reflexivity | discriminate]. Qed.

Lemma encode_caches_result_witness :
  exists word,
    VSeq [lit "low"; lit "e"; lit "r"] = VSeq word
    /\ Dict.get str_eq_dec [(lit "lower", [lit "low"; lit "e"; lit "r"])]
         (lit "lower") = Some word
    /\ forall c'', Dict.get str_eq_dec c'' (lit "lower") = Some word ->
         encode 1000 (lit "lower") (bpe_codes (lower_bpe [0; 2]%Z))
           (bpe_codes_reverse (lower_bpe [0; 2]%Z)) None (lit "@@")
           [0; 2]%Z c'' []
         = (Ok (VSeq word), c'').
Proof.
  apply (proj1 (proj1 (@encode_caches_result 1000 (lit "lower")
                         (bpe_codes (lower_bpe [0; 2]%Z))
                         (bpe_codes_reverse (lower_bpe [0; 2]%Z)) None
                         (lit "@@") [0; 2]%Z [] [] eq_refl eq_refl)
                  (or_intror (conj eq_refl
                     (le_S _ _ (le_S _ _ (le_S _ _ (le_n 2)))))))).
  reflexivity.
Defined.

(** C4 as stated fails.  Under version 0.2 a call on a one-letter word,
    neither cached nor a glossary, returns and leaves the cache empty.
    And the key is not the original word: with the case feature on,
    segmenting [Ab] writes the pieces under [ab], the normalized word,
    and nothing under [Ab]. *)
Lemma cache_not_keyed_by_original_word :
  encode 1000 (lit "a") [] [] None (lit "@@") [0; 2]%Z [] []
  = (Ok (VStr (lit "a")), [])
  /\ snd (segment_word 1000 case_bpe (lit "Ab") [])
     = [(lit "ab", [lit "a"; lit "b"])].
Proof. split; reflexivity. Qed.

Lemma vocabulary_constraint_witness :
  exists front lst,
    [lit "l"; lit "o"; lit "w"] = front ++ [lst]
    /\ Forall (nonfinal_ok (bpe_codes_reverse lower_vocab_bpe)
                 [lit "l@@"; lit "w"] (lit "@@")) front
    /\ final_ok (bpe_codes_reverse lower_vocab_bpe) [lit "l@@"; lit "w"] lst.
Proof.
  apply (proj1 (@vocabulary_constraint 1000 [lit "lo"; lit "w"]
                  (bpe_codes_reverse lower_vocab_bpe) [lit "l@@"; lit "w"]
                  (lit "@@") (wf_pairs_only lower_reverse_wf))).
  reflexivity.
Defined.

(** C5 as stated fails.  Under the one rule (l, o) of version 0.1 and
    the vocabulary [l@@], [o], [x], the word [lo] is emitted as the
    single token [lo]: it is not in the vocabulary, and the reverse
    table has the entry (l, o) for it; the code looks the last token up
    with the end-of-word marker, and finds nothing.  And a token that
    is the last of a glossary fragment is checked as a last token, but
    written with the separator: with the glossary [USA] and the
    vocabulary [lo], [USA], the word [loUSA] is emitted as [lo@@],
    [USA], where [lo@@] is not in the vocabulary and [lo] has its
    entry. *)
Lemma vocabulary_constraint_not_as_stated :
  BPE_init lo_file (lit "@@") (Some [lit "l@@"; lit "o"; lit "x"]) None false
  = Ok lo_vocab_bpe
  /\ fst (segment_word 1000 lo_vocab_bpe (lit "lo") []) = Ok [lit "lo"]
  /\ inb (lit "lo") (vocab_set (vocab lo_vocab_bpe)) = false
  /\ Dict.get str_eq_dec (bpe_codes_reverse lo_vocab_bpe) (lit "lo")
     = Some [lit "l"; lit "o"]
  /\ BPE_init lo_file (lit "@@") (Some [lit "lo"; lit "USA"])
       (Some [lit "USA"]) false
     = Ok lo_glossary_bpe
  /\ fst (segment_word 1000 lo_glossary_bpe (lit "loUSA") [])
     = Ok [lit "lo@@"; lit "USA"]
  /\ inb (lit "lo@@") (vocab_set (vocab lo_glossary_bpe)) = false
  /\ Dict.get str_eq_dec (bpe_codes_reverse lo_glossary_bpe) (lit "lo")
     = Some [lit "l"; lit "o"].
Proof. repeat split. Qed.

Lemma first_occurrence_rank_witness :
  exists bpe,
    BPE_init duplicate_file (lit "@@") None None false = Ok bpe
    /\ Dict.get code_eq_dec (bpe_codes bpe) [lit "l"; lit "o"] = Some 0.
Proof.
  eexists. split; [reflexivity|].
  apply (@first_occurrence_rank duplicate_file (lit "@@") None None false _
           [0; 1]%Z duplicate_file [lit "l"; lit "o"] 0).
  - reflexivity.
  - reflexivity.
  - reflexivity.
  - intros j Hj. lia.
Defined.

Lemma unsupported_version_raises_in_encode_witness :
  exists bpe,
    BPE_init future_file (lit "@@") None None false = Ok bpe
    /\ version bpe = [0; 3]%Z
    /\ (~ supported [0; 3]%Z ->
        forall (orig : str) c,
          Dict.get str_eq_dec c orig = None ->
          inb orig (glossaries bpe) = false ->
          encode 1000 orig (bpe_codes bpe) (bpe_codes_reverse bpe) (vocab bpe)
            (separator bpe) (version bpe) c (glossaries bpe)
          = (Raise NotImplementedError, c)).
Proof.
  apply (@unsupported_version_raises_in_encode 1000 future_file (lit "@@") None None
           false [0; 3]%Z [lit "l o"]).
  - reflexivity.
  - repeat constructor.
Defined.

(** C7 as stated fails: a file that names version 0.3 loads. *)
Lemma future_version_loads :
  exists bpe,
    BPE_init future_file (lit "@@") None None false = Ok bpe
    /\ version bpe = [0; 3]%Z.
Proof. eexists. split; reflexivity. Qed.

Lemma isolate_glossary_fragments_witness :
  exists out,
    isolate_glossary (lit "1934USABUSA") (lit "USA") = Ok out
    /\ Forall (fun x => x <> []) out.
Proof.
  apply isolate_glossary_fragments.
  - discriminate.
  - repeat constructor.
  - discriminate.
Defined.

(** C8 as stated fails: a piece of whitespace is tested before it is
    trimmed, and the empty word is returned as it is. *)
Lemma isolate_glossary_empty_fragment :
  isolate_glossary (lit " USA") (lit "USA") = Ok [[]; lit "USA"]
  /\ isolate_glossary [] (lit "USA") = Ok [[]].
Proof. split; reflexivity. Qed.

Lemma one_letter_word_v02_witness :
  encode 1000 (lit "a") (bpe_codes lower_vocab_bpe)
    (bpe_codes_reverse lower_vocab_bpe) (vocab lower_vocab_bpe) (lit "@@")
    [0; 2]%Z [] (glossaries lower_vocab_bpe)
  = (Ok (VStr (lit "a")), []).
Proof.
  apply (@one_letter_word_v02 1000 97%N); reflexivity.
Defined.

(** C10 as stated fails: a one-letter word that is a glossary is
    returned as a tuple and written to the cache. *)
Lemma one_letter_glossary_is_cached :
  encode 1000 (lit "a") [] [] None (lit "@@") [0; 2]%Z [] [lit "a"]
  = (Ok (VSeq [lit "a"]), [(lit "a", [lit "a"])]).
Proof. reflexivity. Qed.

Lemma case_round_trip_witness :
  exists toks c',
    segment_word 1000 (case_onmt_bpe [0; 2]%Z) (lit "Lower") []
    = (Ok toks, c')
    /\ detokenize_line (Py.join (lit " ") toks) = Ok (lit "Lower").
Proof.
  destruct (@case_round_trip 1000 (case_onmt_bpe [0; 2]%Z) (lit "Lower") [])
    as [new_word [c' [E [_ H]]]].
  - reflexivity.
  - reflexivity.
  - right. reflexivity.
  - discriminate.
  - repeat constructor.
  - constructor.
  - intros _. split; [exact lower_reverse_wf|].
    unfold deep_enough. simpl. lia.
  - intros k v Hk. discriminate.
  - vm_compute in E. injection E as <- <-.
    destruct (H eq_refl) as [toks [E1 E2]].
    exists toks. eexists. split; [exact E1 | exact E2].
Defined.

(** C3 as stated fails.  The capital inside [lOw] is not recorded by
    the tag of the token [low], and is lost.  And with a vocabulary the
    last piece of a word can be empty: under the rules (l, o) and
    (lo, </w>) and the vocabulary that holds [l] and [o] with the
    separator, the pieces of [lo] are [l], [o] and the empty string,
    and [segment] raises [IndexError] on the word, from
    [get_case_feature] on the empty stretch. *)
Lemma case_round_trip_not_as_stated :
  (exists toks c',
      segment_word 1000 (case_onmt_bpe [0; 1]%Z) (lit "lOw") []
      = (Ok toks, c')
      /\ detokenize_line (Py.join (lit " ") toks) = Ok (lit "low")
      /\ lit "low" <> lit "lOw")
  /\ BPE_init final_merge_file OPENNMT_SEP
       (Some [lit "l" ++ OPENNMT_SEP; lit "o" ++ OPENNMT_SEP]) None true
     = Ok case_vocab_bpe
  /\ fst (new_word_of 1000 case_vocab_bpe (lit "lo") [])
     = Ok [lit "l"; lit "o"; []]
  /\ fst (segment 1000 case_vocab_bpe (lit "lo")) = Raise IndexError.
Proof.
  split.
  - eexists _, _. split; [reflexivity|]. split; [reflexivity | discriminate].
  - split; [reflexivity|]. split; reflexivity.
Qed.

Lemma segment_history_irrelevant_witness :
  fst (segment 1000 (snd (segment 1000 (lower_bpe [0; 2]%Z) (lit "lower")))
         (lit "low lower"))
  = fst (segment 1000 (lower_bpe [0; 2]%Z) (lit "low lower"))
  /\ cache_faithful 1000 (lower_bpe [0; 2]%Z)
       (cache (snd (segment 1000 (lower_bpe [0; 2]%Z) (lit "lower")))).
Proof.
  apply segment_history_irrelevant. intros k v H. discriminate.
Defined.

Lemma segment_keeps_cache_entries_witness :
  Dict.get str_eq_dec
    (cache (snd (segment 1000
                   (with_cache (lower_bpe [0; 2]%Z)
                      [(lit "lower", [lit "low"; lit "e"; lit "r"])])
                   (lit "low slow"))))
    (lit "lower")
  = Some [lit "low"; lit "e"; lit "r"].
Proof.
  apply segment_keeps_cache_entries. reflexivity.
Defined.

Lemma write_lines_line_by_line_witness :
  Forall2 (fun line written =>
             exists res,
               fst (segment 1000 (with_cache (lower_bpe [0; 2]%Z) []) line) = Ok res
               /\ written = Py.strip res ++ [10%N])
    [lit "lower low"; lit " low "]
    [lit "low@@ e@@ r lo@@ w" ++ [10%N]; lit "lo@@ w" ++ [10%N]].
Proof.
  eapply (@write_lines_line_by_line 1000 (lower_bpe [0; 2]%Z)).
  - intros k v H. discriminate.
  - reflexivity.
Defined.

Lemma merge_loop_result_witness :
  exists w',
    merge_loop 6 (bpe_codes (lower_bpe [0; 1]%Z))
      [lit "l"; lit "o"; lit "w"; lit "e"; lit "r"; EOW]
      [(lit "l", lit "o"); (lit "o", lit "w"); (lit "w", lit "e");
       (lit "e", lit "r"); (lit "r", EOW)] = Ok w'
    /\ concat w' = concat [lit "l"; lit "o"; lit "w"; lit "e"; lit "r"; EOW]
    /\ 1 <= length w' <= 6
    /\ (length w' = 1
        \/ forall p, adjacent p w' ->
             Dict.mem code_eq_dec (bpe_codes (lower_bpe [0; 1]%Z)) (tup p)
             = false).
Proof.
  apply (@merge_loop_result (bpe_codes (lower_bpe [0; 1]%Z))
           [lit "l"; lit "o"; lit "w"; lit "e"; lit "r"; EOW]).
  - reflexivity.
  - discriminate.
Defined.

Lemma unruled_word_is_spelled_witness :
  exists v,
    fst (encode 1000 (lit "slow") [] [] None (lit "@@") [0; 2]%Z [] []) = Ok v
    /\ pieces v = map (fun ch => [ch]) (lit "slow").
Proof.
  apply unruled_word_is_spelled.
  - right. reflexivity.
  - discriminate.
  - reflexivity.
  - reflexivity.
  - reflexivity.
Defined.

Lemma encode_tokens_never_empty_witness :
  exists v,
    fst (encode 1000 (lit "lower") (bpe_codes (lower_bpe [0; 2]%Z))
           (bpe_codes_reverse (lower_bpe [0; 2]%Z)) None (lit "@@")
           [0; 2]%Z [] []) = Ok v
    /\ Forall (fun tok => tok <> []) (pieces v).
Proof.
  apply encode_tokens_never_empty.
  - right. reflexivity.
  - discriminate.
  - reflexivity.
  - reflexivity.
  - reflexivity.
Defined.

Lemma vocab_check_only_splits_witness :
  exists groups,
    check_vocab_and_split 1000 [lit "lo"; lit "w"]
      (bpe_codes_reverse lower_vocab_bpe) [lit "l@@"; lit "w"] (lit "@@")
    = Ok (concat groups)
    /\ Forall2 (fun tok g => g <> [] /\ concat g = tok)
         [lit "lo"; lit "w"] groups.
Proof.
  apply vocab_check_only_splits.
  - exact lower_reverse_wf.
  - discriminate.
  - repeat constructor; simpl; lia.
Defined.

Lemma vocab_check_keeps_known_tokens_witness :
  check_vocab_and_split 1000 ([lit "l"] ++ [lit "w"])
    (bpe_codes_reverse lower_vocab_bpe) [lit "l@@"; lit "w"] (lit "@@")
  = Ok ([lit "l"] ++ [lit "w"]).
Proof.
  apply vocab_check_keeps_known_tokens.
  - repeat constructor.
  - right. left. reflexivity.
Defined.

Lemma vocab_check_empty_last_token_witness :
  exists out,
    check_vocab_and_split 1000 ([] ++ [lit "lo"])
      [(lit "lo</w>", [lit "lo"; lit "</w>"]); (lit "lo", [lit "l"; lit "o"])]
      [lit "l@@"; lit "o@@"] (lit "@@")
    = Ok (out ++ [[]]).
Proof.
  apply vocab_check_empty_last_token.
  - exact final_merge_reverse_wf.
  - repeat constructor; simpl; lia.
  - reflexivity.
  - reflexivity.
  - reflexivity.
Defined.

Lemma isolate_glossaries_keeps_word_witness :
  exists out,
    _isolate_glossaries lower_vocab_bpe (lit "1934USABUSA") = Ok out
    /\ concat out = lit "1934USABUSA"
    /\ Forall (fragment (lit "1934USABUSA")) out.
Proof.
  apply isolate_glossaries_keeps_word.
  - repeat constructor. discriminate.
  - discriminate.
  - repeat constructor.
Defined.

Lemma isolate_glossary_isolates_witness :
  exists out,
    isolate_glossary (lit "1934USABUSA") (lit "USA") = Ok out
    /\ In (lit "USA") out.
Proof.
  apply isolate_glossary_isolates.
  - discriminate.
  - repeat constructor.
  - reflexivity.
Defined.

Lemma empty_glossary_raises_witness :
  _isolate_glossaries
    (mkBPE [0; 1]%Z [] [] (lit "@@") None [lit "USA"; []] false [])
    (lit "1934USABUSA")
  = Raise ValueError.
Proof.
  apply (@empty_glossary_raises
           (mkBPE [0; 1]%Z [] [] (lit "@@") None [lit "USA"; []] false [])
           (lit "1934USABUSA") [lit "USA"] []).
  - reflexivity.
  - repeat constructor. discriminate.
  - discriminate.
  - repeat constructor.
Defined.

Lemma apply_case_unknown_tag_witness :
  apply_case (lit "low") (lit "X") = Ok (lit "low").
Proof.
  apply apply_case_unknown_tag.
  intros [H|[H|[H|[H|[H|[]]]]]]; discriminate.
Defined.

Lemma detokenize_plain_text_witness :
  detokenize_lines [lit "  so   low "; lit "lower"]
  = (map (fun line => Py.join (lit " ") (Py.words line) ++ [10%N])
       [lit "  so   low "; lit "lower"],
     None).
Proof.
  apply detokenize_plain_text.
  repeat match goal with
         | |- Forall _ _ => constructor
         | |- _ /\ _ => split
         | |- _ <> _ => discriminate
         end.
Defined.

Lemma rule_lines_need_two_symbols_witness :
  if forallb (fun l => 2 <=? length (Py.words l)) [lit "l o"; lit "lo"]
  then exists b,
         BPE_init (lit "#version: 0.2" :: [lit "l o"; lit "lo"]) (lit "@@")
           None None false = Ok b
         /\ version b = [0; 2]%Z /\ separator b = lit "@@" /\ cache b = []
         /\ forall k c,
              Dict.get str_eq_dec (bpe_codes_reverse b) k = Some c ->
              In c (map Py.words [lit "l o"; lit "lo"])
              /\ exists l r tl, c = l :: r :: tl /\ k = l ++ r
  else BPE_init (lit "#version: 0.2" :: [lit "l o"; lit "lo"]) (lit "@@")
         None None false = Raise IndexError.
Proof.
  apply (@rule_lines_need_two_symbols
           (lit "#version: 0.2" :: [lit "l o"; lit "lo"]) (lit "@@")
           None None false [0; 2]%Z [lit "l o"; lit "lo"]).
  reflexivity.
Defined.

Lemma read_vocabulary_members_witness :
  NoDup [lit "low"]
  /\ forall w,
       In w [lit "low"] <->
       exists line freq f,
         In line [lit "low 5"; lit "er 1"; lit "low 7"]
         /\ Py.words line = [w; freq]
         /\ py_int freq = Ok f /\ passes (Some 2%Z) f = true.
Proof.
  apply (@read_vocabulary_members [lit "low 5"; lit "er 1"; lit "low 7"]
           (Some 2%Z) [lit "low"]).
  reflexivity.
Defined.

Lemma read_vocabulary_malformed_line_witness :
  read_vocabulary [lit "low 5"; lit ""; lit "er 1"] None = Raise ValueError.
Proof.
  apply (@read_vocabulary_malformed_line [lit "low 5"; lit ""; lit "er 1"]
           None (lit "")).
  - right. left. reflexivity.
  - discriminate.
Defined.

Lemma preprocess_runs_last_model_witness :
  preprocess 1000 ([mkModel (lit "a") (lower_bpe [0; 1]%Z)]
              ++ [mkModel (lit "b") plain_bpe])
    (mkRequest (lit "a") (lit "lo"))
  = (match fst (segment 1000 plain_bpe (lit "lo")) with
     | Ok res => Ok (Res (Py.strip res))
     | Raise e => Raise e
     end,
     [mkModel (lit "a") (lower_bpe [0; 1]%Z)]
     ++ [mkModel (lit "b") (snd (segment 1000 plain_bpe (lit "lo")))]).
Proof.
  apply (@preprocess_runs_last_model 1000
           [mkModel (lit "a") (lower_bpe [0; 1]%Z)]
           (mkModel (lit "b") plain_bpe)
           (mkRequest (lit "a") (lit "lo"))).
  left. reflexivity.
Defined.

Lemma load_models_plain_engines_witness :
  Forall2 (fun c m =>
             name m = cfg_name c
             /\ separator (bpe m) = cfg_separator c
             /\ vocab (bpe m) = None
             /\ glossaries (bpe m) = []
             /\ case_feature (bpe m) = false
             /\ cache (bpe m) = [])
    [mkConfig (lit "a.bpe") (lit "@@") (lit "a");
     mkConfig (lit "b.bpe") (lit "@@") (lit "b")]
    two_models.
Proof.
  apply (@load_models_plain_engines
           (fun path => if eqs path (lit "a.bpe") then Some lower_file
                        else Some [])).
  reflexivity.
Defined.

Lemma segment_then_detokenize_witness :
  exists line,
    fst (segment 1000 (onmt_bpe [0; 2]%Z) (lit " so  lower low ")) = Ok line
    /\ detokenize_line line
       = Ok (Py.join (lit " ") (Py.words (lit " so  lower low "))).
Proof.
  apply segment_then_detokenize.
  - reflexivity.
  - reflexivity.
  - right. reflexivity.
  - reflexivity.
  - constructor.
  - intros k v H. discriminate.
  - repeat match goal with
           | |- Forall _ _ => constructor
           | |- _ /\ _ => split
           | |- _ <> _ => discriminate
           end.
  - reflexivity.
Defined.

Lemma apply_bpe_then_detokenize_witness :
  exists out b,
    apply_bpe_main 1000
      (mkArgs lower_file_v02 [lit "so  lower low" ++ [10%N]; [10%N]]
         true None None None false)
    = (out, Ok b)
    /\ detokenize_lines out
       = (map (fun line => Py.join (lit " ") (Py.words line) ++ [10%N])
            [lit "so  lower low" ++ [10%N]; [10%N]],
          None).
Proof.
  apply (@apply_bpe_then_detokenize 1000
           (mkArgs lower_file_v02 [lit "so  lower low" ++ [10%N]; [10%N]]
              true None None None false)
           (onmt_bpe [0; 2]%Z)).
  - reflexivity.
  - reflexivity.
  - reflexivity.
  - reflexivity.
  - right. reflexivity.
  - constructor.
  - repeat match goal with
           | |- Forall _ _ => constructor
           | |- _ /\ _ => split
           | |- _ <> _ => discriminate
           | |- _ = false => reflexivity
           end.
Defined.

Lemma merge_loop_any_set_order_witness :
  merge_loop_walk (fun _ pairs => rev pairs) 5
    (rank_table (map Py.words lower_file))
    [lit "l"; lit "o"; lit "w"; EOW]
    [(lit "l", lit "o"); (lit "o", lit "w"); (lit "w", EOW)]
  = merge_loop 5 (rank_table (map Py.words lower_file))
      [lit "l"; lit "o"; lit "w"; EOW]
      [(lit "l", lit "o"); (lit "o", lit "w"); (lit "w", EOW)].
Proof.
  apply merge_loop_any_set_order.
  intros n l p. symmetry. apply in_rev.
Defined.

Lemma segment_blank_line_witness :
  segment 1000 (mkBPE [0; 3]%Z [] [] (lit "@@") None [] false [])
    (lit "  " ++ [10%N])
  = (Ok [], mkBPE [0; 3]%Z [] [] (lit "@@") None [] false []).
Proof.
  apply segment_blank_line.
  repeat constructor.
Defined.
